(** * cf-nlp: the signed Codeforces client and its aggregation engine

    A shallow embedding of [lib/cf/sign.ts], [lib/cf/client.ts],
    [app/api/cf/route.ts] and [lib/analytics/aggregate.ts], followed by the
    properties of the specification that concern them.

    Conventions of the embedding.
    - A JavaScript string is a [string]; the texts the code builds and compares
      (week identifiers, parameter names, decimal numbers) are ASCII, where a
      byte is a UTF-16 code unit. A text beyond ASCII (white space in a
      contest name, an accented parameter name) is held as its bytes in UTF-8.
    - An integer [number] (a Unix time, a rating, a rank, a counter) is a [Z]
      or a [nat]; the one place where the code multiplies by constants that
      have no binary representation ([computeCustomScore]) is computed in
      IEEE binary64 with the primitive floats.
    - An object used as a dictionary whose enumeration order is observable is
      an association list in insertion order; one that is only looked up is a
      [gmap].
    - [await cf(...)] is the argument of each aggregation function: the list
      (or record) the upstream returned.
    - The clock, the random nonce, the collation of [localeCompare], SHA-512
      and [encodeURIComponent] are inputs of the functions that use them. *)

From Stdlib Require Import ZArith QArith Qround Floats Ascii.
From Stdlib Require Uint63.
From stdpp Require Import gmap strings list pretty sorting.

Set Warnings "-inexact-float".
Local Open Scope string_scope.
Local Open Scope Z_scope.

(** ** JavaScript primitives *)

Module JS.

(** [a ?? d] *)
Definition nullish {A : Type} (a : option A) (d : A) : A :=
  match a with
  | Some x => x
  | None => d
  end.

(** [s || d] for [s : string | undefined]: the empty string is falsy. *)
Definition or_str (s : option string) (d : string) : string :=
  match s with
  | Some x => if decide (x = "") then d else x
  | None => d
  end.

(** [`${n}`] and [String(n)] for an integer [n : number | undefined]. *)
Definition tpl (n : option Z) : string :=
  match n with
  | Some z => pretty z
  | None => "undefined"
  end.

(** [a.join(sep)] *)
Fixpoint join (sep : string) (a : list string) : string :=
  match a with
  | [] => ""
  | [x] => x
  | x :: rest => x +:+ sep +:+ join sep rest
  end.

(** [Array.prototype.sort(cmp)]: the sort is stable, and for a consistent
    comparator every stable sort returns the same array. A negative or zero
    result keeps [x] in front of [y]. *)
Section Sort.
Context {A : Type} (cmp : A → A → Z).

Fixpoint sort_insert (x : A) (l : list A) : list A :=
  match l with
  | [] => [x]
  | y :: l' =>
      if cmp x y <=? 0 then x :: y :: l' else y :: sort_insert x l'
  end.

Definition sort (l : list A) : list A := foldr sort_insert [] l.
End Sort.

(** The comparison [sort()] uses without a comparator: code units. *)
Definition codeUnitCompare (a b : string) : Z :=
  match String.compare a b with
  | Lt => -1
  | Eq => 0
  | Gt => 1
  end.

Definition sort_default (l : list string) : list string :=
  sort codeUnitCompare l.

(** Objects whose key order is observable: [o[k]] and [o[k] = v]. The keys
    the code stores this way are never canonical array indices, so
    enumeration order is insertion order. *)
Section Obj.
Context {V : Type}.

Fixpoint get (k : string) (o : list (string * V)) : option V :=
  match o with
  | [] => None
  | (k', v) :: o' => if decide (k = k') then Some v else get k o'
  end.

Fixpoint set (k : string) (v : V) (o : list (string * V))
  : list (string * V) :=
  match o with
  | [] => [(k, v)]
  | (k', v') :: o' =>
      if decide (k = k') then (k', v) :: o' else (k', v') :: set k v o'
  end.
End Obj.

(** [Object.keys(o)] *)
Definition keys {V : Type} (o : list (string * V)) : list string :=
  map fst o.

(** The double nearest to an integer: what [JSON.parse] gives for an integer
    literal, exact up to 2^53. *)
Definition Number (z : Z) : float :=
  SF2Prim (binary_normalize prec emax z 0 false).

(** [Math.round(x)] for a finite [x]: the integer floor(x + 1/2), computed
    exactly from the mantissa and exponent (not by a floating-point
    addition). [Math.round] leaves NaN and the infinities unchanged; they are
    not integers and are sent to 0 here. *)
Definition Math_round (x : float) : Z :=
  match Prim2SF x with
  | S754_finite s m e =>
      let v := if s then Z.neg m else Z.pos m in
      if 0 <=? e then v * 2 ^ e
      else (2 * v + 2 ^ (- e)) / (2 * 2 ^ (- e))
  | _ => 0
  end.

(** [Math.round(s / n)] for integers [s] and [n > 0]. While |s| + n stays
    below 2^52 the double nearest to s/n is on the same side of every
    half-integer as s/n itself (the two differ by at least 1/(2n), more than
    half a unit in the last place), so the result is the exact
    floor(s/n + 1/2). *)
Definition Math_round_div (s n : Z) : Z := (2 * s + n) / (2 * n).

End JS.

(** ** [lib/analytics/aggregate.ts]: the upstream entities *)

(** [user.info]: the fields [fetchProfile] reads. [rating], [maxRating],
    [maxRank], [contribution] and [friendOfCount] may be absent. *)
Record User := {
  u_handle : string;
  u_rank : option string;
  u_rating : option Z;
  u_maxRating : option Z;
  u_maxRank : option string;
  u_contribution : option Z;
  u_registrationTimeSeconds : Z;
  u_friendOfCount : option Z;
}.

Record ProfileAggregate := {
  handle : string;
  title : option string;
  currentRating : option Z;
  maxRating : option Z;
  maxRank : option string;
  contribution : Z;
  registrationTime : Z;
  customScore : Z;
}.

(** [contest.list] *)
Record Contest := {
  c_name : string;
  c_phase : string;
  c_startTimeSeconds : Z;
  c_durationSeconds : Z;
}.

Record ContestEntry := {
  name : string;
  division : option string;
  startTimeSeconds : Z;
  durationSeconds : Z;
}.

(** [user.rating] *)
Record RatingEntry := {
  contestName : string;
  contestId : Z;
  ratingUpdateTimeSeconds : Z;
  rank : Z;
  oldRating : Z;
  newRating : Z;
}.

Record RatingSummary := {
  total : nat;
  bestRank : option Z;
  avgDelta : option Z;
}.

(** [user.status]: [problem.contestId] and [problem.rating] may be absent, and
    so may [verdict] and [programmingLanguage]. *)
Record Problem := {
  p_contestId : option Z;
  p_index : string;
  p_rating : option Z;
}.

Record Submission := {
  creationTimeSeconds : Z;
  verdict : option string;
  programmingLanguage : option string;
  problem : Problem;
}.

Record SubmissionStats := {
  st_total : nat;
  verdictCounts : list (string * nat);
  languages : list (string * nat);
  accepted : nat;
}.

(** The five keys of [ProblemDifficulty['buckets']]. *)
Record Buckets := {
  lt1100 : nat;
  b1100_1399 : nat;
  b1400_1699 : nat;
  b1700_1999 : nat;
  ge2000 : nat;
}.

Record ProblemDifficulty := {
  totalSolved : nat;
  highestSolvedRating : option Z;
  buckets : Buckets;
}.

(** ** Profile *)

Definition computeCustomScore (user : User) : Z :=
  let rating := JS.nullish (u_rating user) 0 in
  let contests := JS.nullish (u_friendOfCount user) 0 in
  JS.Math_round (JS.Number rating * 0.9 + JS.Number contests * 0.1)%float.

(** [user.rank || null] *)
Definition rank_or_null (r : option string) : option string :=
  match r with
  | Some x => if decide (x = "") then None else Some x
  | None => None
  end.

Definition fetchProfile (user : User) : ProfileAggregate :=
  let customScore := computeCustomScore user in
  {| handle := u_handle user;
     title := rank_or_null (u_rank user);
     currentRating := u_rating user;
     maxRating := u_maxRating user;
     maxRank := u_maxRank user;
     contribution := JS.nullish (u_contribution user) 0;
     registrationTime := u_registrationTimeSeconds user;
     customScore := customScore |}.

(** [Math.round] on the rationals: the nearest integer, a tie going up. *)
Definition roundHalfUp (q : Q) : Z := Qfloor (q + 0.5)%Q.

(** round(0.9 r + 0.1 f) in exact arithmetic: what [computeCustomScore],
    which computes in binary64, is compared with below. *)
Definition exactScore (r f : Z) : Z :=
  roundHalfUp (0.9 * inject_Z r + 0.1 * inject_Z f)%Q.

(** ** Texts

    A text is held as its bytes in UTF-8. [utf8] is the text of one code
    point below U+10000. *)
Definition utf8 (point : N) : string :=
  let byte n := ascii_of_N n in
  if (point <? 0x80)%N then String (byte point) ""
  else if (point <? 0x800)%N then
    String (byte (0xC0 + point / 64)%N)
      (String (byte (0x80 + point mod 64)%N) "")
  else
    String (byte (0xE0 + point / 4096)%N)
      (String (byte (0x80 + (point / 64) mod 64)%N)
         (String (byte (0x80 + point mod 64)%N) "")).

(** ** Upcoming contests *)

Module Division.
Definition lower (c : ascii) : ascii :=
  let n := nat_of_ascii c in
  if ((65 <=? n) && (n <=? 90))%nat then ascii_of_nat (n + 32) else c.

Definition is_digit (c : ascii) : bool :=
  let n := nat_of_ascii c in ((48 <=? n) && (n <=? 57))%nat.

(** The class [\s]: the white space and the line terminators of ECMA-262.
    Texts are held in UTF-8, in which a member of the class is one byte
    (U+0009 to U+000D, U+0020), two bytes (U+00A0) or three bytes (U+1680,
    U+2000 to U+200A, U+2028, U+2029, U+202F, U+205F, U+3000, U+FEFF). *)
Definition is_space1 (a : ascii) : bool :=
  let n := nat_of_ascii a in
  ((n =? 32) || ((9 <=? n) && (n <=? 13)))%nat.

Definition is_space2 (a b : ascii) : bool :=
  ((nat_of_ascii a =? 194) && (nat_of_ascii b =? 160))%nat.

Definition is_space3 (a b c : ascii) : bool :=
  let x := nat_of_ascii a in
  let y := nat_of_ascii b in
  let z := nat_of_ascii c in
  ((x =? 225) && (y =? 154) && (z =? 128)
   || (x =? 226) && (y =? 128)
      && ((128 <=? z) && (z <=? 138) || (z =? 168) || (z =? 169) || (z =? 175))
   || (x =? 226) && (y =? 129) && (z =? 159)
   || (x =? 227) && (y =? 128) && (z =? 128)
   || (x =? 239) && (y =? 187) && (z =? 191))%nat.

(** [\s*], which is greedy: no member of the class is left at the head. *)
Fixpoint skip_spaces (s : string) : string :=
  match s with
  | String a r1 =>
      if is_space1 a then skip_spaces r1
      else
        match r1 with
        | String b r2 =>
            if is_space2 a b then skip_spaces r2
            else
              match r2 with
              | String c r3 => if is_space3 a b c then skip_spaces r3 else s
              | EmptyString => s
              end
        | EmptyString => s
        end
  | EmptyString => s
  end.

(** [\.?], which is greedy: a dot at the head is taken. *)
Definition skip_dot (s : string) : string :=
  match s with
  | String "."%char r => r
  | _ => s
  end.

(** [/Div\.?\s*(\d)/i] anchored at the head of [s]: neither the optional
    dot nor the greedy spaces can be given back to make a digit match, a
    digit being neither. Without the flag [u] a letter of the pattern only
    matches its two ASCII forms. *)
Definition match_here (s : string) : option ascii :=
  match s with
  | String d (String i (String v rest)) =>
      if decide (lower d = "d"%char ∧ lower i = "i"%char ∧ lower v = "v"%char)
      then
        match skip_spaces (skip_dot rest) with
        | String c _ => if is_digit c then Some c else None
        | EmptyString => None
        end
      else None
  | _ => None
  end.

(** The leftmost match of the pattern. *)
Fixpoint first_match (s : string) : option ascii :=
  match match_here s with
  | Some c => Some c
  | None =>
      match s with
      | String _ rest => first_match rest
      | EmptyString => None
      end
  end.
End Division.

Definition extractDivision (name : string) : option string :=
  match Division.first_match name with
  | Some c => Some ("Div." +:+ String c EmptyString)
  | None => None
  end.

Definition upcoming (now : Z) (c : Contest) : Prop :=
  c_phase c = "BEFORE" ∧ now < c_startTimeSeconds c.

Global Instance upcoming_dec now c : Decision (upcoming now c).
Proof. unfold upcoming. apply _. Defined.

Definition toContestEntry (c : Contest) : ContestEntry :=
  {| name := c_name c;
     division := extractDivision (c_name c);
     startTimeSeconds := c_startTimeSeconds c;
     durationSeconds := c_durationSeconds c |}.

(** [now] is [dayjs().unix()], [contests] the result of [contest.list]. *)
Definition fetchUpcomingContests (now : Z) (contests : list Contest)
  : list ContestEntry :=
  map toContestEntry (take 20 (filter (upcoming now) contests)).

(** [app/page.tsx], the effect that runs when the page is mounted:
    [fetchUpcomingContests().then(contests => contests.sort((a, b) =>
       a.startTimeSeconds - b.startTimeSeconds))]. The other consumers
    ([loadAll] of the same page, [app/analytics/page.tsx]) keep the list as
    [fetchUpcomingContests] returned it. *)
Definition byStartTime (a b : ContestEntry) : Z :=
  startTimeSeconds a - startTimeSeconds b.

Definition HomePage_onMount (now : Z) (contests : list Contest)
  : list ContestEntry :=
  JS.sort byStartTime (fetchUpcomingContests now contests).

(** ** Rating history *)

(** [entries.reduce((acc, e) => acc === null ? e.rank : Math.min(acc, e.rank),
    null)] *)
Definition bestRank_step (acc : option Z) (e : RatingEntry) : option Z :=
  match acc with
  | None => Some (rank e)
  | Some a => Some (Z.min a (rank e))
  end.

(** [entries.reduce((s, e) => s + (e.newRating - e.oldRating), 0)] *)
Definition delta_step (s : Z) (e : RatingEntry) : Z :=
  s + (newRating e - oldRating e).

Definition fetchRatingHistory (entries : list RatingEntry)
  : RatingSummary * list RatingEntry :=
  let total := length entries in
  let bestRank := foldl bestRank_step None entries in
  let avgDelta :=
    if decide (total = 0%nat) then None
    else Some (JS.Math_round_div (foldl delta_step 0 entries) (Z.of_nat total)) in
  ({| total := total; bestRank := bestRank; avgDelta := avgDelta |}, entries).

(** The rating change of one contest, [e.newRating - e.oldRating]. *)
Definition delta (e : RatingEntry) : Z := newRating e - oldRating e.

(** ** Submission overview *)

(** [o[k] = (o[k] || 0) + 1] *)
Definition bump (k : string) (o : list (string * nat)) : list (string * nat) :=
  JS.set k (JS.nullish (JS.get k o) 0 + 1)%nat o.

(** The three accumulators of the loop of [fetchSubmissionOverview]. *)
Record OverviewAcc := {
  acc_verdictCounts : list (string * nat);
  acc_languages : list (string * nat);
  acc_accepted : nat;
}.

Definition overview_step (a : OverviewAcc) (s : Submission) : OverviewAcc :=
  let v := JS.or_str (verdict s) "UNKNOWN" in
  let lang := JS.or_str (programmingLanguage s) "Unknown" in
  {| acc_verdictCounts := bump v (acc_verdictCounts a);
     acc_languages := bump lang (acc_languages a);
     acc_accepted :=
       if decide (v = "OK") then (acc_accepted a + 1)%nat else acc_accepted a |}.

Definition fetchSubmissionOverview (subs : list Submission) : SubmissionStats :=
  let a :=
    foldl overview_step
      {| acc_verdictCounts := []; acc_languages := []; acc_accepted := 0 |}
      subs in
  {| st_total := length subs;
     verdictCounts := acc_verdictCounts a;
     languages := acc_languages a;
     accepted := acc_accepted a |}.

(** ** Difficulty histogram *)

(** [`${s.problem.contestId}-${s.problem.index}`] *)
Definition problemKey (s : Submission) : string :=
  JS.tpl (p_contestId (problem s)) +:+ "-" +:+ p_index (problem s).

(** [s.verdict === 'OK'] *)
Definition isOK (s : Submission) : bool :=
  bool_decide (verdict s = Some "OK").

(** First loop: [if (s.verdict === 'OK') solved[key] = true]. *)
Definition markSolved (solved : gmap string bool) (s : Submission)
  : gmap string bool :=
  if isOK s then <[problemKey s := true]> solved else solved.

(** [!solved[key]] *)
Definition notSolved (solved : gmap string bool) (key : string) : bool :=
  match solved !! key with
  | Some true => false
  | _ => true
  end.

(** The [if ... else if] chain over [r]. *)
Definition bucketOf (r : Z) (b : Buckets) : Buckets :=
  if r <? 1100 then
    {| lt1100 := lt1100 b + 1; b1100_1399 := b1100_1399 b;
       b1400_1699 := b1400_1699 b; b1700_1999 := b1700_1999 b;
       ge2000 := ge2000 b |}%nat
  else if r <? 1400 then
    {| lt1100 := lt1100 b; b1100_1399 := b1100_1399 b + 1;
       b1400_1699 := b1400_1699 b; b1700_1999 := b1700_1999 b;
       ge2000 := ge2000 b |}%nat
  else if r <? 1700 then
    {| lt1100 := lt1100 b; b1100_1399 := b1100_1399 b;
       b1400_1699 := b1400_1699 b + 1; b1700_1999 := b1700_1999 b;
       ge2000 := ge2000 b |}%nat
  else if r <? 2000 then
    {| lt1100 := lt1100 b; b1100_1399 := b1100_1399 b;
       b1400_1699 := b1400_1699 b; b1700_1999 := b1700_1999 b + 1;
       ge2000 := ge2000 b |}%nat
  else
    {| lt1100 := lt1100 b; b1100_1399 := b1100_1399 b;
       b1400_1699 := b1400_1699 b; b1700_1999 := b1700_1999 b;
       ge2000 := ge2000 b + 1 |}%nat.

(** Second loop, one iteration. The guard is the [continue]. *)
Definition difficulty_step (solved : gmap string bool)
    (d : ProblemDifficulty) (s : Submission) : ProblemDifficulty :=
  let key := problemKey s in
  if notSolved solved key || negb (isOK s) then d
  else
    let totalSolved := (totalSolved d + 1)%nat in
    match p_rating (problem s) with
    | None =>
        {| totalSolved := totalSolved;
           highestSolvedRating := highestSolvedRating d;
           buckets := buckets d |}
    | Some r =>
        {| totalSolved := totalSolved;
           highestSolvedRating :=
             Some (Z.max (JS.nullish (highestSolvedRating d) r) r);
           buckets := bucketOf r (buckets d) |}
    end.

Definition noBuckets : Buckets :=
  {| lt1100 := 0; b1100_1399 := 0; b1400_1699 := 0; b1700_1999 := 0;
     ge2000 := 0 |}.

Definition fetchProblemDifficulty (subs : list Submission) : ProblemDifficulty :=
  let solved := foldl markSolved ∅ subs in
  foldl (difficulty_step solved)
    {| totalSolved := 0; highestSolvedRating := None; buckets := noBuckets |}
    subs.

(** ** dayjs

    [fetchActivity] sees time only through dayjs. An instant is its Unix time
    in seconds. [Api] lists the calls the function makes; [utc] implements them
    for a process whose local zone is UTC, with the one plugin the module
    loads ([isoWeek]): without [customParseFormat] the format argument of
    [dayjs(s, 'YYYY-W')] is ignored and the text goes through the core
    year-month-day pattern, and without [advancedFormat] the core formatter
    knows no week token, so the [W] of ['YYYY-W'] is copied as a letter. *)

Module Dayjs.

Record Api := {
  (** [dayjs.unix(t).isoWeekYear()] *)
  isoWeekYear : Z → Z;
  (** [dayjs.unix(t).isoWeek()] *)
  isoWeek : Z → Z;
  (** [dayjs.unix(t).format('YYYY-MM-DD')] *)
  format_YYYY_MM_DD : Z → string;
  (** [dayjs.unix(t).format('YYYY-W')] *)
  format_YYYY_W : Z → string;
  (** [dayjs(s, 'YYYY-W')], [None] for an invalid date *)
  parse : string → option Z;
  (** [dayjs.unix(t).subtract(1, 'week')] *)
  subtract_week : Z → Z;
}.

(** *** The proleptic Gregorian calendar on day numbers (day 0 is
    1970-01-01) *)

Definition days_from_civil (y m d : Z) : Z :=
  let y' := if m <=? 2 then y - 1 else y in
  let era := y' / 400 in
  let yoe := y' - era * 400 in
  let mp := if 2 <? m then m - 3 else m + 9 in
  let doy := (153 * mp + 2) / 5 + d - 1 in
  let doe := yoe * 365 + yoe / 4 - yoe / 100 + doy in
  era * 146097 + doe - 719468.

Definition civil_from_days (z : Z) : Z * Z * Z :=
  let z' := z + 719468 in
  let era := z' / 146097 in
  let doe := z' - era * 146097 in
  let yoe := (doe - doe / 1460 + doe / 36524 - doe / 146096) / 365 in
  let doy := doe - (365 * yoe + yoe / 4 - yoe / 100) in
  let mp := (5 * doy + 2) / 153 in
  let d := doy - (153 * mp + 2) / 5 + 1 in
  let m := if mp <? 10 then mp + 3 else mp - 9 in
  (if m <=? 2 then yoe + era * 400 + 1 else yoe + era * 400, m, d).

Definition day_of (t : Z) : Z := t / 86400.
Definition year_of_day (z : Z) : Z := (civil_from_days z).1.1.

(** [day()]: 0 is Sunday; 1970-01-01 was a Thursday. *)
Definition day (z : Z) : Z := (z + 4) mod 7.

(** [isoWeekday()]: [this.day() || 7] *)
Definition isoWeekday (z : Z) : Z := if day z =? 0 then 7 else day z.

(** The plugin's [getCurrentWeekThursday] and [getYearFirstThursday]. *)
Definition currentWeekThursday (z : Z) : Z := z + (4 - isoWeekday z).

Definition yearFirstThursday (year : Z) : Z :=
  let yearFirstDay := days_from_civil year 1 1 in
  let addDiffDays := 4 - isoWeekday yearFirstDay in
  yearFirstDay
  + (if 4 <? isoWeekday yearFirstDay then addDiffDays + 7 else addDiffDays).

Definition utc_isoWeekYear (t : Z) : Z :=
  year_of_day (currentWeekThursday (day_of t)).

(** [nowWeekThursday.diff(diffWeekThursday, 'week') + 1] *)
Definition utc_isoWeek (t : Z) : Z :=
  let nowWeekThursday := currentWeekThursday (day_of t) in
  let diffWeekThursday := yearFirstThursday (utc_isoWeekYear t) in
  (nowWeekThursday - diffWeekThursday) / 7 + 1.

(** [padStart(n, '0')] of a decimal number *)
Fixpoint zeros (n : nat) : string :=
  match n with
  | O => ""
  | S n' => "0" +:+ zeros n'
  end.

Definition pad (width : nat) (z : Z) : string :=
  let s := pretty z in
  zeros (width - String.length s) +:+ s.

Definition utc_format_YYYY_MM_DD (t : Z) : string :=
  let '(y, m, d) := civil_from_days (day_of t) in
  pad 4 y +:+ "-" +:+ pad 2 m +:+ "-" +:+ pad 2 d.

Definition utc_format_YYYY_W (t : Z) : string :=
  pad 4 (year_of_day (day_of t)) +:+ "-W".

(** *** The core parser on the texts [fetchActivity] builds

    The core pattern reads four digits as the year, an optional [-] and one
    or two digits as the month; the day defaults to 1 and the time to
    midnight: [new Date(d[1], d[2] - 1 || 0, 1)], where a month index
    outside 0..11 carries into the year and a year below 100 counts from
    1900. Other texts are not produced by [fetchActivity] and are left
    invalid here. *)

Definition digit (c : ascii) : option Z :=
  let n := Z.of_nat (nat_of_ascii c) in
  if (48 <=? n) && (n <=? 57) then Some (n - 48) else None.

Fixpoint digits (acc : Z) (s : string) : option Z :=
  match s with
  | EmptyString => Some acc
  | String c rest =>
      match digit c with
      | Some d => digits (10 * acc + d) rest
      | None => None
      end
  end.

Definition utc_parse (s : string) : option Z :=
  match s with
  | String a (String b (String c (String d (String "-"%char rest)))) =>
      match digits 0 (String a (String b (String c (String d ""))))  with
      | Some y =>
          if decide (String.length rest = 1%nat ∨ String.length rest = 2%nat)
          then
            match digits 0 rest with
            | Some m =>
                let year := if y <? 100 then 1900 + y else y in
                let monthIndex := m - 1 in
                Some (86400 * days_from_civil (year + monthIndex / 12)
                                (monthIndex mod 12 + 1) 1)
            | None => None
            end
          else None
      | None => None
      end
  | _ => None
  end.

Definition utc : Api :=
  {| isoWeekYear := utc_isoWeekYear;
     isoWeek := utc_isoWeek;
     format_YYYY_MM_DD := utc_format_YYYY_MM_DD;
     format_YYYY_W := utc_format_YYYY_W;
     parse := utc_parse;
     subtract_week := λ t, t - 7 * 86400 |}.

End Dayjs.

(** ** Weekly activity and streaks *)

Record WeekStat := {
  submissions : nat;
  wk_accepted : nat;
}.

Record Streak := {
  current : nat;
  longest : nat;
  activeWeeks : nat;
}.

Record Activity := {
  weeks : list (string * WeekStat);
  streak : Streak;
  heatmap : list (string * nat);
  mostProductiveWeek : option (string * nat);
  avgAcceptedPerWeek : float;
}.

(** The variables of the streak loop. [lastWeek] is a number: [None] is NaN,
    the week of an invalid date. *)
Record StreakVars := {
  currentStreak : nat;
  longestStreak : nat;
  lastWeek : option Z;
}.

Section Activity.
Context (dj : Dayjs.Api).

(** [`${date.isoWeekYear()}-${date.isoWeek()}`] *)
Definition weekIdOf (t : Z) : string :=
  JS.tpl (Some (Dayjs.isoWeekYear dj t)) +:+ "-"
  +:+ JS.tpl (Some (Dayjs.isoWeek dj t)).

(** The first loop, one submission. *)
Definition activity_step
    (a : list (string * WeekStat) * list (string * nat)) (s : Submission)
  : list (string * WeekStat) * list (string * nat) :=
  let '(weekly, heatmap) := a in
  let date := creationTimeSeconds s in
  let weekId := weekIdOf date in
  let w := JS.nullish (JS.get weekId weekly)
             {| submissions := 0; wk_accepted := 0 |} in
  let w' :=
    {| submissions := submissions w + 1;
       wk_accepted := if isOK s then wk_accepted w + 1 else wk_accepted w |}%nat in
  let dayId := Dayjs.format_YYYY_MM_DD dj date in
  (JS.set weekId w' weekly, bump dayId heatmap).

(** [Object.keys(weekly).sort()] *)
Definition sortedWeeksOf (weekly : list (string * WeekStat)) : list string :=
  JS.sort_default (JS.keys weekly).

(** [dayjs(sortedWeeks[i], 'YYYY-W').isoWeek()] *)
Definition weekNumber (weekId : string) : option Z :=
  option_map (Dayjs.isoWeek dj) (Dayjs.parse dj weekId).

(** [week === lastWeek + 1] *)
Definition follows (week lastWeek : option Z) : bool :=
  match week, lastWeek with
  | Some w, Some l => bool_decide (w = l + 1)
  | _, _ => false
  end.

(** The body of [for (let i = 0; i < sortedWeeks.length; i++)]. *)
Definition streak_step (i : nat) (v : StreakVars) (weekId : string)
  : StreakVars :=
  let week := weekNumber weekId in
  let currentStreak :=
    if bool_decide (0 < i)%nat && follows week (lastWeek v)
    then (currentStreak v + 1)%nat else 1%nat in
  {| currentStreak := currentStreak;
     lastWeek := week;
     longestStreak :=
       if bool_decide (longestStreak v < currentStreak)%nat
       then currentStreak else longestStreak v |}.

Fixpoint streak_loop (i : nat) (v : StreakVars) (sortedWeeks : list string)
  : StreakVars :=
  match sortedWeeks with
  | [] => v
  | weekId :: rest => streak_loop (S i) (streak_step i v weekId) rest
  end.

(** The values [currentStreak] takes in the loop, one per week. *)
Fixpoint streak_trace (i : nat) (v : StreakVars) (sortedWeeks : list string)
  : list nat :=
  match sortedWeeks with
  | [] => []
  | weekId :: rest =>
      currentStreak (streak_step i v weekId)
      :: streak_trace (S i) (streak_step i v weekId) rest
  end.

(** The test after the loop, which resets [currentStreak]. *)
Definition habitBroken (now : Z) (lastSubmissionWeekId : string) : bool :=
  let currentWeekId := weekIdOf now in
  bool_decide (currentWeekId ≠ lastSubmissionWeekId)
  && bool_decide
       (Dayjs.format_YYYY_W dj (Dayjs.subtract_week dj now)
        ≠ lastSubmissionWeekId).

(** From [let currentStreak = 0] to the end of [if (sortedWeeks.length > 0)].
    [firstWeekDate], [lastWeekDate] and [totalWeeksSinceFirstSubmission]
    are computed there and never read. *)
Definition streakOf (now : Z) (sortedWeeks : list string) : StreakVars :=
  let v0 := {| currentStreak := 0; longestStreak := 0; lastWeek := Some 0 |} in
  match last sortedWeeks with
  | None => v0
  | Some lastSubmissionWeekId =>
      let v := streak_loop 0 v0 sortedWeeks in
      if habitBroken now lastSubmissionWeekId
      then {| currentStreak := 0;
              longestStreak := longestStreak v;
              lastWeek := lastWeek v |}
      else v
  end.

(** [for (const week in weekly)]: the first week with the most
    submissions. *)
Definition productive_step (best : option (string * nat))
    (kv : string * WeekStat) : option (string * nat) :=
  match best with
  | None => Some (kv.1, submissions kv.2)
  | Some (_, n) =>
      if bool_decide (n < submissions kv.2)%nat
      then Some (kv.1, submissions kv.2) else best
  end.

(** [now] is the instant of the calls to [dayjs()], [subs] the result of
    [user.status]. *)
Definition fetchActivity (now : Z) (subs : list Submission) : Activity :=
  let '(weekly, heatmap) := foldl activity_step ([], []) subs in
  let sortedWeeks := sortedWeeksOf weekly in
  let v := streakOf now sortedWeeks in
  let totalAccepted := foldl (λ sum kv, sum + wk_accepted kv.2)%nat 0%nat weekly in
  let totalWeeksWithSubmissions := length sortedWeeks in
  {| weeks := weekly;
     streak := {| current := currentStreak v;
                  longest := longestStreak v;
                  activeWeeks := length sortedWeeks |};
     heatmap := heatmap;
     mostProductiveWeek := foldl productive_step None weekly;
     avgAcceptedPerWeek :=
       if bool_decide (0 < totalWeeksWithSubmissions)%nat
       then (JS.Number (Z.of_nat totalAccepted)
             / JS.Number (Z.of_nat totalWeeksWithSubmissions))%float
       else 0%float |}.

End Activity.

(** ** Results of calls that may throw *)

Inductive Result (A : Type) : Type :=
  | Ok (value : A)
  | Throw (message : string).
Arguments Ok {A} value.
Arguments Throw {A} message.

(** ** [lib/cf/sign.ts] *)

(** What the signer takes from its platform: [String.prototype.localeCompare]
    (negative, zero or positive), [encodeURIComponent] and
    [crypto.createHash('sha512').update(s).digest('hex')]. *)
Record Runtime := {
  localeCompare : string → string → Z;
  encodeURIComponent : string → string;
  sha512_hex : string → string;
}.

(** [process.env] *)
Record ProcessEnv := {
  CF_KEY : option string;
  CF_SECRET : option string;
}.

(** A value of [CfParams]; a number is an integer written without exponent. *)
Inductive ParamValue : Type :=
  | VString (s : string)
  | VNumber (n : Z)
  | VBoolean (b : bool)
  | VUndefined.

Global Instance ParamValue_eq_dec : EqDecision ParamValue.
Proof. solve_decision. Defined.

(** [String(v)] *)
Definition String_ (v : ParamValue) : string :=
  match v with
  | VString s => s
  | VNumber n => pretty n
  | VBoolean true => "true"
  | VBoolean false => "false"
  | VUndefined => "undefined"
  end.

(** [Object.fromEntries(entries)] *)
Definition fromEntries {V : Type} (entries : list (string * V))
  : list (string * V) :=
  foldl (λ o kv, JS.set kv.1 kv.2 o) [] entries.

(** [!v] for [v : string | undefined] *)
Definition missing (v : option string) : bool :=
  match v with
  | Some x => bool_decide (x = "")
  | None => true
  end.

Section Signer.
Context (rt : Runtime).

(** The comparator handed to [sort]. *)
Definition compareEntries (a b : string * string) : Z :=
  if decide (a.1 = b.1) then localeCompare rt a.2 b.2
  else localeCompare rt a.1 b.1.

(** [baseParams]: the defined parameters as strings, then [apiKey] and
    [time]. [nowMs] is [Date.now()]. *)
Definition baseParamsOf (apiKey : string) (nowMs : Z)
    (params : list (string * ParamValue)) : list (string * string) :=
  let defined :=
    map (λ kv, (kv.1, String_ kv.2))
      (filter (λ kv, kv.2 ≠ VUndefined) params) in
  JS.set "time" (pretty (nowMs / 1000))
    (JS.set "apiKey" apiKey (fromEntries defined)).

Definition sortedOf (baseParams : list (string * string))
  : list (string * string) :=
  JS.sort compareEntries baseParams.

(** [sorted.map(([k, v]) => `${k}=${encodeURIComponent(v)}`).join('&')] *)
Definition queryOf (sorted : list (string * string)) : string :=
  JS.join "&"
    (map (λ kv, kv.1 +:+ "=" +:+ encodeURIComponent rt kv.2) sorted).

(** [`${rand}/${methodName}?${sorted.map(([k, v]) => `${k}=${v}`)
      .join('&')}#${apiSecret}`] *)
Definition sigBaseOf (rand methodName apiSecret : string)
    (sorted : list (string * string)) : string :=
  rand +:+ "/" +:+ methodName +:+ "?"
  +:+ JS.join "&" (map (λ kv, kv.1 +:+ "=" +:+ kv.2) sorted)
  +:+ "#" +:+ apiSecret.

(** [rand] is [crypto.randomBytes(3).toString('hex')]. *)
Definition signCfRequest (env : ProcessEnv) (nowMs : Z) (rand : string)
    (methodName : string) (params : list (string * ParamValue))
  : Result string :=
  if missing (CF_KEY env) || missing (CF_SECRET env)
  then Throw "Missing CF_KEY/CF_SECRET"
  else
    let apiKey := JS.nullish (CF_KEY env) "" in
    let apiSecret := JS.nullish (CF_SECRET env) "" in
    let sorted := sortedOf (baseParamsOf apiKey nowMs params) in
    let query := queryOf sorted in
    let sigBase := sigBaseOf rand methodName apiSecret sorted in
    let hash := sha512_hex rt sigBase in
    let apiSig := rand +:+ hash in
    Ok ("https://codeforces.com/api/" +:+ methodName +:+ "?" +:+ query
        +:+ "&apiSig=" +:+ apiSig).
End Signer.

(** The collation orders the names [K] strictly (two different names never
    compare equal, and the two directions of a comparison agree) and
    transitively. [localeCompare] answers 0 for texts it holds equivalent, so
    this is a condition on the names, not a law of the platform. *)
Definition collates (rt : Runtime) (K : list string) : Prop :=
  Forall (λ a, Forall (λ b,
    a ≠ b →
    (localeCompare rt a b < 0 ∧ 0 < localeCompare rt b a)
    ∨ (0 < localeCompare rt a b ∧ localeCompare rt b a < 0)) K) K
  ∧ Forall (λ a, Forall (λ b, Forall (λ c,
      localeCompare rt a b < 0 → localeCompare rt b c < 0 →
      localeCompare rt a c < 0) K) K) K.

Global Instance collates_dec rt K : Decision (collates rt K).
Proof. unfold collates. apply _. Defined.

(** The names of the parameters that are signed. *)
Definition signedKeys (params : list (string * ParamValue)) : list string :=
  "apiKey" :: "time" :: JS.keys params.

(** What ECMA-262 requires of [localeCompare] on all texts, a consistent
    comparator: the two directions of a comparison agree, and "not after" is
    transitive. Texts it holds equal need not be the same text. *)
Definition consistent (rt : Runtime) : Prop :=
  (∀ a b, localeCompare rt a b < 0 ↔ 0 < localeCompare rt b a)
  ∧ (∀ a b c, localeCompare rt a b ≤ 0 → localeCompare rt b c ≤ 0 →
              localeCompare rt a c ≤ 0).

(** The merged mapping of the signer, by its pairs: [time] is the clock in
    whole seconds, [apiKey] the key of the server, and every other name of
    the parameter mapping whose value is not undefined carries that value as
    a text. *)
Definition signedPair (apiKey : string) (nowMs : Z)
    (params : list (string * ParamValue)) (k v : string) : Prop :=
  (k = "time" ∧ v = pretty (nowMs / 1000))
  ∨ (k = "apiKey" ∧ v = apiKey)
  ∨ (k ≠ "time" ∧ k ≠ "apiKey"
     ∧ ∃ pv, (k, pv) ∈ params ∧ pv ≠ VUndefined ∧ v = String_ pv).

(** ** [lib/cf/client.ts] *)

(** The JSON object of an upstream answer; a field may be absent. *)
Record Envelope (R : Type) := {
  status : option string;
  comment : option string;
  result : option R;
}.
Arguments status {R} _.
Arguments comment {R} _.
Arguments result {R} _.

(** What [fetch] resolved to: the HTTP status and the outcome of
    [res.json()], which rejects when the body is not JSON. *)
Record Fetched (R : Type) := {
  res_status : Z;
  res_json : Result (Envelope R);
}.
Arguments res_status {R} _.
Arguments res_json {R} _.

(** [res.ok] *)
Definition ok {R : Type} (res : Fetched R) : bool :=
  (200 <=? res_status res) && (res_status res <=? 299).

(** [cf(method, params)] after [await fetch(url)]: [fetched] is what the
    request to [/api/cf] gave, [Throw] when [fetch] itself rejected. The value
    returned is [json.result], [None] when the field is absent. *)
Definition cf {R : Type} (fetched : Result (Fetched R)) : Result (option R) :=
  match fetched with
  | Throw message => Throw message
  | Ok res =>
      if negb (ok res) then Throw ("CF error: " +:+ pretty (res_status res))
      else
        match res_json res with
        | Throw message => Throw message
        | Ok json =>
            if bool_decide (status json ≠ Some "OK")
            then Throw (JS.or_str (comment json) "CF API failed")
            else Ok (result json)
        end
  end.

(** ** [app/api/cf/route.ts] *)

(** What [fetch(url)] resolved to at the gateway. *)
Record Upstream := {
  up_status : Z;
  up_body : string;
}.

(** The body of the gateway's answer: the upstream body passed through, or
    [JSON.stringify({ error })]. *)
Inductive Body : Type :=
  | Passthrough (body : string)
  | ErrorJson (error : string).

Record GatewayResponse := {
  gw_body : Body;
  gw_status : Z;
}.

(** What the world answers during one call of [GET]. *)
Record World := {
  env : ProcessEnv;
  (** [Date.now()] on entry *)
  now_entry : Z;
  (** [Date.now()] inside [signCfRequest] *)
  now_sign : Z;
  rand : string;
  (** [await fetch(url)], [Throw] when it rejects *)
  fetch : string → Result Upstream;
  (** [Date.now()] after the fetch resolved *)
  now_done : Z;
}.

(** One call: the answer, the module variable [lastCallTs] after it, and the
    milliseconds spent in [setTimeout]. *)
Record Served := {
  response : GatewayResponse;
  lastCallTs' : Z;
  slept : Z;
}.

Definition minIntervalMs : Z := 2000.

Section Gateway.
Context (rt : Runtime).

(** [params[k] = v] on the object [params], made by the literal [{}] and
    holding texts: the name [__proto__] is not a property of the object but
    reaches the accessor it inherits from [Object.prototype], whose setter
    ignores a value that is not an object; every other name becomes, or
    stays, a property of the object. *)
Definition assign (k v : string) (params : list (string * string))
  : list (string * string) :=
  if decide (k = "__proto__") then params else JS.set k v params.

(** [searchParams.forEach((v, k) => { if (k !== 'method') params[k] = v })],
    the pairs of the query string being visited in their order. *)
Definition paramsOf (searchParams : list (string * string))
  : list (string * ParamValue) :=
  map (λ kv, (kv.1, VString kv.2))
    (foldl (λ params kv,
              if decide (kv.1 ≠ "method") then assign kv.1 kv.2 params
              else params)
       [] searchParams).

Definition GET (lastCallTs : Z) (searchParams : list (string * string))
    (w : World) : Served :=
  let method := JS.get "method" searchParams in
  if missing method then
    {| response := {| gw_body := ErrorJson "Missing method"; gw_status := 400 |};
       lastCallTs' := lastCallTs;
       slept := 0 |}
  else
    let method := JS.nullish method "" in
    let elapsed := now_entry w - lastCallTs in
    let slept := if elapsed <? minIntervalMs then minIntervalMs - elapsed else 0 in
    let params := paramsOf searchParams in
    match signCfRequest rt (env w) (now_sign w) (rand w) method params with
    | Throw message =>
        {| response := {| gw_body := ErrorJson message; gw_status := 500 |};
           lastCallTs' := lastCallTs;
           slept := slept |}
    | Ok url =>
        match fetch w url with
        | Throw message =>
            {| response := {| gw_body := ErrorJson message; gw_status := 500 |};
               lastCallTs' := lastCallTs;
               slept := slept |}
        | Ok cfRes =>
            {| response := {| gw_body := Passthrough (up_body cfRes);
                              gw_status := up_status cfRes |};
               lastCallTs' := now_done w;
               slept := slept |}
        end
    end.
End Gateway.

(** ** SHA-512 (FIPS 180-4) and [encodeURIComponent], for a concrete runtime

    Words are integers below 2^64; the message is the list of the bytes of an
    ASCII text. *)

Module SHA512.

Definition ones : Z := 2 ^ 64 - 1.
Definition add (x y : Z) : Z := (x + y) mod 2 ^ 64.
Definition rotr (n x : Z) : Z :=
  Z.lor (Z.shiftr x n) (Z.land (Z.shiftl x (64 - n)) ones).
Definition shr (n x : Z) : Z := Z.shiftr x n.
Definition xor3 (x y z : Z) : Z := Z.lxor (Z.lxor x y) z.

Definition Ch (x y z : Z) : Z :=
  Z.lxor (Z.land x y) (Z.land (Z.lxor x ones) z).
Definition Maj (x y z : Z) : Z :=
  xor3 (Z.land x y) (Z.land x z) (Z.land y z).
Definition Sigma0 (x : Z) : Z := xor3 (rotr 28 x) (rotr 34 x) (rotr 39 x).
Definition Sigma1 (x : Z) : Z := xor3 (rotr 14 x) (rotr 18 x) (rotr 41 x).
Definition sigma0 (x : Z) : Z := xor3 (rotr 1 x) (rotr 8 x) (shr 7 x).
Definition sigma1 (x : Z) : Z := xor3 (rotr 19 x) (rotr 61 x) (shr 6 x).

(** The first 64 bits of the fractional parts of the cube roots of the first
    80 primes, and of the square roots of the first 8. *)
Definition K : list Z :=
  [0x428a2f98d728ae22; 0x7137449123ef65cd; 0xb5c0fbcfec4d3b2f;
   0xe9b5dba58189dbbc; 0x3956c25bf348b538; 0x59f111f1b605d019;
   0x923f82a4af194f9b; 0xab1c5ed5da6d8118; 0xd807aa98a3030242;
   0x12835b0145706fbe; 0x243185be4ee4b28c; 0x550c7dc3d5ffb4e2;
   0x72be5d74f27b896f; 0x80deb1fe3b1696b1; 0x9bdc06a725c71235;
   0xc19bf174cf692694; 0xe49b69c19ef14ad2; 0xefbe4786384f25e3;
   0x0fc19dc68b8cd5b5; 0x240ca1cc77ac9c65; 0x2de92c6f592b0275;
   0x4a7484aa6ea6e483; 0x5cb0a9dcbd41fbd4; 0x76f988da831153b5;
   0x983e5152ee66dfab; 0xa831c66d2db43210; 0xb00327c898fb213f;
   0xbf597fc7beef0ee4; 0xc6e00bf33da88fc2; 0xd5a79147930aa725;
   0x06ca6351e003826f; 0x142929670a0e6e70; 0x27b70a8546d22ffc;
   0x2e1b21385c26c926; 0x4d2c6dfc5ac42aed; 0x53380d139d95b3df;
   0x650a73548baf63de; 0x766a0abb3c77b2a8; 0x81c2c92e47edaee6;
   0x92722c851482353b; 0xa2bfe8a14cf10364; 0xa81a664bbc423001;
   0xc24b8b70d0f89791; 0xc76c51a30654be30; 0xd192e819d6ef5218;
   0xd69906245565a910; 0xf40e35855771202a; 0x106aa07032bbd1b8;
   0x19a4c116b8d2d0c8; 0x1e376c085141ab53; 0x2748774cdf8eeb99;
   0x34b0bcb5e19b48a8; 0x391c0cb3c5c95a63; 0x4ed8aa4ae3418acb;
   0x5b9cca4f7763e373; 0x682e6ff3d6b2b8a3; 0x748f82ee5defb2fc;
   0x78a5636f43172f60; 0x84c87814a1f0ab72; 0x8cc702081a6439ec;
   0x90befffa23631e28; 0xa4506cebde82bde9; 0xbef9a3f7b2c67915;
   0xc67178f2e372532b; 0xca273eceea26619c; 0xd186b8c721c0c207;
   0xeada7dd6cde0eb1e; 0xf57d4f7fee6ed178; 0x06f067aa72176fba;
   0x0a637dc5a2c898a6; 0x113f9804bef90dae; 0x1b710b35131c471b;
   0x28db77f523047d84; 0x32caab7b40c72493; 0x3c9ebe0a15c9bebc;
   0x431d67c49c100d4c; 0x4cc5d4becb3e42b6; 0x597f299cfc657e2a;
   0x5fcb6fab3ad6faec; 0x6c44198c4a475817].

Definition H0 : list Z :=
  [0x6a09e667f3bcc908; 0xbb67ae8584caa73b; 0x3c6ef372fe94f82b;
   0xa54ff53a5f1d36f1; 0x510e527fade682d1; 0x9b05688c2b3e6c1f;
   0x1f83d9abfb41bd6b; 0x5be0cd19137e2179].

Definition bytes_of (s : string) : list Z :=
  map (λ c, Z.of_nat (nat_of_ascii c)) (String.list_ascii_of_string s).

(** The big-endian bytes of [x], [n] of them. *)
Fixpoint be_bytes (n : nat) (x : Z) : list Z :=
  match n with
  | O => []
  | S n' => Z.shiftr x (8 * Z.of_nat n') mod 256 :: be_bytes n' x
  end.

Definition be_word (bs : list Z) : Z := foldl (λ acc b, acc * 256 + b) 0 bs.

(** Padding: a byte 0x80, zeros up to 112 modulo 128, and the bit length on
    16 bytes. *)
Definition pad (msg : list Z) : list Z :=
  let len := Z.of_nat (length msg) in
  let zeros := Z.to_nat ((111 - len) mod 128) in
  msg ++ [128] ++ replicate zeros 0 ++ be_bytes 16 (8 * len).

(** [n] consecutive groups of [k] elements. *)
Fixpoint chunks {A : Type} (k n : nat) (l : list A) : list (list A) :=
  match n with
  | O => []
  | S n' => take k l :: chunks k n' (drop k l)
  end.

Definition blocks (padded : list Z) : list (list Z) :=
  map (λ block, map be_word (chunks 8 16 block))
    (chunks 128 (length padded / 128) padded).

(** The message schedule: [w] holds W_0 .. W_(t-1) and is extended by [n]
    words. *)
Fixpoint schedule (n : nat) (w : list Z) : list Z :=
  match n with
  | O => w
  | S n' =>
      let t := length w in
      let at_ i := nth (t - i) w 0 in
      schedule n'
        (w ++ [add (add (sigma1 (at_ 2%nat)) (at_ 7%nat))
                   (add (sigma0 (at_ 15%nat)) (at_ 16%nat))])
  end.

(** The eight working variables. *)
Record Vars := { a : Z; b : Z; c : Z; d : Z; e : Z; f : Z; g : Z; h : Z }.

Definition round (v : Vars) (kw : Z * Z) : Vars :=
  let T1 := add (add (add (h v) (Sigma1 (e v))) (Ch (e v) (f v) (g v)))
                (add kw.1 kw.2) in
  let T2 := add (Sigma0 (a v)) (Maj (a v) (b v) (c v)) in
  {| a := add T1 T2; b := a v; c := b v; d := c v;
     e := add (d v) T1; f := e v; g := f v; h := g v |}.

Definition compress (hash : Vars) (block : list Z) : Vars :=
  let v := foldl round hash (zip K (schedule 64 block)) in
  {| a := add (a hash) (a v); b := add (b hash) (b v);
     c := add (c hash) (c v); d := add (d hash) (d v);
     e := add (e hash) (e v); f := add (f hash) (f v);
     g := add (g hash) (g v); h := add (h hash) (h v) |}.

Definition initial : Vars :=
  match H0 with
  | [h0; h1; h2; h3; h4; h5; h6; h7] =>
      {| a := h0; b := h1; c := h2; d := h3; e := h4; f := h5; g := h6; h := h7 |}
  | _ => {| a := 0; b := 0; c := 0; d := 0; e := 0; f := 0; g := 0; h := 0 |}
  end.

Definition hex_digit (n : Z) : ascii :=
  ascii_of_nat (Z.to_nat (if n <? 10 then 48 + n else 87 + n)).

Definition hex_byte (x : Z) : string :=
  String (hex_digit (x / 16)) (String (hex_digit (x mod 16)) EmptyString).

Definition hex_word (x : Z) : string :=
  foldr (λ byte s, hex_byte byte +:+ s) "" (be_bytes 8 x).

(** [crypto.createHash('sha512').update(s).digest('hex')] *)
Definition hex (s : string) : string :=
  let v := foldl compress initial (blocks (pad (bytes_of s))) in
  foldr (λ w acc, hex_word w +:+ acc) ""
    [a v; b v; c v; d v; e v; f v; g v; h v].

End SHA512.

(** [encodeURIComponent] on the bytes of a text: the unreserved characters of
    RFC 2396 stay, every other byte is escaped. *)
Definition uri_unreserved (c : ascii) : bool :=
  let n := nat_of_ascii c in
  ((65 <=? n) && (n <=? 90) || (97 <=? n) && (n <=? 122)
   || (48 <=? n) && (n <=? 57))%nat
  || bool_decide (c ∈ String.list_ascii_of_string "-_.!~*'()").

Definition hex_upper (n : Z) : ascii :=
  ascii_of_nat (Z.to_nat (if n <? 10 then 48 + n else 55 + n)).

Fixpoint uri_encode (s : string) : string :=
  match s with
  | EmptyString => EmptyString
  | String c rest =>
      if uri_unreserved c then String c (uri_encode rest)
      else
        let n := Z.of_nat (nat_of_ascii c) in
        String "%"%char
          (String (hex_upper (n / 16))
             (String (hex_upper (n mod 16)) (uri_encode rest)))
  end.

(** A runtime for ASCII texts, with the collation that orders by code unit. *)
Definition asciiRuntime : Runtime :=
  {| localeCompare := JS.codeUnitCompare;
     encodeURIComponent := uri_encode;
     sha512_hex := SHA512.hex |}.

(** The two spellings of the letter e with acute accent: the code point
    U+00E9, and e followed by the combining accent U+0301. They are
    canonically equivalent. *)
Definition e_acute : string := utf8 0xE9.
Definition e_accent : string := "e" +:+ utf8 0x301.

(** Canonical composition, of this letter only. *)
Fixpoint compose (s : string) : string :=
  match s with
  | String a r1 =>
      match r1 with
      | String b (String c r3) =>
          if decide (String a (String b (String c "")) = e_accent)
          then e_acute +:+ compose r3
          else String a (compose r1)
      | _ => String a (compose r1)
      end
  | EmptyString => EmptyString
  end.

(** A runtime whose collation honours the canonical equivalence of the two
    spellings, as ECMA-262 requires of [localeCompare] ("returning +0 when
    comparing distinguishable Strings that are canonically equivalent"), and
    orders by code unit otherwise. *)
Definition canonRuntime : Runtime :=
  {| localeCompare := λ a b, JS.codeUnitCompare (compose a) (compose b);
     encodeURIComponent := uri_encode;
     sha512_hex := SHA512.hex |}.

(** ** [app/page.tsx], [app/components/Welcome.tsx] and
    [app/analytics/page.tsx]: what the pages compute from the aggregates *)

(** [getRatingColor] and [getRatingTitle] of the home page, on an integer
    rating. *)
Definition getRatingColor (rating : Z) : string :=
  if rating <? 1200 then "#808080"
  else if rating <? 1400 then "#008000"
  else if rating <? 1600 then "#03a89e"
  else if rating <? 1900 then "#0000ff"
  else if rating <? 2100 then "#aa00aa"
  else if rating <? 2300 then "#ff8c00"
  else if rating <? 2400 then "#ff8c00"
  else if rating <? 2600 then "var(--danger-color)"
  else if rating <? 3000 then "var(--danger-color)"
  else "var(--danger-color)".

Definition getRatingTitle (rating : Z) : string :=
  if rating <? 1200 then "newbie"
  else if rating <? 1400 then "pupil"
  else if rating <? 1600 then "specialist"
  else if rating <? 1900 then "expert"
  else if rating <? 2100 then "candidate master"
  else if rating <? 2300 then "master"
  else if rating <? 2400 then "international master"
  else if rating <? 2600 then "grandmaster"
  else if rating <? 3000 then "international grandmaster"
  else "legendary grandmaster".

(** [Welcome]: [const topFive = upcoming?.slice(0, 5) || []] *)
Definition topFive (upcoming : list ContestEntry) : list ContestEntry :=
  take 5 upcoming.

(** [now.diff(dayjs.unix(t), unit)] for the units day and week, where the
    offset of the time zone is the same at both instants (as in UTC): the
    quotient of the milliseconds between the two instants by the milliseconds
    of the unit, cut towards zero. [nowMs] is the instant of [dayjs()] in
    milliseconds. *)
Definition dayjs_diff (unitMs nowMs t : Z) : Z :=
  Z.quot (nowMs - 1000 * t) unitMs.

Definition MILLISECONDS_A_DAY : Z := 86400000.
Definition MILLISECONDS_A_WEEK : Z := 604800000.

(** [data[index]++] *)
Definition increment (index : nat) (data : list nat) : list nat :=
  alter S index data.

(** [calculateDailyActivity], the body of [forEach]. *)
Definition daily_step (nowMs : Z) (dailyData : list nat) (submission : Submission)
  : list nat :=
  let daysAgo := dayjs_diff MILLISECONDS_A_DAY nowMs (creationTimeSeconds submission) in
  if (0 <=? daysAgo) && (daysAgo <? 365) then
    let dayIndex := Z.to_nat (364 - daysAgo) in
    increment dayIndex dailyData
  else dailyData.

Definition calculateDailyActivity (nowMs : Z) (submissions : list Submission)
  : list nat :=
  foldl (daily_step nowMs) (replicate 365 0%nat) submissions.

(** [calculateWeeklyActivity], the body of [forEach]; [Math.floor] of the
    integer that [diff] returns is that integer. *)
Definition weekly_step (nowMs : Z) (weeklyData : list nat) (submission : Submission)
  : list nat :=
  let weeksAgo := dayjs_diff MILLISECONDS_A_WEEK nowMs (creationTimeSeconds submission) in
  if (0 <=? weeksAgo) && (weeksAgo <? 26) then
    let weekIndex := Z.to_nat (25 - weeksAgo) in
    increment weekIndex weeklyData
  else weeklyData.

Definition calculateWeeklyActivity (nowMs : Z) (submissions : list Submission)
  : list nat :=
  foldl (weekly_step nowMs) (replicate 26 0%nat) submissions.

Module Analytics.

(** The variables of the loop of [calculateConsistencyMetrics]. *)
Record Vars := {
  currentStreak : nat;
  longestStreak : nat;
  tempStreak : nat;
  activeWeeks : nat;
  drySpells : nat;
  maxWeeklySubmissions : nat;
}.

Record Metrics := {
  m_currentStreak : nat;
  m_longestStreak : nat;
  m_activeWeeks : nat;
  m_drySpells : nat;
  m_maxWeeklySubmissions : nat;
  m_status : string;
}.

Definition start : Vars :=
  {| currentStreak := 0; longestStreak := 0; tempStreak := 0;
     activeWeeks := 0; drySpells := 0; maxWeeklySubmissions := 0 |}.

(** The body of the loop for an [activity], where [anchored] is
    [i === weeklyActivity.length - 1 || weeklyActivity[i + 1] > 0]. *)
Definition body (activity : nat) (anchored : bool) (v : Vars) : Vars :=
  let maxWeeklySubmissions := Nat.max (maxWeeklySubmissions v) activity in
  if bool_decide (0 < activity)%nat then
    let tempStreak := S (tempStreak v) in
    {| currentStreak := if anchored then tempStreak else currentStreak v;
       longestStreak := longestStreak v;
       tempStreak := tempStreak;
       activeWeeks := S (activeWeeks v);
       drySpells := drySpells v;
       maxWeeklySubmissions := maxWeeklySubmissions |}
  else if bool_decide (0 < tempStreak v)%nat then
    {| currentStreak := currentStreak v;
       longestStreak := Nat.max (longestStreak v) (tempStreak v);
       tempStreak := 0;
       activeWeeks := activeWeeks v;
       drySpells := S (drySpells v);
       maxWeeklySubmissions := maxWeeklySubmissions |}
  else
    {| currentStreak := currentStreak v;
       longestStreak := longestStreak v;
       tempStreak := tempStreak v;
       activeWeeks := activeWeeks v;
       drySpells := drySpells v;
       maxWeeklySubmissions := maxWeeklySubmissions |}.

(** One iteration at index [i]. *)
Definition step (weeklyActivity : list nat) (i : nat) (v : Vars) : Vars :=
  let activity := nth i weeklyActivity 0%nat in
  let anchored :=
    bool_decide (i = length weeklyActivity - 1)%nat
    || bool_decide (0 < nth (i + 1) weeklyActivity 0)%nat in
  body activity anchored v.

(** [for (let i = n - 1; i >= 0; i--)] *)
Fixpoint loop (weeklyActivity : list nat) (n : nat) (v : Vars) : Vars :=
  match n with
  | O => v
  | S i => loop weeklyActivity i (step weeklyActivity i v)
  end.

(** [(activeWeeks / 26) * 100] against 80, 60 and 40, in binary64. *)
Definition statusOf (activeWeeks : nat) : string :=
  let activityRate := (JS.Number (Z.of_nat activeWeeks) / 26 * 100)%float in
  if (80 <=? activityRate)%float then "excellent"
  else if (60 <=? activityRate)%float then "good"
  else if (40 <=? activityRate)%float then "inconsistent"
  else "needs-work".

Definition calculateConsistencyMetrics (weeklyActivity : list nat) : Metrics :=
  let v := loop weeklyActivity (length weeklyActivity) start in
  {| m_currentStreak := currentStreak v;
     m_longestStreak :=
       Nat.max (Nat.max (longestStreak v) (tempStreak v)) (currentStreak v);
     m_activeWeeks := activeWeeks v;
     m_drySpells := drySpells v;
     m_maxWeeklySubmissions := maxWeeklySubmissions v;
     m_status := statusOf (activeWeeks v) |}.

End Analytics.

(** ** Notions used to state the properties *)

(** The label under which a submission is tallied. *)
Definition verdictOf (s : Submission) : string := JS.or_str (verdict s) "UNKNOWN".
Definition languageOf (s : Submission) : string :=
  JS.or_str (programmingLanguage s) "Unknown".

(** How many elements of [l] satisfy [p]. *)
Definition count {A : Type} (p : A → bool) (l : list A) : nat :=
  length (filter (λ x, p x = true) l).

(** The elements of [l] in the order of their first occurrence. *)
Fixpoint firstSeen (l : list string) : list string :=
  match l with
  | [] => []
  | x :: l' => x :: filter (λ y, y ≠ x) (firstSeen l')
  end.

(** The sum of the counters of a tally. *)
Definition tallySum (o : list (string * nat)) : nat :=
  foldr (λ kv n, (kv.2 + n)%nat) 0%nat o.

(** The rating of a submission if it is accepted and rated. *)
Definition acceptedRating (s : Submission) : option Z :=
  if isOK s then p_rating (problem s) else None.

(** Whether a submission is accepted with a rating that satisfies [p]. *)
Definition ratedWith (p : Z → bool) (s : Submission) : bool :=
  match acceptedRating s with
  | Some r => p r
  | None => false
  end.

(** The number of leading active weeks, and the longest run of active weeks. *)
Fixpoint leadRun (l : list nat) : nat :=
  match l with
  | x :: l' => if bool_decide (0 < x)%nat then S (leadRun l') else 0
  | [] => 0
  end.

Fixpoint longestRun (l : list nat) : nat :=
  match l with
  | x :: l' =>
      if bool_decide (0 < x)%nat
      then Nat.max (S (leadRun l')) (longestRun l') else longestRun l'
  | [] => 0
  end.

(** The loop of [calculateConsistencyMetrics] read as a recursion on the
    weeks from an index to the end: the weeks after the first are processed
    before it, and the first is anchored when nothing or an active week
    follows. *)
Definition anchoredBy (later : list nat) : bool :=
  match later with
  | [] => true
  | y :: _ => bool_decide (0 < y)%nat
  end.

Fixpoint scan (l : list nat) : Analytics.Vars :=
  match l with
  | [] => Analytics.start
  | x :: later => Analytics.body x (anchoredBy later) (scan later)
  end.

(** The pattern of [extractDivision], read off the regular expression and
    not off the matcher. The code points of [\s], and the texts they are in
    UTF-8: *)
Definition whiteSpacePoints : list N :=
  [0x9; 0xA; 0xB; 0xC; 0xD; 0x20; 0xA0; 0x1680;
   0x2000; 0x2001; 0x2002; 0x2003; 0x2004; 0x2005; 0x2006; 0x2007; 0x2008;
   0x2009; 0x200A; 0x2028; 0x2029; 0x202F; 0x205F; 0x3000; 0xFEFF]%N.

Definition whiteSpace : list string := map utf8 whiteSpacePoints.

(** A run of white space. *)
Inductive blank : string → Prop :=
  | blank_nil : blank ""
  | blank_cons (w s : string) : w ∈ whiteSpace → blank s → blank (w +:+ s).

(** [s] begins with a match of [Div\.?\s*(\d)], letters in either case,
    whose digit is [c]. *)
Definition divisionAt (s : string) (c : ascii) : Prop :=
  ∃ (d i v : ascii) (dot sp rest : string),
    s = String d (String i (String v (dot +:+ sp +:+ String c rest)))
    ∧ d ∈ ["d"; "D"]%char ∧ i ∈ ["i"; "I"]%char ∧ v ∈ ["v"; "V"]%char
    ∧ dot ∈ [""; "."]
    ∧ blank sp
    ∧ c ∈ ["0"; "1"; "2"; "3"; "4"; "5"; "6"; "7"; "8"; "9"]%char.

(** Week [i] is active and is the last week or is followed by an active
    week: the test under which the loop assigns [currentStreak]. *)
Definition anchored (w : list nat) (i : nat) : Prop :=
  (∃ a, w !! i = Some a ∧ (0 < a)%nat)
  ∧ (S i = length w ∨ ∃ b, w !! S i = Some b ∧ (0 < b)%nat).

(** The index at which [calculateWeeklyActivity] and [calculateDailyActivity]
    count a submission, if they count it. *)
Definition binOf (unitMs bins nowMs : Z) (s : Submission) : option nat :=
  let ago := dayjs_diff unitMs nowMs (creationTimeSeconds s) in
  if (0 <=? ago) && (ago <? bins) then Some (Z.to_nat (bins - 1 - ago)) else None.

(** The age of a submission in milliseconds. *)
Definition ageMs (nowMs : Z) (s : Submission) : Z :=
  nowMs - 1000 * creationTimeSeconds s.

(** What [fetch('/api/cf?...')] resolves to in the client when the gateway
    answered [g]: the status of the answer and, for [res.json()], the
    upstream body as [parse] reads it, or the object [{ error }], which has
    none of the fields of an envelope. *)
Definition received {R : Type} (parse : string → Result (Envelope R))
    (g : GatewayResponse) : Fetched R :=
  {| res_status := gw_status g;
     res_json :=
       match gw_body g with
       | Passthrough body => parse body
       | ErrorJson _ => Ok {| status := None; comment := None; result := None |}
       end |}.

(** The value the last binding of [k] gives it in a query string. *)
Definition lastValue {V : Type} (k : string) (l : list (string * V)) : option V :=
  last (map snd (filter (λ kv, kv.1 = k) l)).

(** ** The score over a range of ratings and friend counts

    Two comparisons of doubles decide on which side of the two neighbouring
    half-integers the sum of [computeCustomScore] falls. *)







(** ** Inputs used in the examples below *)

Module Samples.

Definition problem_1A : Problem :=
  {| p_contestId := Some 1; p_index := "A"; p_rating := Some 800 |}.

Definition submission (t : Z) (v : string) (p : Problem) : Submission :=
  {| creationTimeSeconds := t;
     verdict := Some v;
     programmingLanguage := Some "C++17";
     problem := p |}.

(** The same problem accepted twice. *)
Definition acceptedTwice : list Submission :=
  [submission 1700000000 "OK" problem_1A;
   submission 1700000600 "OK" problem_1A].

(** One accepted submission among five for the same problem. *)
Definition oneOfFive : list Submission :=
  [submission 1700000000 "WRONG_ANSWER" problem_1A;
   submission 1700000100 "TIME_LIMIT_EXCEEDED" problem_1A;
   submission 1700000200 "OK" problem_1A;
   submission 1700000300 "WRONG_ANSWER" problem_1A;
   submission 1700000400 "COMPILATION_ERROR" problem_1A].

Definition ratingEntry (r old new : Z) : RatingEntry :=
  {| contestName := "Codeforces Round";
     contestId := 1900;
     ratingUpdateTimeSeconds := 1700000000;
     rank := r;
     oldRating := old;
     newRating := new |}.

(** Ranks 12, 3, 50 with rating changes +20, -5, +10. *)
Definition threeContests : list RatingEntry :=
  [ratingEntry 12 1500 1520; ratingEntry 3 1520 1515; ratingEntry 50 1515 1525].

(** A user who never took part in a rated contest. *)
Definition unrated : User :=
  {| u_handle := "newcomer";
     u_rank := None;
     u_rating := None;
     u_maxRating := None;
     u_maxRank := None;
     u_contribution := Some 0;
     u_registrationTimeSeconds := 1700000000;
     u_friendOfCount := Some 25 |}.


Definition contest (phase : string) (start : Z) : Contest :=
  {| c_name := "Codeforces Round (Div. 2)";
     c_phase := phase;
     c_startTimeSeconds := start;
     c_durationSeconds := 7200 |}.

(** Phases BEFORE, FINISHED, BEFORE starting at now+100, now-100, now+50. *)
Definition threePhases (now : Z) : list Contest :=
  [contest "BEFORE" (now + 100); contest "FINISHED" (now - 100);
   contest "BEFORE" (now + 50)].

Definition credentials : ProcessEnv :=
  {| CF_KEY := Some "xxx"; CF_SECRET := Some "yyy" |}.

Definition noCredentials : ProcessEnv :=
  {| CF_KEY := None; CF_SECRET := None |}.

(** A call at 5000 ms that the upstream answers at 5300 ms. *)
Definition answered : World :=
  {| env := credentials;
     now_entry := 5000;
     now_sign := 5000;
     rand := "1a2b3c";
     fetch := λ _, Ok {| up_status := 200; up_body := "{}" |};
     now_done := 5300 |}.

(** The same call in a process without credentials: signing throws. *)
Definition unsigned : World :=
  {| env := noCredentials;
     now_entry := 5000;
     now_sign := 5000;
     rand := "1a2b3c";
     fetch := λ _, Ok {| up_status := 200; up_body := "{}" |};
     now_done := 5300 |}.

(** The same call when the network is down: [fetch] rejects. *)
Definition offline : World :=
  {| env := credentials;
     now_entry := 5000;
     now_sign := 5000;
     rand := "1a2b3c";
     fetch := λ _, Throw "fetch failed";
     now_done := 5300 |}.

Definition userInfo : list (string * string) :=
  [("method", "user.info"); ("handles", "tourist")].

(** Answers of [/api/cf]; the result is kept as JSON text. *)
Definition envelopeOK : Fetched string :=
  {| res_status := 200;
     res_json := Ok {| status := Some "OK"; comment := None;
                       result := Some "[]" |} |}.

Definition envelopeFailed : Fetched string :=
  {| res_status := 200;
     res_json := Ok {| status := Some "FAILED";
                       comment := Some "handle: User not found";
                       result := None |} |}.

(** A failure whose comment is the empty text, and one without comment. *)
Definition envelopeEmptyComment : Fetched string :=
  {| res_status := 200;
     res_json := Ok {| status := Some "FAILED"; comment := Some "";
                       result := None |} |}.

Definition envelopeNoComment : Fetched string :=
  {| res_status := 200;
     res_json := Ok {| status := Some "FAILED"; comment := None;
                       result := None |} |}.

(** HTTP 400 carrying an envelope that says OK. *)
Definition badRequest : Fetched string :=
  {| res_status := 400;
     res_json := Ok {| status := Some "OK"; comment := None;
                       result := Some "[]" |} |}.

(** The example of the Codeforces API documentation: key xxx, secret yyy,
    nonce 123456, time 1390000000. *)
Definition hacks : list (string * ParamValue) :=
  [("contestId", VNumber 566)].

Definition status1 : list (string * ParamValue) :=
  [("handle", VString "tourist"); ("from", VNumber 1); ("count", VNumber 10000)].

(** One mapping written in two orders, whose two names are the two
    spellings of the same letter. *)
Definition accents1 : list (string * ParamValue) :=
  [(e_acute, VString "1"); (e_accent, VString "2")].

Definition accents2 : list (string * ParamValue) :=
  [(e_accent, VString "2"); (e_acute, VString "1")].

Definition status2 : list (string * ParamValue) :=
  [("count", VNumber 10000); ("handle", VString "tourist"); ("from", VNumber 1)].

(** Two submissions, on Tuesday 2024-02-27 (ISO week 9) and on Tuesday
    2024-03-05 (ISO week 10), looked at on Wednesday 2024-03-06. *)
Definition weeksNineTen : list Submission :=
  [submission 1709000000 "OK" problem_1A;
   submission 1709600000 "WRONG_ANSWER" problem_1A].

Definition inWeekTen : Z := 1709700000.

(** Weekly activity 2, 0, 3, 1, 0, 0, 5 over the ISO weeks 20 to 26 of 2024,
    at noon on consecutive days from the Monday of each week. *)
Definition sevenWeeks : list Submission :=
  map (λ t, submission t "OK" problem_1A)
    [1715601600; 1715688000;
     1716811200; 1716897600; 1716984000;
     1717416000;
     1719230400; 1719316800; 1719403200; 1719489600; 1719576000].

(** Friday noon of the ISO weeks 26, 27 and 28 of 2024. *)
Definition inWeek26 : Z := 1719576000.
Definition inWeek27 : Z := 1720180800.
Definition inWeek28 : Z := 1720785600.

End Samples.

(** * Properties *)

(** ** [Array.prototype.sort] *)

Section SortFacts.
Context {A : Type} (cmp : A → A → Z).

Local Abbreviation R := (λ a b, cmp a b ≤ 0).

Lemma sort_insert_perm x l : JS.sort_insert cmp x l ≡ₚ x :: l.
Proof.
  induction l as [|y l IH]; simpl; [done|].
  destruct (cmp x y <=? 0); [done|].
  rewrite IH. apply Permutation_swap.
Qed.

Lemma sort_perm l : JS.sort cmp l ≡ₚ l.
Proof.
  induction l as [|x l IH]; simpl; [done|].
  fold (JS.sort cmp l). by rewrite sort_insert_perm, IH.
Qed.

Lemma sort_insert_sorted x l :
  StronglySorted R l →
  (∀ y, y ∈ l → 0 < cmp x y → cmp y x ≤ 0) →
  (∀ y z, y ∈ l → z ∈ l → cmp x y ≤ 0 → cmp y z ≤ 0 → cmp x z ≤ 0) →
  StronglySorted R (JS.sort_insert cmp x l).
Proof.
  induction 1 as [|y l Hl IH Hy]; intros Htot Htrans; simpl.
  { repeat constructor. }
  destruct (Z.leb_spec (cmp x y) 0) as [Hxy|Hxy].
  - constructor; [by constructor|].
    constructor; [done|].
    rewrite Forall_forall in Hy |- *. intros z Hz.
    apply (Htrans y z); [by left|by right|done|by apply Hy].
  - constructor.
    + apply IH.
      * intros z Hz. apply Htot. by right.
      * intros z1 z2 Hz1 Hz2. apply Htrans; by right.
    + rewrite sort_insert_perm. constructor; [|done].
      apply Htot; [by left|done].
Qed.

(** A comparator that is total and transitive sorts every array. *)
Lemma sort_sorted l :
  (∀ a b, 0 < cmp a b → cmp b a ≤ 0) →
  (∀ a b c, cmp a b ≤ 0 → cmp b c ≤ 0 → cmp a c ≤ 0) →
  StronglySorted R (JS.sort cmp l).
Proof.
  intros Htot Htrans. induction l as [|x l IH]; simpl; [constructor|].
  apply sort_insert_sorted; eauto.
Qed.

(** So does one that is total and transitive on the distinct elements of an
    array without repetition: the sort never compares an element with
    itself. *)
Lemma sort_sorted_NoDup `{!EqDecision A} l :
  NoDup l →
  (∀ a b, a ∈ l → b ∈ l → a ≠ b → 0 < cmp a b → cmp b a ≤ 0) →
  (∀ a b c, a ∈ l → b ∈ l → c ∈ l → a ≠ b → b ≠ c → a ≠ c →
     cmp a b ≤ 0 → cmp b c ≤ 0 → cmp a c ≤ 0) →
  StronglySorted R (JS.sort cmp l).
Proof.
  induction 1 as [|x l Hx Hnd IH]; intros Htot Htrans; simpl; [constructor|].
  fold (JS.sort cmp l).
  assert (∀ y, y ∈ JS.sort cmp l → y ∈ l ∧ x ≠ y) as Hmem.
  { intros y Hy. rewrite sort_perm in Hy. split; [done|]. by intros ->. }
  apply sort_insert_sorted.
  - apply IH.
    + intros a b Ha Hb. apply Htot; by right.
    + intros a b c Ha Hb Hc. apply Htrans; by right.
  - intros y [Hy Hne]%Hmem. apply Htot; [by left|by right|done].
  - intros y z [Hy Hxy]%Hmem [Hz Hxz]%Hmem Hc1 Hc2.
    destruct (decide (y = z)) as [->|Hyz]; [done|].
    apply (Htrans x y z); try done; [by left|by right|by right].
Qed.
End SortFacts.

(** ** Objects as association lists *)

Section ObjectFacts.
Context {V : Type}.
Implicit Types (o : list (string * V)) (k : string) (v : V).

Lemma set_keys k v o :
  JS.keys (JS.set k v o)
  = if decide (k ∈ JS.keys o) then JS.keys o else (JS.keys o ++ [k])%list.
Proof.
  unfold JS.keys. induction o as [|[k' v'] o IH]; simpl.
  { done. }
  destruct (decide (k = k')) as [->|Hne]; simpl.
  - by rewrite decide_True by left.
  - rewrite IH. destruct (decide (k ∈ map fst o)) as [Hin|Hnin].
    + by rewrite decide_True by (by right).
    + rewrite decide_False; [done|].
      intros [?|?]%elem_of_cons; done.
Qed.

Lemma set_keys_NoDup k v o : NoDup (JS.keys o) → NoDup (JS.keys (JS.set k v o)).
Proof.
  intros Hnd. rewrite set_keys. case_decide as Hin; [done|].
  apply NoDup_app. split_and!; [done| |apply NoDup_singleton].
  intros x Hx ->%list_elem_of_singleton. done.
Qed.

Lemma set_keys_subseteq k v o : JS.keys (JS.set k v o) ⊆ k :: JS.keys o.
Proof.
  rewrite set_keys. case_decide.
  - intros x Hx. by right.
  - intros x [Hx| ->%list_elem_of_singleton]%elem_of_app; [by right|by left].
Qed.

Lemma filter_other_keys k o :
  k ∉ JS.keys o → filter (λ kv, kv.1 ≠ k) o = o.
Proof.
  unfold JS.keys. induction o as [|[k' v'] o IH]; simpl; intros Hk; [done|].
  apply not_elem_of_cons in Hk as [Hne Hk].
  rewrite filter_cons_True by (simpl; congruence). by rewrite IH.
Qed.

(** With distinct keys an assignment replaces the binding of [k]. *)
Lemma set_perm k v o :
  NoDup (JS.keys o) →
  JS.set k v o ≡ₚ (k, v) :: filter (λ kv, kv.1 ≠ k) o.
Proof.
  unfold JS.keys. induction o as [|[k' v'] o IH]; simpl; intros Hnd; [done|].
  apply NoDup_cons in Hnd as [Hk' Hnd].
  destruct (decide (k = k')) as [->|Hne].
  - rewrite filter_cons_False by (simpl; auto).
    by rewrite filter_other_keys.
  - rewrite filter_cons_True by (simpl; congruence).
    rewrite IH by done. apply Permutation_swap.
Qed.

(** Bindings with distinct keys are added at the end, in order. *)
Lemma fromEntries_fold (acc entries : list (string * V)) :
  NoDup (JS.keys (acc ++ entries)) →
  foldl (λ o kv, JS.set kv.1 kv.2 o) acc entries = (acc ++ entries)%list.
Proof.
  revert acc. induction entries as [|[k v] entries IH]; intros acc Hnd; simpl.
  { by rewrite app_nil_r. }
  assert (JS.set k v acc = (acc ++ [(k, v)])%list) as ->.
  { unfold JS.keys in Hnd. rewrite map_app in Hnd.
    apply NoDup_app in Hnd as (_ & Hdis & _).
    assert (k ∉ map fst acc) as Hk by (intros Hin; apply (Hdis k Hin); by left).
    clear -Hk. induction acc as [|[k' v'] acc IH]; simpl; [done|].
    apply not_elem_of_cons in Hk as [Hne Hk].
    rewrite decide_False by done. by rewrite IH. }
  rewrite IH; rewrite <-app_assoc; done.
Qed.

Lemma fromEntries_NoDup (entries : list (string * V)) :
  NoDup (JS.keys entries) → fromEntries entries = entries.
Proof. intros Hnd. unfold fromEntries. by rewrite fromEntries_fold. Qed.

Lemma fromEntries_keys_NoDup (entries : list (string * V)) :
  NoDup (JS.keys (fromEntries entries)).
Proof.
  unfold fromEntries.
  assert (NoDup (JS.keys ([] : list (string * V)))) as Hnil by constructor.
  revert Hnil. generalize ([] : list (string * V)).
  induction entries as [|[k v] entries IH]; intros acc Hacc; simpl; [done|].
  apply IH. by apply set_keys_NoDup.
Qed.

Lemma fromEntries_keys_subseteq (entries : list (string * V)) :
  JS.keys (fromEntries entries) ⊆ JS.keys entries.
Proof.
  unfold fromEntries.
  assert (∀ acc, JS.keys (foldl (λ o kv, JS.set kv.1 kv.2 o) acc entries)
                 ⊆ (JS.keys acc ++ JS.keys entries)%list) as H.
  { induction entries as [|[k v] entries IH]; intros acc; simpl.
    - by rewrite app_nil_r.
    - intros x Hx. apply IH in Hx.
      apply elem_of_app in Hx as [Hx|Hx]; [|apply elem_of_app; right; by right].
      apply set_keys_subseteq in Hx. apply elem_of_cons in Hx as [->|Hx].
      + apply elem_of_app. right. by left.
      + apply elem_of_app. by left. }
  intros x Hx. by apply H in Hx.
Qed.

(** Two bindings of an object with the same key are the same binding. *)
Lemma same_key_same_binding o (x y : string * V) :
  NoDup (JS.keys o) → x ∈ o → y ∈ o → x.1 = y.1 → x = y.
Proof.
  unfold JS.keys. induction o as [|z o IH]; intros Hnd Hx Hy Hk.
  { by apply elem_of_nil in Hx. }
  apply NoDup_cons in Hnd as [Hz Hnd].
  apply elem_of_cons in Hx as [->|Hx]; apply elem_of_cons in Hy as [->|Hy].
  - done.
  - exfalso. apply Hz. rewrite Hk. by apply list_elem_of_fmap_2.
  - exfalso. apply Hz. rewrite <-Hk. by apply list_elem_of_fmap_2.
  - by apply IH.
Qed.
End ObjectFacts.

(** ** Profile *)

Section CustomScore.

(** Adding the double 0 changes a number at most in the sign of zero, which
    [Math.round] as an integer does not see. *)
Lemma Math_round_zero_plus (y : float) :
  JS.Math_round (0 + y)%float = JS.Math_round y.
Proof.
  unfold JS.Math_round. rewrite add_spec.
  change (Prim2SF 0%float) with (S754_zero false).
  unfold SF64add, SFadd.
  destruct (Prim2SF y) as [[]|[]| |s m e]; reflexivity.
Qed.

(** The rating term of a user without rating. *)
Lemma Number_zero_times : (JS.Number 0 * 0.9)%float = 0%float.
Proof. reflexivity. Qed.



















(** A negative rating can fall on the other side of a tie: -198 with 7
    friends is exactly -177.5, the doubles add up to a little less, and the
    score is -178. *)
Example customScore_negative_tie :
  JS.Math_round (JS.Number (-198) * 0.9 + JS.Number 7 * 0.1)%float = -178
  ∧ exactScore (-198) 7 = -177.
Proof. split; vm_compute; reflexivity. Qed.
End CustomScore.




Example customScore_unrated : customScore (fetchProfile Samples.unrated) = 3.
Proof. vm_compute. reflexivity. Qed.

(** ** Upcoming contests *)

(** For phases BEFORE, FINISHED, BEFORE starting at now+100, now-100, now+50
    the function does not return the contest at now+50 first. *)
Example upcoming_example_not_sorted :
  map startTimeSeconds (fetchUpcomingContests 1000 (Samples.threePhases 1000))
  ≠ [1000 + 50; 1000 + 100].
Proof. by vm_compute. Qed.

Section Upcoming.
Implicit Types (contests : list Contest).

Lemma byStartTime_sorted (l : list ContestEntry) :
  StronglySorted (λ a b, startTimeSeconds a ≤ startTimeSeconds b)
    (JS.sort byStartTime l).
Proof.
  assert (StronglySorted (λ a b, byStartTime a b ≤ 0) (JS.sort byStartTime l))
    as Hs by (apply sort_sorted; unfold byStartTime; intros; lia).
  induction Hs as [|e l' _ IH Hall]; constructor; [done|].
  eapply Forall_impl; [exact Hall|]. intros b. unfold byStartTime. lia.
Qed.

Lemma threePhases_kept now :
  filter (upcoming now) (Samples.threePhases now)
  = [Samples.contest "BEFORE" (now + 100); Samples.contest "BEFORE" (now + 50)].
Proof.
  unfold Samples.threePhases.
  rewrite filter_cons_True by (split; [done|simpl; lia]).
  rewrite filter_cons_False by (intros [? _]; done).
  rewrite filter_cons_True by (split; [done|simpl; lia]).
  done.
Qed.
End Upcoming.

(** C2 (the code differs): the function returns, in upstream order and
    unsorted, the first 20 of the contests whose phase is BEFORE and whose
    start lies strictly after now; only the effect that runs when the home
    page is mounted sorts what it received by start time, after the cut to
    20. For phases BEFORE, FINISHED, BEFORE starting at now+100, now-100,
    now+50 the function returns the starts now+100, now+50 and the mounted
    page shows now+50, now+100. *)
Theorem upcoming_contests_spec (now : Z) (contests : list Contest) :
  let kept := filter (upcoming now) contests in
  let result := fetchUpcomingContests now contests in
  (∀ c, c ∈ kept ↔ c ∈ contests ∧ c_phase c = "BEFORE" ∧ now < c_startTimeSeconds c)
  ∧ kept `sublist_of` contests
  ∧ result `prefix_of` map toContestEntry kept
  ∧ length result = (length kept `min` 20)%nat
  ∧ HomePage_onMount now contests ≡ₚ result
  ∧ StronglySorted (λ a b, startTimeSeconds a ≤ startTimeSeconds b)
      (HomePage_onMount now contests)
  ∧ map startTimeSeconds (fetchUpcomingContests now (Samples.threePhases now))
    = [now + 100; now + 50]
  ∧ map startTimeSeconds (HomePage_onMount now (Samples.threePhases now))
    = [now + 50; now + 100].
Proof.
  simpl. split_and!.
  - intros c. rewrite list_elem_of_filter. unfold upcoming. tauto.
  - apply sublist_filter.
  - unfold fetchUpcomingContests.
    exists (map toContestEntry (drop 20 (filter (upcoming now) contests))).
    by rewrite <-map_app, take_drop.
  - unfold fetchUpcomingContests. rewrite length_map, length_take. lia.
  - apply sort_perm.
  - apply byStartTime_sorted.
  - unfold fetchUpcomingContests. by rewrite threePhases_kept.
  - unfold HomePage_onMount, fetchUpcomingContests.
    rewrite threePhases_kept. simpl. unfold byStartTime. simpl.
    destruct (Z.leb_spec (now + 100 - (now + 50)) 0); [lia|done].
Qed.

(** ** Rating summary *)

Section RatingSummary.
Implicit Types (entries : list RatingEntry).

Lemma delta_fold entries s :
  foldl delta_step s entries = s + foldr Z.add 0 (map delta entries).
Proof.
  revert s. induction entries as [|e entries IH]; intros s; simpl; [lia|].
  rewrite IH. unfold delta_step, delta. lia.
Qed.

(** The accumulator of [reduce] stays a lower bound that is attained. *)
Lemma bestRank_fold entries a :
  ∃ m, foldl bestRank_step (Some a) entries = Some m
       ∧ m ≤ a ∧ Forall (λ e, m ≤ rank e) entries
       ∧ (m = a ∨ m ∈ map rank entries).
Proof.
  revert a. induction entries as [|e entries IH]; intros a; simpl.
  - exists a. split_and!; [done|lia|constructor|by left].
  - destruct (IH (Z.min a (rank e))) as (m & -> & Hle & Hall & Hin).
    exists m. split_and!; [done|lia| |].
    + constructor; [lia|done].
    + destruct Hin as [->|Hin]; [|right; by right].
      destruct (Z.min_spec a (rank e)) as [[_ ->]|[_ ->]]; [by left|].
      right. by left.
Qed.

(** Rounding half up: the result is within one half of the quotient. *)
Lemma Math_round_div_nearest s n :
  0 < n →
  2 * s - n < 2 * n * JS.Math_round_div s n ≤ 2 * s + n.
Proof.
  intros Hn. unfold JS.Math_round_div.
  pose proof (Z.div_mod (2 * s + n) (2 * n) ltac:(lia)) as Hdm.
  pose proof (Z.mod_pos_bound (2 * s + n) (2 * n) ltac:(lia)) as Hb.
  lia.
Qed.
End RatingSummary.

(** C7: [total] is the entry count; [bestRank] is null exactly for the empty
    list and otherwise the least rank of the list; [avgDelta] is null exactly
    for the empty list and otherwise the integer nearest to the mean of
    [newRating - oldRating] (within one half of it, a tie going up); ranks
    12, 3, 50 with changes +20, -5, +10 give [bestRank = 3] and
    [avgDelta = 8]. *)
Theorem rating_summary_spec (entries : list RatingEntry) :
  let s := (fetchRatingHistory entries).1 in
  let ranks := map rank entries in
  let deltas := map delta entries in
  let n := Z.of_nat (length entries) in
  total s = length entries
  ∧ match bestRank s with
    | None => entries = []
    | Some m => m ∈ ranks ∧ Forall (λ r, m ≤ r) ranks
    end
  ∧ match avgDelta s with
    | None => entries = []
    | Some d =>
        entries ≠ []
        ∧ 2 * foldr Z.add 0 deltas - n < 2 * n * d ≤ 2 * foldr Z.add 0 deltas + n
    end
  ∧ (ranks = [12; 3; 50] → deltas = [20; -5; 10] →
     bestRank s = Some 3 ∧ avgDelta s = Some 8).
Proof.
  simpl. split; [|split; [|split]].
  - done.
  - destruct entries as [|e entries]; [done|]. simpl.
    destruct (bestRank_fold entries (rank e)) as (m & -> & Hle & Hall & Hin).
    split.
    + destruct Hin as [->|Hin]; [by left|by right].
    + constructor; [done|]. by apply Forall_map.
  - destruct entries as [|e entries]; [done|].
    case_decide as Hlen; [done|]. split; [done|].
    rewrite delta_fold, Z.add_0_l.
    apply Math_round_div_nearest. simpl length. lia.
  - intros Hranks Hdeltas.
    destruct entries as [|e1 [|e2 [|e3 [|e4 entries]]]]; try done.
    simpl in Hranks, Hdeltas. unfold delta in Hdeltas. simplify_eq.
    simpl. unfold bestRank_step, delta_step. simpl.
    repeat match goal with H : rank _ = _ |- _ => rewrite H end.
    repeat match goal with H : _ - _ = _ |- _ => rewrite H end.
    by vm_compute.
Qed.

Lemma rating_summary_spec_witness :
  bestRank (fetchRatingHistory Samples.threeContests).1 = Some 3
  ∧ avgDelta (fetchRatingHistory Samples.threeContests).1 = Some 8.
Proof.
  apply (rating_summary_spec Samples.threeContests); reflexivity.
Defined.

(** ** Empty input *)

(** C9: with no submission at all the overview is
    [{total: 0, accepted: 0, verdictCounts: {}, languages: {}}] and the
    difficulty is [{totalSolved: 0, highestSolvedRating: null}] with five
    empty buckets; both functions are total, so nothing is raised. *)
Theorem empty_submissions :
  fetchSubmissionOverview []
  = {| st_total := 0; verdictCounts := []; languages := []; accepted := 0 |}
  ∧ fetchProblemDifficulty []
    = {| totalSolved := 0;
         highestSolvedRating := None;
         buckets := {| lt1100 := 0; b1100_1399 := 0; b1400_1699 := 0;
                       b1700_1999 := 0; ge2000 := 0 |} |}.
Proof. split; reflexivity. Qed.

(** ** Difficulty histogram *)

Section Difficulty.
Implicit Types (subs : list Submission) (solved : gmap string bool).

Lemma markSolved_keeps solved s key :
  notSolved solved key = false → notSolved (markSolved solved s) key = false.
Proof.
  unfold markSolved, notSolved. intros Hk.
  destruct (isOK s); [|done].
  destruct (decide (problemKey s = key)) as [->|Hne].
  - by rewrite lookup_insert_eq.
  - by rewrite lookup_insert_ne.
Qed.

Lemma markSolved_fold_keeps subs solved key :
  notSolved solved key = false →
  notSolved (foldl markSolved solved subs) key = false.
Proof.
  revert solved. induction subs as [|s subs IH]; intros solved Hk; [done|].
  simpl. by apply IH, markSolved_keeps.
Qed.

(** After the first loop every accepted submission finds its key marked. *)
Lemma accepted_is_marked subs solved s :
  s ∈ subs → isOK s = true →
  notSolved (foldl markSolved solved subs) (problemKey s) = false.
Proof.
  revert solved. induction subs as [|s' subs IH]; intros solved Hin Hok.
  - by apply elem_of_nil in Hin.
  - apply elem_of_cons in Hin as [->|Hin]; simpl.
    + apply markSolved_fold_keeps. unfold markSolved. rewrite Hok.
      unfold notSolved. by rewrite lookup_insert_eq.
    + by apply IH.
Qed.

(** Hence the guard of the second loop only looks at the verdict. *)
Lemma difficulty_step_marked solved d s :
  (isOK s = true → notSolved solved (problemKey s) = false) →
  totalSolved (difficulty_step solved d s)
  = (totalSolved d + if isOK s then 1 else 0)%nat.
Proof.
  intros Hs. unfold difficulty_step.
  destruct (isOK s) eqn:Hok; simpl.
  - rewrite (Hs eq_refl). simpl. by destruct (p_rating (problem s)).
  - rewrite orb_true_r. lia.
Qed.

Lemma totalSolved_fold solved d subs :
  (∀ s, s ∈ subs → isOK s = true → notSolved solved (problemKey s) = false) →
  totalSolved (foldl (difficulty_step solved) d subs)
  = (totalSolved d + length (filter (λ s, isOK s = true) subs))%nat.
Proof.
  revert d. induction subs as [|s subs IH]; intros d Hs; simpl; [lia|].
  rewrite IH by (intros; apply Hs; [by right|done]).
  rewrite difficulty_step_marked by (apply Hs; by left).
  rewrite filter_cons. destruct (isOK s); case_decide; simpl; try done; lia.
Qed.
End Difficulty.

(** C1 (the code differs): [totalSolved] is the number of accepted
    submissions, not of accepted problems; the same problem accepted twice is
    counted twice, in [totalSolved] and in its rating bucket, while one
    accepted submission among five is counted once. *)
Theorem difficulty_counts_accepted_submissions :
  (∀ subs : list Submission,
     totalSolved (fetchProblemDifficulty subs)
     = length (filter (λ s, isOK s = true) subs))
  ∧ map problemKey Samples.acceptedTwice = ["1-A"; "1-A"]
  ∧ fetchProblemDifficulty Samples.acceptedTwice
    = {| totalSolved := 2;
         highestSolvedRating := Some 800;
         buckets := {| lt1100 := 2; b1100_1399 := 0; b1400_1699 := 0;
                       b1700_1999 := 0; ge2000 := 0 |} |}
  ∧ fetchProblemDifficulty Samples.oneOfFive
    = {| totalSolved := 1;
         highestSolvedRating := Some 800;
         buckets := {| lt1100 := 1; b1100_1399 := 0; b1400_1699 := 0;
                       b1700_1999 := 0; ge2000 := 0 |} |}.
Proof.
  split; [|by vm_compute].
  intros subs. unfold fetchProblemDifficulty.
  rewrite totalSolved_fold; [done|].
  intros s Hin Hok. by apply accepted_is_marked.
Qed.

(** ** Weekly activity and streaks *)

Section ActivityFacts.
Context (dj : Dayjs.Api).
Implicit Types (subs : list Submission) (weekly : list (string * WeekStat)).

Lemma activity_step_keys weekly hm s :
  JS.keys (activity_step dj (weekly, hm) s).1
  = JS.keys (JS.set (weekIdOf dj (creationTimeSeconds s))
               {| submissions := 0; wk_accepted := 0 |} weekly).
Proof. unfold activity_step. simpl. by rewrite !set_keys. Qed.

(** The keys of [weekly] are the week identifiers of the submissions, each
    once. *)
Lemma weekly_keys subs weekly hm :
  NoDup (JS.keys weekly) →
  let weekly' := (foldl (activity_step dj) (weekly, hm) subs).1 in
  NoDup (JS.keys weekly')
  ∧ ∀ k, k ∈ JS.keys weekly'
         ↔ k ∈ JS.keys weekly
           ∨ k ∈ map (λ s, weekIdOf dj (creationTimeSeconds s)) subs.
Proof.
  revert weekly hm. induction subs as [|s subs IH]; intros weekly hm Hnd;
    cbv zeta; cbn [foldl map].
  { split; [done|]. intros k. simpl. rewrite elem_of_nil. tauto. }
  destruct (activity_step dj (weekly, hm) s) as [weekly1 hm1] eqn:Hstep.
  assert (JS.keys weekly1
          = JS.keys (JS.set (weekIdOf dj (creationTimeSeconds s))
                       {| submissions := 0; wk_accepted := 0 |} weekly)) as Hk.
  { by rewrite <-(activity_step_keys weekly hm s), Hstep. }
  assert (NoDup (JS.keys weekly1)) as Hnd1.
  { rewrite Hk. by apply set_keys_NoDup. }
  destruct (IH weekly1 hm1 Hnd1) as [IH1 IH2]. split; [done|].
  intros k. rewrite IH2, Hk, set_keys, elem_of_cons.
  case_decide as Hin.
  - split; [tauto|]. intros [?|[->|?]]; tauto.
  - rewrite elem_of_app, list_elem_of_singleton. tauto.
Qed.

(** One step of the loop: one more when the week number is the previous one
    plus one (and the week is not the first), 1 otherwise. *)
Lemma streak_step_current i v weekId :
  currentStreak (streak_step dj i v weekId)
  = if bool_decide (0 < i)%nat && follows (weekNumber dj weekId) (lastWeek v)
    then S (currentStreak v) else 1%nat.
Proof.
  unfold streak_step. simpl.
  destruct (bool_decide (0 < i)%nat && follows _ _); [lia|done].
Qed.

(** [longestStreak] is the greatest value [currentStreak] took. *)
Lemma streak_loop_longest i v sortedWeeks :
  longestStreak (streak_loop dj i v sortedWeeks)
  = foldr Nat.max (longestStreak v) (streak_trace dj i v sortedWeeks).
Proof.
  revert i v. induction sortedWeeks as [|weekId rest IH]; intros i v; [done|].
  simpl. rewrite IH. clear IH.
  generalize (streak_trace dj (S i) (streak_step dj i v weekId) rest).
  intros trace. unfold streak_step at 1. cbn [longestStreak].
  fold (streak_step dj i v weekId).
  induction trace as [|n trace IHt]; simpl.
  - case_bool_decide; unfold streak_step; simpl; lia.
  - rewrite IHt. lia.
Qed.

Lemma fetchActivity_weeks now subs :
  weeks (fetchActivity dj now subs)
  = (foldl (activity_step dj) ([], []) subs).1.
Proof. unfold fetchActivity. by destruct (foldl _ _ _). Qed.

Lemma fetchActivity_streak now subs :
  streak (fetchActivity dj now subs)
  = let sortedWeeks :=
      sortedWeeksOf (foldl (activity_step dj) ([], []) subs).1 in
    let v := streakOf dj now sortedWeeks in
    {| current := currentStreak v;
       longest := longestStreak v;
       activeWeeks := length sortedWeeks |}.
Proof. unfold fetchActivity. by destruct (foldl _ _ _). Qed.

(** The loop on two weeks. *)
Lemma two_weeks_streak now first second :
  streakOf dj now [first; second]
  = {| currentStreak :=
         if habitBroken dj now second then 0
         else if follows (weekNumber dj second) (weekNumber dj first)
              then 2 else 1;
       longestStreak :=
         if follows (weekNumber dj second) (weekNumber dj first) then 2 else 1;
       lastWeek := weekNumber dj second |}%nat.
Proof.
  unfold streakOf, streak_loop, streak_step. simpl.
  destruct (follows _ _), (habitBroken _ _ _); reflexivity.
Qed.

(** [activeWeeks] is the number of distinct week identifiers. *)
Lemma activeWeeks_distinct now subs :
  activeWeeks (streak (fetchActivity dj now subs))
  = size (list_to_set (C := gset string)
            (map (λ s, weekIdOf dj (creationTimeSeconds s)) subs)).
Proof.
  unfold fetchActivity.
  pose proof (weekly_keys subs [] [] (NoDup_nil_2 : NoDup (JS.keys []))) as [Hnd Hk].
  destruct (foldl (activity_step dj) ([], []) subs) as [weekly hm]. simpl in *.
  unfold sortedWeeksOf, JS.sort_default. rewrite sort_perm.
  rewrite <-(size_list_to_set (C := gset string)) by done.
  f_equal. apply set_eq. intros k. rewrite !elem_of_list_to_set, Hk.
  rewrite elem_of_nil. tauto.
Qed.
End ActivityFacts.

(** C3 (the code differs): the week identifiers are sorted as texts, and a
    week number is written without leading zero. For submissions in the ISO
    weeks 9 and 10 of 2024, seen in week 10, the loop therefore processes week
    10 and then week 9 and takes week 9 for the most recent week, whatever the
    parser and the formatter of dayjs do: the longest streak is 2 only if the
    number read for week 9 is the number read for week 10 plus one, and the
    current streak is reset to 0 unless the formatter names the previous week
    "2024-9". *)
Theorem streak_weeks_sorted_as_text
    (fmtDay fmtW : Z → string) (parse : string → option Z) (sub : Z → Z) :
  let dj := Dayjs.Build_Api Dayjs.utc_isoWeekYear Dayjs.utc_isoWeek
              fmtDay fmtW parse sub in
  let a := fetchActivity dj Samples.inWeekTen Samples.weeksNineTen in
  let adjacent := follows (weekNumber dj "2024-9") (weekNumber dj "2024-10") in
  map (weekIdOf dj ∘ creationTimeSeconds) Samples.weeksNineTen
  = ["2024-9"; "2024-10"]
  ∧ weekIdOf dj Samples.inWeekTen = "2024-10"
  ∧ sortedWeeksOf (weeks a) = ["2024-10"; "2024-9"]
  ∧ longest (streak a) = (if adjacent then 2 else 1)%nat
  ∧ current (streak a)
    = (if bool_decide (fmtW (sub Samples.inWeekTen) = "2024-9")
       then if adjacent then 2 else 1 else 0)%nat
  ∧ activeWeeks (streak a) = 2%nat.
Proof.
  intros dj a adjacent.
  assert (sortedWeeksOf (foldl (activity_step dj) ([], []) Samples.weeksNineTen).1
          = ["2024-10"; "2024-9"]) as Hsorted by (by vm_compute).
  assert (weekIdOf dj Samples.inWeekTen = "2024-10") as Hnow by (by vm_compute).
  split; [by vm_compute|]. split; [done|].
  unfold a. rewrite fetchActivity_weeks, fetchActivity_streak, Hsorted.
  cbv zeta. rewrite two_weeks_streak. cbn [current longest activeWeeks length].
  unfold habitBroken. rewrite Hnow. fold adjacent.
  rewrite bool_decide_eq_true_2 by done. cbn [andb Dayjs.format_YYYY_W
    Dayjs.subtract_week dj].
  clearbody adjacent. clear Hsorted Hnow a.
  generalize (fmtW (sub Samples.inWeekTen)). intros label.
  cbn [currentStreak longestStreak].
  split; [reflexivity|]. split; [reflexivity|]. split; [|reflexivity].
  destruct (decide (label = "2024-9")) as [Heq|Hne].
  - rewrite bool_decide_eq_false_2 by tauto.
    by rewrite bool_decide_eq_true_2 by exact Heq.
  - rewrite bool_decide_eq_true_2 by exact Hne.
    by rewrite bool_decide_eq_false_2 by exact Hne.
Qed.

(** With dayjs as the module loads it ([Dayjs.utc]): the weeks 9 and 10 give
    a longest streak of 1 and a current streak of 0 in week 10. For the
    activity 2, 0, 3, 1, 0, 0, 5 the active weeks are 4 and the current streak
    is 0 two weeks after the last submission; the adjacent weeks 22 and 23
    do not extend the streak, and the current streak is 0 one week after the
    last submission as well. *)
Example streak_samples :
  streak (fetchActivity Dayjs.utc Samples.inWeekTen Samples.weeksNineTen)
  = {| current := 0; longest := 1; activeWeeks := 2 |}
  ∧ sortedWeeksOf (weeks (fetchActivity Dayjs.utc Samples.inWeek26 Samples.sevenWeeks))
    = ["2024-20"; "2024-22"; "2024-23"; "2024-26"]
  ∧ streak (fetchActivity Dayjs.utc Samples.inWeek26 Samples.sevenWeeks)
    = {| current := 1; longest := 1; activeWeeks := 4 |}
  ∧ streak (fetchActivity Dayjs.utc Samples.inWeek27 Samples.sevenWeeks)
    = {| current := 0; longest := 1; activeWeeks := 4 |}
  ∧ streak (fetchActivity Dayjs.utc Samples.inWeek28 Samples.sevenWeeks)
    = {| current := 0; longest := 1; activeWeeks := 4 |}.
Proof. by vm_compute. Qed.

(** What the loop compares for the weeks 22 and 23 of 2024: the identifiers
    are read as the months 22 and 23 counted from January 2024, whose first
    days lie in the ISO weeks 40 and 44 of 2025; and the label of the
    previous week. *)
Example weekNumber_reads_months :
  weekNumber Dayjs.utc "2024-22" = Some 40
  ∧ weekNumber Dayjs.utc "2024-23" = Some 44
  ∧ Dayjs.format_YYYY_MM_DD Dayjs.utc <$> Dayjs.parse Dayjs.utc "2024-22"
    = Some "2025-10-01"
  ∧ Dayjs.format_YYYY_W Dayjs.utc (Dayjs.subtract_week Dayjs.utc Samples.inWeek27)
    = "2024-W".
Proof. by vm_compute. Qed.

(** ** The signer *)

Section SignerFacts.
Context (rt : Runtime).
Implicit Types (params : list (string * ParamValue)) (K : list string).

Local Abbreviation lc := (localeCompare rt).
Local Abbreviation definedOf params :=
  (map (λ kv : string * ParamValue, (kv.1, String_ kv.2))
     (filter (λ kv : string * ParamValue, kv.2 ≠ VUndefined) params)).

Lemma collates_strict K a b :
  collates rt K → a ∈ K → b ∈ K → a ≠ b →
  (lc a b < 0 ∧ 0 < lc b a) ∨ (0 < lc a b ∧ lc b a < 0).
Proof.
  intros [Hs _] Ha Hb. rewrite Forall_forall in Hs.
  specialize (Hs a Ha). rewrite Forall_forall in Hs. by apply Hs.
Qed.

Lemma collates_trans K a b c :
  collates rt K → a ∈ K → b ∈ K → c ∈ K →
  lc a b < 0 → lc b c < 0 → lc a c < 0.
Proof.
  intros [_ Ht] Ha Hb Hc. rewrite Forall_forall in Ht.
  specialize (Ht a Ha). rewrite Forall_forall in Ht.
  specialize (Ht b Hb). rewrite Forall_forall in Ht. by apply Ht.
Qed.

Lemma compareEntries_keys (a b : string * string) :
  a.1 ≠ b.1 → compareEntries rt a b = lc a.1 b.1.
Proof. intros Hne. unfold compareEntries. by rewrite decide_False. Qed.

Lemma definedOf_keys params :
  JS.keys (definedOf params)
  = JS.keys (filter (λ kv : string * ParamValue, kv.2 ≠ VUndefined) params).
Proof. unfold JS.keys. rewrite map_map. by apply map_ext. Qed.

Lemma filter_keys_NoDup {V : Type} (P : string * V → Prop)
    `{!∀ x, Decision (P x)} (o : list (string * V)) :
  NoDup (JS.keys o) → NoDup (JS.keys (filter P o)) ∧ JS.keys (filter P o) ⊆ JS.keys o.
Proof.
  unfold JS.keys. induction o as [|x o IH]; intros Hnd; [done|].
  apply NoDup_cons in Hnd as [Hx Hnd]. destruct (IH Hnd) as [IH1 IH2].
  destruct (decide (P x)).
  - rewrite filter_cons_True by done. simpl. split.
    + apply NoDup_cons. split; [|done]. intros Hin. by apply Hx, IH2.
    + intros y [->|Hy]%elem_of_cons; [by left|right; by apply IH2].
  - rewrite filter_cons_False by done. split; [done|].
    intros y Hy. right. by apply IH2.
Qed.

Lemma filter_keys_subseteq {V : Type} (P : string * V → Prop)
    `{!∀ x, Decision (P x)} (o : list (string * V)) :
  JS.keys (filter P o) ⊆ JS.keys o.
Proof.
  unfold JS.keys. intros k Hk.
  apply list_elem_of_fmap in Hk as (x & -> & Hx).
  apply list_elem_of_filter in Hx as [_ Hx]. by apply list_elem_of_fmap_2.
Qed.

Lemma baseParams_NoDup apiKey nowMs params :
  NoDup (JS.keys (baseParamsOf apiKey nowMs params)).
Proof.
  unfold baseParamsOf. do 2 apply set_keys_NoDup. apply fromEntries_keys_NoDup.
Qed.

Lemma baseParams_keys apiKey nowMs params :
  JS.keys (baseParamsOf apiKey nowMs params) ⊆ signedKeys params.
Proof.
  unfold baseParamsOf, signedKeys. intros k Hk.
  apply set_keys_subseteq, elem_of_cons in Hk as [->|Hk]; [right; by left|].
  apply set_keys_subseteq, elem_of_cons in Hk as [->|Hk]; [by left|].
  do 2 right. apply fromEntries_keys_subseteq in Hk.
  rewrite definedOf_keys in Hk. by apply filter_keys_subseteq in Hk.
Qed.

(** On an object whose names collate, the comparator sorts. *)
Lemma sortedOf_sorted K (o : list (string * string)) :
  collates rt K → NoDup (JS.keys o) → JS.keys o ⊆ K →
  StronglySorted (λ a b, compareEntries rt a b ≤ 0) (sortedOf rt o).
Proof.
  intros Hc Hnd Hsub. unfold sortedOf.
  assert (∀ a b : string * string, a ∈ o → b ∈ o → a ≠ b → a.1 ≠ b.1) as Hkeys.
  { intros a b Ha Hb Hne Hk. apply Hne. by eapply same_key_same_binding. }
  assert (∀ a : string * string, a ∈ o → a.1 ∈ K) as HK.
  { intros a Ha. apply Hsub. by apply list_elem_of_fmap_2. }
  apply sort_sorted_NoDup; [apply _| | |].
  - by apply (NoDup_fmap_1 fst).
  - intros a b Ha Hb Hne Hpos.
    rewrite compareEntries_keys in * by auto using not_eq_sym.
    destruct (collates_strict K a.1 b.1) as [[? ?]|[? ?]]; auto; lia.
  - intros a b c Ha Hb Hc' Hab Hbc Hac Hle1 Hle2.
    rewrite compareEntries_keys in * by auto.
    destruct (collates_strict K a.1 b.1) as [[? ?]|[? ?]]; auto; [|lia].
    destruct (collates_strict K b.1 c.1) as [[? ?]|[? ?]]; auto; [|lia].
    assert (lc a.1 c.1 < 0); [|lia].
    apply (collates_trans K a.1 b.1 c.1); auto.
Qed.

(** And only one arrangement of the bindings is sorted. *)
Lemma sortedOf_perm K (o1 o2 : list (string * string)) :
  collates rt K → NoDup (JS.keys o1) → JS.keys o1 ⊆ K → o1 ≡ₚ o2 →
  sortedOf rt o1 = sortedOf rt o2.
Proof.
  intros Hc Hnd Hsub Hperm.
  assert (NoDup (JS.keys o2)) as Hnd2 by (unfold JS.keys; by rewrite <-Hperm).
  assert (JS.keys o2 ⊆ K) as Hsub2 by (unfold JS.keys; by rewrite <-Hperm).
  apply (StronglySorted_unique_strong (λ a b, compareEntries rt a b ≤ 0)).
  - intros x1 x2 Hx1 Hx2 H12 H21.
    unfold sortedOf in Hx1, Hx2. rewrite sort_perm in Hx1, Hx2.
    rewrite <-Hperm in Hx2.
    destruct (decide (x1.1 = x2.1)) as [Hk|Hk].
    { by apply (same_key_same_binding o1). }
    rewrite !compareEntries_keys in H12, H21 by auto.
    assert (∀ x : string * string, x ∈ o1 → x.1 ∈ K) as HK.
    { intros x Hx. apply Hsub. by apply list_elem_of_fmap_2. }
    destruct (collates_strict K x1.1 x2.1) as [[? ?]|[? ?]]; auto; lia.
  - by eapply sortedOf_sorted.
  - by eapply sortedOf_sorted.
  - unfold sortedOf. by rewrite !sort_perm.
Qed.

(** The order in which the caller wrote the parameters does not change the
    object that is signed, as a collection of bindings. *)
Lemma baseParams_perm apiKey nowMs params1 params2 :
  NoDup (JS.keys params1) → params1 ≡ₚ params2 →
  baseParamsOf apiKey nowMs params1 ≡ₚ baseParamsOf apiKey nowMs params2.
Proof.
  intros Hnd Hperm.
  assert (NoDup (JS.keys params2)) as Hnd2 by (unfold JS.keys; by rewrite <-Hperm).
  assert (∀ params, NoDup (JS.keys params) →
            fromEntries (definedOf params) = definedOf params) as Hfrom.
  { intros params Hp. apply fromEntries_NoDup. rewrite definedOf_keys.
    by apply filter_keys_NoDup. }
  unfold baseParamsOf. rewrite !Hfrom by done.
  assert (∀ params, NoDup (JS.keys params) →
            NoDup (JS.keys (definedOf params))) as Hdef.
  { intros params Hp. rewrite definedOf_keys. by apply filter_keys_NoDup. }
  rewrite !set_perm by auto using @set_keys_NoDup.
  by rewrite Hperm.
Qed.
End SignerFacts.

(** The request of the API documentation, signed. *)
Example signCfRequest_hacks :
  signCfRequest asciiRuntime Samples.credentials 1390000000000 "123456"
    "contest.hacks" Samples.hacks
  = Ok ("https://codeforces.com/api/contest.hacks"
        +:+ "?apiKey=xxx&contestId=566&time=1390000000&apiSig=123456"
        +:+ "afec6c30db40c117240c10e812c77d47e2064a0376d1e63c65981222ebc97a447b1601ba672d99564fc091539159d28e1b7470ea1b896c046b172fa6e75b0090").
Proof. vm_compute. reflexivity. Qed.

(** C6 as stated fails: where the collation of the platform holds two names
    equal, as it must for the two canonically equivalent spellings of one
    letter, the comparator answers 0 for them, the stable sort leaves them in
    the order of insertion, and the same mapping written in two orders gives
    two queries and two signed URLs. *)
Lemma equivalent_names_keep_insertion_order :
  NoDup (JS.keys Samples.accents1)
  ∧ Samples.accents1 ≡ₚ Samples.accents2
  ∧ e_acute ≠ e_accent
  ∧ localeCompare canonRuntime e_acute e_accent = 0
  ∧ queryOf canonRuntime
      (sortedOf canonRuntime (baseParamsOf "xxx" 1390000000000 Samples.accents1))
    = "apiKey=xxx&time=1390000000&" +:+ e_acute +:+ "=1&" +:+ e_accent +:+ "=2"
  ∧ queryOf canonRuntime
      (sortedOf canonRuntime (baseParamsOf "xxx" 1390000000000 Samples.accents2))
    = "apiKey=xxx&time=1390000000&" +:+ e_accent +:+ "=2&" +:+ e_acute +:+ "=1"
  ∧ signCfRequest canonRuntime Samples.credentials 1390000000000 "123456"
      "user.status" Samples.accents1
    ≠ signCfRequest canonRuntime Samples.credentials 1390000000000 "123456"
        "user.status" Samples.accents2.
Proof.
  split; [apply (bool_decide_unpack _); vm_compute; exact I|].
  split; [apply Permutation_swap|].
  split; [by vm_compute|]. split; [by vm_compute|].
  split; [by vm_compute|]. split; [by vm_compute|].
  vm_compute. discriminate.
Qed.

(** C6 (amended): two parameter objects with the same bindings written in
    different orders give the same sorted query and the same signed URL, for
    the same method, clock and nonce, provided the collation of the platform
    holds no two of the signed names equal (and is transitive on them). *)
Theorem signCfRequest_insertion_order (rt : Runtime) (env : ProcessEnv)
    (nowMs : Z) (rand methodName : string)
    (params1 params2 : list (string * ParamValue)) :
  NoDup (JS.keys params1) →
  params1 ≡ₚ params2 →
  collates rt (signedKeys params1) →
  (∀ apiKey,
     sortedOf rt (baseParamsOf apiKey nowMs params1)
     = sortedOf rt (baseParamsOf apiKey nowMs params2)
     ∧ queryOf rt (sortedOf rt (baseParamsOf apiKey nowMs params1))
       = queryOf rt (sortedOf rt (baseParamsOf apiKey nowMs params2)))
  ∧ signCfRequest rt env nowMs rand methodName params1
    = signCfRequest rt env nowMs rand methodName params2.
Proof.
  intros Hnd Hperm Hc.
  assert (∀ apiKey,
            sortedOf rt (baseParamsOf apiKey nowMs params1)
            = sortedOf rt (baseParamsOf apiKey nowMs params2)) as Heq.
  { intros apiKey. apply (sortedOf_perm rt (signedKeys params1));
      [done|apply baseParams_NoDup|apply baseParams_keys|].
    by apply baseParams_perm. }
  split.
  - intros apiKey. by rewrite Heq.
  - unfold signCfRequest. by rewrite Heq.
Qed.

Lemma signCfRequest_insertion_order_witness :
  signCfRequest asciiRuntime Samples.credentials 1390000000000 "123456"
    "user.status" Samples.status1
  = signCfRequest asciiRuntime Samples.credentials 1390000000000 "123456"
      "user.status" Samples.status2.
Proof.
  apply (signCfRequest_insertion_order asciiRuntime Samples.credentials
           1390000000000 "123456" "user.status"
           Samples.status1 Samples.status2).
  - apply (bool_decide_unpack _). vm_compute. exact I.
  - apply (bool_decide_unpack _). vm_compute. exact I.
  - apply (bool_decide_unpack _). vm_compute. exact I.
Defined.

Example status_query :
  queryOf asciiRuntime
    (sortedOf asciiRuntime (baseParamsOf "xxx" 1390000000000 Samples.status2))
  = "apiKey=xxx&count=10000&from=1&handle=tourist&time=1390000000".
Proof. vm_compute. reflexivity. Qed.

(** ** The gateway *)

(** C4 as stated fails: a call whose signing throws, and one whose fetch
    rejects, leave [lastCallTs] as it was (here 0), older than every reading
    of the clock during the call. *)
Lemma failed_call_keeps_lastCallTs :
  lastCallTs' (GET asciiRuntime 0 Samples.userInfo Samples.unsigned) = 0
  ∧ lastCallTs' (GET asciiRuntime 0 Samples.userInfo Samples.offline) = 0
  ∧ 0 < now_entry Samples.unsigned
  ∧ 0 < now_entry Samples.offline.
Proof. by vm_compute. Qed.

(** C4 (amended): for a call with a method, [lastCallTs] becomes the time
    read after the upstream fetch resolved, whatever the HTTP status of the
    answer, which is passed through; when signing throws or the fetch rejects
    the gateway answers 500 with the message and [lastCallTs] is unchanged. In
    both cases the call first waited until 2000 ms had passed since
    [lastCallTs]. A request without method is answered 400 and changes
    nothing. *)
Theorem gateway_lastCallTs (rt : Runtime) (lastCallTs : Z)
    (searchParams : list (string * string)) (w : World) :
  let served := GET rt lastCallTs searchParams w in
  match JS.get "method" searchParams with
  | None | Some "" =>
      response served = {| gw_body := ErrorJson "Missing method"; gw_status := 400 |}
      ∧ lastCallTs' served = lastCallTs
      ∧ slept served = 0
  | Some method =>
      minIntervalMs ≤ now_entry w + slept served - lastCallTs
      ∧ 0 ≤ slept served
      ∧ match signCfRequest rt (env w) (now_sign w) (rand w) method
                (paramsOf searchParams) with
        | Throw message =>
            response served = {| gw_body := ErrorJson message; gw_status := 500 |}
            ∧ lastCallTs' served = lastCallTs
        | Ok url =>
            match fetch w url with
            | Throw message =>
                response served
                = {| gw_body := ErrorJson message; gw_status := 500 |}
                ∧ lastCallTs' served = lastCallTs
            | Ok cfRes =>
                response served
                = {| gw_body := Passthrough (up_body cfRes);
                     gw_status := up_status cfRes |}
                ∧ lastCallTs' served = now_done w
            end
        end
  end.
Proof.
  simpl. unfold GET.
  destruct (JS.get "method" searchParams) as [method|] eqn:Hm; simpl; [|done].
  destruct method as [|ch method]; [done|].
  rewrite bool_decide_eq_false_2 by done. simpl.
  unfold minIntervalMs.
  destruct (signCfRequest rt (env w) (now_sign w) (rand w)
              (String ch method) (paramsOf searchParams)) as [url|message].
  - destruct (fetch w url) as [cfRes|message]; simpl;
      destruct (Z.ltb_spec (now_entry w - lastCallTs) 2000); split_and!;
      done || lia.
  - simpl. destruct (Z.ltb_spec (now_entry w - lastCallTs) 2000); split_and!;
      done || lia.
Qed.

Example gateway_answered :
  GET asciiRuntime 0 Samples.userInfo Samples.answered
  = {| response := {| gw_body := Passthrough "{}"; gw_status := 200 |};
       lastCallTs' := 5300;
       slept := 0 |}.
Proof. by vm_compute. Qed.

(** ** The typed client *)

(** C8 as stated fails: a failure whose comment is the empty text is reported
    with the fixed message, not with the comment, and so is a failure that
    has no comment to carry. *)
Lemma cf_empty_comment_not_carried :
  cf (Ok Samples.envelopeEmptyComment) = Throw "CF API failed"
  ∧ cf (Ok Samples.envelopeEmptyComment) ≠ Throw ""
  ∧ cf (Ok Samples.envelopeNoComment) = Throw "CF API failed".
Proof. by vm_compute. Qed.

(** C8 (amended): on a 2xx answer whose body is JSON the client returns the
    envelope's [result] exactly when [status] is "OK"; for any other status
    it fails with the envelope's comment when that is a non-empty text and
    with "CF API failed" when the comment is absent or empty. A body that is
    not JSON fails with the parser's message. On any other HTTP status it
    fails with "CF error: " and the status, whatever the body. *)
Theorem cf_spec {R : Type} (res : Fetched R) :
  (¬ (200 ≤ res_status res ≤ 299) →
   cf (Ok res) = Throw ("CF error: " +:+ pretty (res_status res)))
  ∧ (200 ≤ res_status res ≤ 299 →
     match res_json res with
     | Throw message => cf (Ok res) = Throw message
     | Ok json =>
         match cf (Ok res) with
         | Ok r => status json = Some "OK" ∧ r = result json
         | Throw message =>
             status json ≠ Some "OK"
             ∧ message = match comment json with
                         | Some "" | None => "CF API failed"
                         | Some c => c
                         end
         end
     end).
Proof.
  unfold cf, ok. split.
  - intros Hs.
    destruct (Z.leb_spec 200 (res_status res));
      destruct (Z.leb_spec (res_status res) 299); simpl; done || lia.
  - intros [H1 H2].
    rewrite (proj2 (Z.leb_le _ _) H1), (proj2 (Z.leb_le _ _) H2). simpl.
    destruct (res_json res) as [json|message]; [|done].
    case_bool_decide as Hst; simpl.
    + split; [done|]. unfold JS.or_str.
      destruct (comment json) as [[|ch c]|]; done.
    + split; [|done]. by destruct (decide (status json = Some "OK")).
Qed.

Lemma cf_spec_witness :
  cf (Ok Samples.envelopeFailed) = Throw "handle: User not found"
  ∧ cf (Ok Samples.envelopeOK) = Ok (Some "[]")
  ∧ cf (Ok Samples.badRequest) = Throw "CF error: 400".
Proof.
  split_and!.
  - pose proof (proj2 (cf_spec Samples.envelopeFailed) ltac:(simpl; lia)) as H.
    remember (cf (Ok Samples.envelopeFailed)) as out eqn:E in H |- *.
    simpl in H. destruct out as [r|message].
    + by destruct H.
    + destruct H as [_ ->]. reflexivity.
  - pose proof (proj2 (cf_spec Samples.envelopeOK) ltac:(simpl; lia)) as H.
    remember (cf (Ok Samples.envelopeOK)) as out eqn:E in H |- *.
    simpl in H. destruct out as [r|message].
    + destruct H as [_ ->]. reflexivity.
    + by destruct H.
  - apply (proj1 (cf_spec Samples.badRequest)). simpl. lia.
Defined.

(** * Further properties of the aggregation engine *)

(** ** Counting with an object: [o[k] = (o[k] || 0) + 1] *)

Section TallyFacts.
Context {A : Type} (f : A → string).
Implicit Types (o : list (string * nat)) (l : list A) (k : string).

Lemma get_set {V : Type} k k' (v : V) (o : list (string * V)) :
  JS.get k' (JS.set k v o) = if decide (k' = k) then Some v else JS.get k' o.
Proof.
  induction o as [|[k0 v0] o IH]; simpl.
  { by destruct (decide (k' = k)). }
  destruct (decide (k = k0)) as [->|Hne]; simpl.
  - by destruct (decide (k' = k0)).
  - rewrite IH. destruct (decide (k' = k0)) as [->|]; [|done].
    by rewrite decide_False by done.
Qed.

Lemma get_None_keys {V : Type} k (o : list (string * V)) :
  JS.get k o = None ↔ k ∉ JS.keys o.
Proof.
  unfold JS.keys. induction o as [|[k0 v0] o IH]; simpl.
  { split; [intros _; apply not_elem_of_nil|done]. }
  rewrite not_elem_of_cons. destruct (decide (k = k0)); [|tauto].
  split; [done|tauto].
Qed.

Lemma count_cons {B : Type} (p : B → bool) (x : B) (bs : list B) :
  count p (x :: bs) = ((if p x then 1 else 0) + count p bs)%nat.
Proof.
  unfold count. rewrite filter_cons.
  destruct (p x); case_decide; simpl; congruence.
Qed.

Lemma count_app {B : Type} (p : B → bool) (bs1 bs2 : list B) :
  count p (bs1 ++ bs2)%list = (count p bs1 + count p bs2)%nat.
Proof. unfold count. by rewrite filter_app, length_app. Qed.

Lemma count_le_length {B : Type} (p : B → bool) (bs : list B) :
  (count p bs ≤ length bs)%nat.
Proof. apply length_filter. Qed.

Lemma count_ext {B : Type} (p q : B → bool) (bs : list B) :
  (∀ x, x ∈ bs → p x = q x) → count p bs = count q bs.
Proof.
  induction bs as [|x bs IH]; intros H; [done|].
  rewrite !count_cons, IH by (intros; apply H; by right).
  by rewrite (H x) by left.
Qed.

Lemma count_perm {B : Type} (p : B → bool) (bs1 bs2 : list B) :
  bs1 ≡ₚ bs2 → count p bs1 = count p bs2.
Proof. intros H. unfold count. by rewrite H. Qed.

Lemma count_zero l k :
  count (λ x, bool_decide (f x = k)) l = 0%nat ↔ k ∉ map f l.
Proof.
  induction l as [|x l IH]; simpl.
  { split; [intros _; apply not_elem_of_nil|done]. }
  rewrite count_cons, not_elem_of_cons. case_bool_decide as Hx.
  - split; [lia|]. intros [? _]. congruence.
  - rewrite <-IH. split; [intros ?; split; [congruence|lia]|intros [_ ?]; lia].
Qed.

Lemma bump_get k k' o :
  JS.get k' (bump k o)
  = if decide (k' = k) then Some (S (JS.nullish (JS.get k o) 0%nat))
    else JS.get k' o.
Proof. unfold bump. rewrite get_set. case_decide; [f_equal; lia|done]. Qed.

(** After the loop a key holds what it held before plus the number of
    elements that were counted under it. *)
Lemma tally_get o l k :
  JS.get k (foldl (λ o x, bump (f x) o) o l)
  = if decide (count (λ x, bool_decide (f x = k)) l = 0%nat) then JS.get k o
    else Some (JS.nullish (JS.get k o) 0 + count (λ x, bool_decide (f x = k)) l)%nat.
Proof.
  revert o. induction l as [|x l IH]; intros o; [done|].
  cbn [foldl]. rewrite IH, count_cons, bump_get.
  destruct (decide (k = f x)) as [->|Hne].
  - rewrite bool_decide_eq_true_2 by done. simpl.
    case_decide as Hz; [rewrite Hz; f_equal; lia|f_equal; lia].
  - by rewrite bool_decide_eq_false_2 by congruence.
Qed.

Lemma tally_keys o l :
  JS.keys (foldl (λ o x, bump (f x) o) o l)
  = (JS.keys o ++ filter (λ k, k ∉ JS.keys o) (firstSeen (map f l)))%list.
Proof.
  revert o. induction l as [|x l IH]; intros o; cbn [foldl map firstSeen].
  { by rewrite app_nil_r. }
  rewrite IH. generalize (firstSeen (map f l)). intros ks.
  assert (JS.keys (bump (f x) o)
          = if decide (f x ∈ JS.keys o) then JS.keys o
            else (JS.keys o ++ [f x])%list) as -> by apply set_keys.
  rewrite (filter_cons (λ k, k ∉ JS.keys o)).
  rewrite (list_filter_filter (λ k, k ∉ JS.keys o) (λ y, y ≠ f x)).
  destruct (decide (f x ∈ JS.keys o)) as [Hin|Hnin].
  - rewrite decide_False by tauto. f_equal.
    apply list_filter_iff. intros k. split; [|tauto].
    intros Hk. split; [done|]. by intros ->.
  - rewrite decide_True by done. rewrite <-app_assoc. simpl. do 2 f_equal.
    apply list_filter_iff. intros k.
    rewrite not_elem_of_app, list_elem_of_singleton. tauto.
Qed.

Lemma tallySum_bump k o : tallySum (bump k o) = S (tallySum o).
Proof.
  unfold bump. induction o as [|[k0 n0] o IH]; simpl; [done|].
  destruct (decide (k = k0)) as [->|Hne]; simpl; [lia|].
  rewrite IH. lia.
Qed.

Lemma tally_sum o l :
  tallySum (foldl (λ o x, bump (f x) o) o l) = (tallySum o + length l)%nat.
Proof.
  revert o. induction l as [|x l IH]; intros o; simpl; [lia|].
  rewrite IH, tallySum_bump. lia.
Qed.
End TallyFacts.

Lemma filter_all {B : Type} (P : B → Prop) `{!∀ x, Decision (P x)} (bs : list B) :
  (∀ x, x ∈ bs → P x) → filter P bs = bs.
Proof.
  induction bs as [|x bs IH]; intros Hall; [done|].
  rewrite filter_cons_True by (apply Hall; by left).
  rewrite IH; [done|]. intros; apply Hall; by right.
Qed.

Lemma tally_keys_empty {A : Type} (f : A → string) (l : list A) :
  JS.keys (foldl (λ o x, bump (f x) o) [] l) = firstSeen (map f l).
Proof.
  rewrite tally_keys. simpl. apply filter_all. intros k _. apply not_elem_of_nil.
Qed.

Lemma firstSeen_elem_of (l : list string) k : k ∈ firstSeen l ↔ k ∈ l.
Proof.
  induction l as [|x l IH]; simpl; [done|].
  rewrite !elem_of_cons, list_elem_of_filter, IH.
  destruct (decide (k = x)); tauto.
Qed.

Lemma firstSeen_NoDup (l : list string) : NoDup (firstSeen l).
Proof.
  induction l as [|x l IH]; simpl; [constructor|].
  apply NoDup_cons. split; [|by apply NoDup_filter].
  rewrite list_elem_of_filter. tauto.
Qed.

(** ** Submission overview *)

Section OverviewFacts.
Implicit Types (subs : list Submission) (a : OverviewAcc).

Lemma verdictOf_OK (s : Submission) :
  bool_decide (verdictOf s = "OK") = isOK s.
Proof.
  unfold verdictOf, isOK, JS.or_str. destruct (verdict s) as [x|]; [|done].
  destruct (decide (x = "")) as [->|Hne]; [done|].
  apply bool_decide_ext. split; congruence.
Qed.

(** The three accumulators of the loop do not depend on each other. *)
Lemma overview_fold a subs :
  foldl overview_step a subs
  = {| acc_verdictCounts :=
         foldl (λ o s, bump (verdictOf s) o) (acc_verdictCounts a) subs;
       acc_languages :=
         foldl (λ o s, bump (languageOf s) o) (acc_languages a) subs;
       acc_accepted := (acc_accepted a + count isOK subs)%nat |}.
Proof.
  revert a. induction subs as [|s subs IH]; intros a; cbn [foldl].
  { destruct a. simpl. f_equal. unfold count. simpl. lia. }
  rewrite IH, count_cons. unfold overview_step at 1 2 3.
  cbn [acc_verdictCounts acc_languages acc_accepted].
  fold (verdictOf s). fold (languageOf s). f_equal.
  rewrite <-verdictOf_OK. case_bool_decide as H.
  - rewrite decide_True by done. lia.
  - rewrite decide_False by done. lia.
Qed.
End OverviewFacts.

(** X1: [verdictCounts] holds, for every verdict, the number of submissions
    with that verdict, a submission without verdict (or with an empty one)
    being counted under "UNKNOWN"; a verdict no submission has is no key of
    the object, and the keys are enumerated in the order in which the verdicts
    first occur. The labels are upstream verdict names; none is the name of a
    member of [Object.prototype], for which [o[k] || 0] would not start from
    0. *)
Theorem verdictCounts_tally (subs : list Submission) :
  (∀ v : string,
     JS.get v (verdictCounts (fetchSubmissionOverview subs))
     = let n := count (λ s, bool_decide (verdictOf s = v)) subs in
       if decide (n = 0%nat) then None else Some n)
  ∧ JS.keys (verdictCounts (fetchSubmissionOverview subs))
    = firstSeen (map verdictOf subs).
Proof.
  unfold fetchSubmissionOverview. rewrite overview_fold. simpl. split.
  - intros v. rewrite tally_get. simpl. by case_decide.
  - apply tally_keys_empty.
Qed.

(** X2: [languages] holds, for every language, the number of submissions
    written in it, a submission without language being counted under
    "Unknown"; the keys are enumerated in the order of first occurrence. *)
Theorem languages_tally (subs : list Submission) :
  (∀ lang : string,
     JS.get lang (languages (fetchSubmissionOverview subs))
     = let n := count (λ s, bool_decide (languageOf s = lang)) subs in
       if decide (n = 0%nat) then None else Some n)
  ∧ JS.keys (languages (fetchSubmissionOverview subs))
    = firstSeen (map languageOf subs).
Proof.
  unfold fetchSubmissionOverview. rewrite overview_fold. simpl. split.
  - intros v. rewrite tally_get. simpl. by case_decide.
  - apply tally_keys_empty.
Qed.

(** X3: [accepted] is the number of submissions with verdict OK; it is the
    counter of the key "OK" in [verdictCounts] (which is absent when nothing
    was accepted), it is at most [total], and it is the number that
    [fetchProblemDifficulty] reports as [totalSolved] for the same
    submissions. *)
Theorem accepted_counts_OK (subs : list Submission) :
  let stats := fetchSubmissionOverview subs in
  accepted stats = count isOK subs
  ∧ JS.get "OK" (verdictCounts stats)
    = (if decide (accepted stats = 0%nat) then None else Some (accepted stats))
  ∧ (accepted stats ≤ st_total stats)%nat
  ∧ accepted stats = totalSolved (fetchProblemDifficulty subs).
Proof.
  cbv zeta. unfold fetchSubmissionOverview. rewrite overview_fold. simpl.
  split; [done|]. split; [|split].
  - rewrite tally_get. simpl.
    rewrite (count_ext _ isOK) by (intros; apply verdictOf_OK).
    by case_decide.
  - apply count_le_length.
  - unfold fetchProblemDifficulty. rewrite totalSolved_fold; [done|].
    intros s Hin Hok. by apply accepted_is_marked.
Qed.

(** X4: every submission is counted once in each histogram: the counters of
    [verdictCounts] add up to [total], and so do those of [languages]. *)
Theorem overview_histograms_add_up (subs : list Submission) :
  let stats := fetchSubmissionOverview subs in
  tallySum (verdictCounts stats) = st_total stats
  ∧ tallySum (languages stats) = st_total stats.
Proof.
  cbv zeta. unfold fetchSubmissionOverview. rewrite overview_fold. simpl.
  by rewrite !tally_sum.
Qed.

(** ** Difficulty histogram: what is counted *)

Section DifficultyFacts.
Implicit Types (subs : list Submission) (solved : gmap string bool)
  (d : ProblemDifficulty) (s : Submission).

(** The submissions of [subs] that are accepted find their key in [solved]. *)
Local Abbreviation marks solved subs :=
  (∀ s, s ∈ subs → isOK s = true → notSolved solved (problemKey s) = false).

Lemma marks_cons solved s subs :
  marks solved (s :: subs) →
  (isOK s = true → notSolved solved (problemKey s) = false)
  ∧ marks solved subs.
Proof. intros H. split; [apply H; by left|intros; apply H; [by right|done]]. Qed.

Lemma marks_all subs : marks (foldl markSolved ∅ subs) subs.
Proof. intros s Hin Hok. by apply accepted_is_marked. Qed.

(** One iteration, by the verdict and the rating of the submission. *)
Lemma difficulty_step_rejected solved d s :
  isOK s = false → difficulty_step solved d s = d.
Proof. intros Hok. unfold difficulty_step. by rewrite Hok, orb_true_r. Qed.

Lemma difficulty_step_accepted solved d s :
  isOK s = true → notSolved solved (problemKey s) = false →
  difficulty_step solved d s
  = match p_rating (problem s) with
    | None =>
        {| totalSolved := totalSolved d + 1;
           highestSolvedRating := highestSolvedRating d;
           buckets := buckets d |}
    | Some r =>
        {| totalSolved := totalSolved d + 1;
           highestSolvedRating :=
             Some (Z.max (JS.nullish (highestSolvedRating d) r) r);
           buckets := bucketOf r (buckets d) |}
    end%nat.
Proof. intros Hok Hm. unfold difficulty_step. by rewrite Hok, Hm. Qed.

Lemma acceptedRating_rejected s : isOK s = false → acceptedRating s = None.
Proof. unfold acceptedRating. by intros ->. Qed.

Lemma acceptedRating_accepted s :
  isOK s = true → acceptedRating s = p_rating (problem s).
Proof. unfold acceptedRating. by intros ->. Qed.

(** The step only depends on the accepted rating, and not on [solved]. *)
Lemma difficulty_step_buckets solved d s :
  (isOK s = true → notSolved solved (problemKey s) = false) →
  buckets (difficulty_step solved d s)
  = match acceptedRating s with
    | Some r => bucketOf r (buckets d)
    | None => buckets d
    end.
Proof.
  intros Hm. destruct (isOK s) eqn:Hok.
  - rewrite difficulty_step_accepted, acceptedRating_accepted by auto.
    by destruct (p_rating (problem s)).
  - by rewrite difficulty_step_rejected, acceptedRating_rejected.
Qed.

Lemma difficulty_step_highest solved d s :
  (isOK s = true → notSolved solved (problemKey s) = false) →
  highestSolvedRating (difficulty_step solved d s)
  = match acceptedRating s with
    | Some r => Some (Z.max (JS.nullish (highestSolvedRating d) r) r)
    | None => highestSolvedRating d
    end.
Proof.
  intros Hm. destruct (isOK s) eqn:Hok.
  - rewrite difficulty_step_accepted, acceptedRating_accepted by auto.
    by destruct (p_rating (problem s)).
  - by rewrite difficulty_step_rejected, acceptedRating_rejected.
Qed.

Lemma ratedWith_cases (p : Z → bool) s :
  ratedWith p s = match acceptedRating s with Some r => p r | None => false end.
Proof. done. Qed.

Lemma buckets_fold solved d subs :
  marks solved subs →
  buckets (foldl (difficulty_step solved) d subs)
  = {| lt1100 :=
         lt1100 (buckets d) + count (ratedWith (λ r, r <? 1100)%Z) subs;
       b1100_1399 :=
         b1100_1399 (buckets d)
         + count (ratedWith (λ r, (1100 <=? r) && (r <? 1400))%Z) subs;
       b1400_1699 :=
         b1400_1699 (buckets d)
         + count (ratedWith (λ r, (1400 <=? r) && (r <? 1700))%Z) subs;
       b1700_1999 :=
         b1700_1999 (buckets d)
         + count (ratedWith (λ r, (1700 <=? r) && (r <? 2000))%Z) subs;
       ge2000 :=
         ge2000 (buckets d) + count (ratedWith (λ r, 2000 <=? r)%Z) subs |}%nat.
Proof.
  revert d. induction subs as [|s subs IH]; intros d Hm; cbn [foldl].
  { destruct d as [? ? []]. unfold count. simpl. f_equal; lia. }
  apply marks_cons in Hm as [Hs Hm]. rewrite IH by done.
  rewrite difficulty_step_buckets by done. rewrite !count_cons, !ratedWith_cases.
  destruct (acceptedRating s) as [r|]; [|f_equal; lia].
  unfold bucketOf.
  repeat match goal with
         | |- context [(?a <? ?b)] => destruct (Z.ltb_spec a b)
         | |- context [(?a <=? ?b)] => destruct (Z.leb_spec a b)
         end; simpl; f_equal; lia.
Qed.
End DifficultyFacts.

Section HighestFacts.
Implicit Types (subs : list Submission) (solved : gmap string bool)
  (d : ProblemDifficulty) (s : Submission).

(** [highestSolvedRating] after the loop: it is absent when it was absent
    before and no accepted submission is rated; otherwise it is the value
    before or an accepted rating, and no smaller than any of them. *)
Lemma highest_fold solved subs d :
  (∀ s, s ∈ subs → isOK s = true → notSolved solved (problemKey s) = false) →
  match highestSolvedRating (foldl (difficulty_step solved) d subs) with
  | None =>
      highestSolvedRating d = None ∧ ∀ s, s ∈ subs → acceptedRating s = None
  | Some m =>
      (highestSolvedRating d = Some m
       ∨ ∃ s, s ∈ subs ∧ acceptedRating s = Some m)
      ∧ (∀ m0, highestSolvedRating d = Some m0 → m0 ≤ m)
      ∧ (∀ s r, s ∈ subs → acceptedRating s = Some r → r ≤ m)
  end.
Proof.
  revert d. induction subs as [|s subs IH]; intros d Hm; cbn [foldl].
  { destruct (highestSolvedRating d) as [m|].
    - split; [by left|]. split; [intros m0 [= ->]; lia|].
      intros s r Hin. by apply elem_of_nil in Hin.
    - split; [done|]. intros s Hin. by apply elem_of_nil in Hin. }
  assert (isOK s = true → notSolved solved (problemKey s) = false) as Hs
    by (apply Hm; by left).
  assert (∀ s', s' ∈ subs → isOK s' = true →
                notSolved solved (problemKey s') = false) as Hm'
    by (intros; apply Hm; [by right|done]).
  specialize (IH (difficulty_step solved d s) Hm').
  rewrite (difficulty_step_highest solved d s Hs) in IH.
  destruct (highestSolvedRating (foldl _ _ subs)) as [m|].
  - destruct IH as (Hfrom & Hge & Hall).
    destruct (acceptedRating s) as [r|] eqn:Hr.
    + specialize (Hge _ eq_refl).
      split; [|split].
      * destruct Hfrom as [[= Hmax]|(s' & Hin & Hs')].
        -- destruct (highestSolvedRating d) as [m0|] eqn:Hd; simpl in Hmax.
           ++ destruct (Z.max_spec m0 r) as [[_ Heq]|[_ Heq]].
              ** right. exists s. split; [by left|]. rewrite Hr. f_equal. lia.
              ** left. f_equal. lia.
           ++ right. exists s. split; [by left|]. rewrite Hr. f_equal. lia.
        -- right. exists s'. split; [by right|done].
      * intros m0 Hd. rewrite Hd in Hge. simpl in Hge. lia.
      * intros s' r' [->|Hin]%elem_of_cons Hr'.
        -- rewrite Hr in Hr'. injection Hr' as <-. lia.
        -- by apply (Hall s').
    + split; [|split].
      * destruct Hfrom as [?|(s' & Hin & Hs')]; [by left|].
        right. exists s'. split; [by right|done].
      * done.
      * intros s' r' [->|Hin]%elem_of_cons Hr'; [congruence|].
        by apply (Hall s').
  - destruct IH as [Hd Hall].
    destruct (acceptedRating s) as [r|] eqn:Hr; [done|].
    split; [done|]. intros s' [->|Hin]%elem_of_cons; [done|by apply Hall].
Qed.

(** When every accepted submission is marked, the marking is not looked
    at. *)
Lemma difficulty_fold_filter solved solved' subs d :
  (∀ s, s ∈ subs → isOK s = true → notSolved solved (problemKey s) = false) →
  (∀ s, s ∈ subs → isOK s = true → notSolved solved' (problemKey s) = false) →
  foldl (difficulty_step solved) d subs
  = foldl (difficulty_step solved') d (filter (λ s, isOK s = true) subs).
Proof.
  revert d. induction subs as [|s subs IH]; intros d Hm Hm'; [done|].
  cbn [foldl]. destruct (isOK s) eqn:Hok.
  - rewrite filter_cons_True by done. cbn [foldl].
    rewrite (difficulty_step_accepted solved), (difficulty_step_accepted solved');
      [|done|apply Hm'; [by left|done]|done|apply Hm; [by left|done]].
    apply IH; intros; [apply Hm|apply Hm']; try done; by right.
  - rewrite filter_cons_False by congruence.
    rewrite difficulty_step_rejected by done.
    apply IH; intros; [apply Hm|apply Hm']; try done; by right.
Qed.

Lemma ProblemDifficulty_eq d d' :
  totalSolved d = totalSolved d' →
  highestSolvedRating d = highestSolvedRating d' →
  buckets d = buckets d' → d = d'.
Proof. destruct d, d'. simpl. by intros -> -> ->. Qed.

Lemma count_length_filter subs :
  length (filter (λ s, isOK s = true) subs) = count isOK subs.
Proof. done. Qed.

(** Every accepted submission is rated in exactly one range or unrated. *)
Lemma accepted_split subs :
  count isOK subs
  = (count (ratedWith (λ r, r <? 1100)%Z) subs
     + count (ratedWith (λ r, (1100 <=? r) && (r <? 1400))%Z) subs
     + count (ratedWith (λ r, (1400 <=? r) && (r <? 1700))%Z) subs
     + count (ratedWith (λ r, (1700 <=? r) && (r <? 2000))%Z) subs
     + count (ratedWith (λ r, 2000 <=? r)%Z) subs
     + count (λ s, isOK s && bool_decide (p_rating (problem s) = None)) subs)%nat.
Proof.
  induction subs as [|s subs IH]; [done|].
  rewrite !count_cons, IH, !ratedWith_cases. unfold acceptedRating.
  destruct (isOK s); [|simpl; lia].
  destruct (p_rating (problem s)) as [r|]; [|simpl; lia].
  rewrite bool_decide_eq_false_2 by done.
  repeat match goal with
         | |- context [(?a <? ?b)] => destruct (Z.ltb_spec a b)
         | |- context [(?a <=? ?b)] => destruct (Z.leb_spec a b)
         end; simpl; lia.
Qed.

(** A list is at least as long as the set of its elements, and as long
    exactly when no element occurs twice. *)
Lemma size_list_to_set_le (l : list string) :
  (size (list_to_set (C := gset string) l) ≤ length l)%nat
  ∧ (size (list_to_set (C := gset string) l) = length l ↔ NoDup l).
Proof.
  induction l as [|x l [IHle IHeq]]; simpl.
  { split; [done|]. split; [constructor|done]. }
  rewrite NoDup_cons, <-IHeq.
  destruct (decide (x ∈ l)) as [Hin|Hnin].
  - assert ({[x]} ∪ list_to_set l = (list_to_set l : gset string)) as ->.
    { apply set_eq. intros y. rewrite elem_of_union, elem_of_singleton,
        elem_of_list_to_set. split; [intros [->|?]; done|tauto]. }
    split; [lia|]. split; [lia|tauto].
  - rewrite size_union
      by (apply disjoint_singleton_l; by rewrite elem_of_list_to_set).
    rewrite size_singleton. split; [lia|]. split; [intros ?; split; [done|lia]|].
    intros [_ ?]. lia.
Qed.
End HighestFacts.

(** X5: every bucket is the number of accepted submissions whose problem is
    rated in its range: below 1100, 1100 to 1399, 1400 to 1699, 1700 to 1999,
    2000 and above. Accepted submissions of unrated problems and rejected
    submissions are in no bucket. *)
Theorem buckets_count_accepted_ratings (subs : list Submission) :
  buckets (fetchProblemDifficulty subs)
  = {| lt1100 := count (ratedWith (λ r, r <? 1100)) subs;
       b1100_1399 := count (ratedWith (λ r, (1100 <=? r) && (r <? 1400))) subs;
       b1400_1699 := count (ratedWith (λ r, (1400 <=? r) && (r <? 1700))) subs;
       b1700_1999 := count (ratedWith (λ r, (1700 <=? r) && (r <? 2000))) subs;
       ge2000 := count (ratedWith (λ r, 2000 <=? r)) subs |}.
Proof.
  unfold fetchProblemDifficulty. rewrite buckets_fold by apply marks_all. done.
Qed.

(** X6: [totalSolved] is the sum of the five buckets plus the number of
    accepted submissions whose problem has no rating. *)
Theorem totalSolved_is_buckets_plus_unrated (subs : list Submission) :
  let d := fetchProblemDifficulty subs in
  totalSolved d
  = (lt1100 (buckets d) + b1100_1399 (buckets d) + b1400_1699 (buckets d)
     + b1700_1999 (buckets d) + ge2000 (buckets d)
     + count (λ s, isOK s && bool_decide (p_rating (problem s) = None)) subs)%nat.
Proof.
  cbv zeta. unfold fetchProblemDifficulty.
  rewrite buckets_fold, totalSolved_fold by apply marks_all.
  rewrite count_length_filter, accepted_split. simpl. lia.
Qed.

(** X7: [highestSolvedRating] is null exactly when no accepted submission has
    a rated problem; otherwise it is the rating of some accepted submission
    and no accepted submission has a higher one. *)
Theorem highestSolvedRating_is_maximum (subs : list Submission) :
  match highestSolvedRating (fetchProblemDifficulty subs) with
  | None => ∀ s, s ∈ subs → acceptedRating s = None
  | Some m =>
      (∃ s, s ∈ subs ∧ acceptedRating s = Some m)
      ∧ ∀ s r, s ∈ subs → acceptedRating s = Some r → r ≤ m
  end.
Proof.
  unfold fetchProblemDifficulty.
  pose proof (highest_fold (foldl markSolved ∅ subs) subs
                {| totalSolved := 0; highestSolvedRating := None;
                   buckets := noBuckets |} (marks_all subs)) as H.
  destruct (highestSolvedRating (foldl _ _ subs)) as [m|]; simpl in H.
  - destruct H as ([?|?] & _ & ?); [done|]. by split.
  - by destruct H.
Qed.

(** X8: submissions that are not accepted never matter: the result is the
    result for the accepted submissions alone. *)
Theorem rejected_submissions_ignored (subs : list Submission) :
  fetchProblemDifficulty subs
  = fetchProblemDifficulty (filter (λ s, isOK s = true) subs).
Proof.
  unfold fetchProblemDifficulty.
  rewrite (difficulty_fold_filter _
             (foldl markSolved ∅ (filter (λ s, isOK s = true) subs)) subs);
    [done|apply marks_all|].
  intros s Hin Hok. apply accepted_is_marked; [|done].
  by apply list_elem_of_filter.
Qed.

(** X9: the result does not depend on the order in which the submissions are
    listed. *)
Theorem difficulty_order_irrelevant (subs subs' : list Submission) :
  subs ≡ₚ subs' → fetchProblemDifficulty subs = fetchProblemDifficulty subs'.
Proof.
  intros Hp. apply ProblemDifficulty_eq.
  - unfold fetchProblemDifficulty.
    rewrite !totalSolved_fold by apply marks_all. by rewrite Hp.
  - unfold fetchProblemDifficulty.
    pose proof (highest_fold (foldl markSolved ∅ subs) subs
                  {| totalSolved := 0; highestSolvedRating := None;
                     buckets := noBuckets |} (marks_all subs)) as H.
    pose proof (highest_fold (foldl markSolved ∅ subs') subs'
                  {| totalSolved := 0; highestSolvedRating := None;
                     buckets := noBuckets |} (marks_all subs')) as H'.
    destruct (highestSolvedRating (foldl _ _ subs)) as [m|],
      (highestSolvedRating (foldl _ _ subs')) as [m'|]; simpl in H, H'.
    + destruct H as ([?|(s & Hs & Hr)] & _ & Hall); [done|].
      destruct H' as ([?|(s' & Hs' & Hr')] & _ & Hall'); [done|].
      f_equal. apply Z.le_antisymm.
      * apply (Hall' s); [by rewrite <-Hp|done].
      * apply (Hall s'); [by rewrite Hp|done].
    + destruct H as ([?|(s & Hs & Hr)] & _); [done|]. destruct H' as [_ H'].
      rewrite H' in Hr; [done|]. by rewrite <-Hp.
    + destruct H' as ([?|(s & Hs & Hr)] & _); [done|]. destruct H as [_ H].
      rewrite H in Hr; [done|]. by rewrite Hp.
    + done.
  - unfold fetchProblemDifficulty. rewrite !buckets_fold by apply marks_all.
    by rewrite !(count_perm _ subs subs') by done.
Qed.

Lemma difficulty_order_irrelevant_witness :
  Samples.oneOfFive ≡ₚ reverse Samples.oneOfFive
  ∧ fetchProblemDifficulty Samples.oneOfFive
    = fetchProblemDifficulty (reverse Samples.oneOfFive).
Proof.
  split; [symmetry; apply reverse_Permutation|].
  apply difficulty_order_irrelevant. symmetry. apply reverse_Permutation.
Defined.

(** X10: [totalSolved] is at least the number of distinct problems with an
    accepted submission, and it is that number exactly when no problem was
    accepted more than once. *)
Theorem totalSolved_vs_distinct_problems (subs : list Submission) :
  let keys := map problemKey (filter (λ s, isOK s = true) subs) in
  (size (list_to_set (C := gset string) keys)
   ≤ totalSolved (fetchProblemDifficulty subs))%nat
  ∧ (totalSolved (fetchProblemDifficulty subs)
     = size (list_to_set (C := gset string) keys) ↔ NoDup keys).
Proof.
  cbv zeta. unfold fetchProblemDifficulty.
  rewrite totalSolved_fold by apply marks_all. simpl.
  destruct (size_list_to_set_le
              (map problemKey (filter (λ s, isOK s = true) subs))) as [Hle Heq].
  rewrite length_map in Hle, Heq. split; [done|].
  rewrite <-Heq. split; congruence.
Qed.

(** ** Weekly activity: what the tables hold *)

Section WeeklyFacts.
Context (dj : Dayjs.Api).
Implicit Types (subs : list Submission) (weekly : list (string * WeekStat))
  (hm : list (string * nat)) (k : string).

Local Abbreviation weekOf := (λ s : Submission, weekIdOf dj (creationTimeSeconds s)).
Local Abbreviation dayOf :=
  (λ s : Submission, Dayjs.format_YYYY_MM_DD dj (creationTimeSeconds s)).
Local Abbreviation inWeek k := (λ s : Submission, bool_decide (weekOf s = k)).
Local Abbreviation noWeek := {| submissions := 0; wk_accepted := 0 |}.

(** The heat map is a tally of its own. *)
Lemma activity_fold_heatmap subs weekly hm :
  (foldl (activity_step dj) (weekly, hm) subs).2
  = foldl (λ o s, bump (dayOf s) o) hm subs.
Proof.
  revert weekly hm. induction subs as [|s subs IH]; intros weekly hm; [done|].
  cbn [foldl]. unfold activity_step at 2. by rewrite IH.
Qed.

Lemma fetchActivity_heatmap now subs :
  heatmap (fetchActivity dj now subs)
  = foldl (λ o s, bump (dayOf s) o) [] subs.
Proof.
  pose proof (activity_fold_heatmap subs [] []) as H. unfold fetchActivity.
  by destruct (foldl (activity_step dj) _ _).
Qed.

Lemma fetchActivity_mostProductive now subs :
  mostProductiveWeek (fetchActivity dj now subs)
  = foldl productive_step None (weeks (fetchActivity dj now subs)).
Proof. unfold fetchActivity. by destruct (foldl _ _ _). Qed.

(** A week without submission keeps its entry. *)
Lemma weekly_get_other subs weekly hm k :
  count (inWeek k) subs = 0%nat →
  JS.get k (foldl (activity_step dj) (weekly, hm) subs).1 = JS.get k weekly.
Proof.
  revert weekly hm. induction subs as [|s subs IH]; intros weekly hm Hz; [done|].
  rewrite count_cons in Hz. cbn [foldl]. unfold activity_step at 2.
  case_bool_decide as Hk; [simpl in Hz; lia|].
  rewrite IH by (simpl in Hz; lia). rewrite get_set.
  by rewrite decide_False by congruence.
Qed.

(** The entry of a week after the loop: what it held before plus the
    submissions, and the accepted submissions, of that week. *)
Lemma weekly_get subs weekly hm k :
  JS.nullish (JS.get k (foldl (activity_step dj) (weekly, hm) subs).1) noWeek
  = let w := JS.nullish (JS.get k weekly) noWeek in
    {| submissions := submissions w + count (inWeek k) subs;
       wk_accepted :=
         wk_accepted w + count (λ s, inWeek k s && isOK s) subs |}%nat.
Proof.
  revert weekly hm. induction subs as [|s subs IH]; intros weekly hm.
  { cbv zeta. unfold count. simpl. destruct (JS.nullish _ _). simpl.
    f_equal; lia. }
  cbn [foldl]. unfold activity_step at 2. rewrite IH, !count_cons, get_set.
  cbv zeta. destruct (decide (k = weekOf s)) as [->|Hne].
  - rewrite bool_decide_eq_true_2 by done.
    cbn [andb JS.nullish submissions wk_accepted].
    destruct (isOK s); f_equal; lia.
  - rewrite bool_decide_eq_false_2 by congruence. done.
Qed.

(** The sums over the weeks, as [reduce] computes them. *)
Lemma sum_foldl {B : Type} (g : B → nat) (n : nat) (bs : list B) :
  foldl (λ sum x, sum + g x)%nat n bs = (n + foldr (λ x sum, g x + sum) 0 bs)%nat.
Proof.
  revert n. induction bs as [|x bs IH]; intros n; simpl; [lia|].
  rewrite IH. lia.
Qed.

Lemma sum_set (g : WeekStat → nat) k (v : WeekStat) weekly :
  g noWeek = 0%nat →
  (foldr (λ kv sum, g kv.2 + sum) 0 (JS.set k v weekly)
   + g (JS.nullish (JS.get k weekly) noWeek)
   = foldr (λ kv sum, g kv.2 + sum) 0 weekly + g v)%nat.
Proof.
  intros Hg. induction weekly as [|[k0 v0] weekly IH]; simpl.
  { rewrite Hg. lia. }
  destruct (decide (k = k0)) as [->|Hne]; simpl; lia.
Qed.

Lemma weekly_sums subs weekly hm :
  let weekly' := (foldl (activity_step dj) (weekly, hm) subs).1 in
  foldr (λ kv sum, submissions kv.2 + sum)%nat 0%nat weekly'
  = (foldr (λ kv sum, submissions kv.2 + sum) 0 weekly + length subs)%nat
  ∧ foldr (λ kv sum, wk_accepted kv.2 + sum)%nat 0%nat weekly'
    = (foldr (λ kv sum, wk_accepted kv.2 + sum) 0 weekly + count isOK subs)%nat.
Proof.
  revert weekly hm. induction subs as [|s subs IH]; intros weekly hm.
  { cbv zeta. unfold count. simpl. lia. }
  cbv zeta. cbn [foldl length]. unfold activity_step at 2 4.
  destruct (IH (JS.set (weekOf s)
                  {| submissions :=
                       submissions (JS.nullish (JS.get (weekOf s) weekly) noWeek) + 1;
                     wk_accepted :=
                       if isOK s
                       then wk_accepted (JS.nullish (JS.get (weekOf s) weekly) noWeek) + 1
                       else wk_accepted (JS.nullish (JS.get (weekOf s) weekly) noWeek) |}%nat
                  weekly)
              (bump (dayOf s) hm)) as [IH1 IH2].
  rewrite IH1, IH2, count_cons. clear IH IH1 IH2.
  pose proof (sum_set submissions (weekOf s)
                {| submissions :=
                     submissions (JS.nullish (JS.get (weekOf s) weekly) noWeek) + 1;
                   wk_accepted :=
                     if isOK s
                     then wk_accepted (JS.nullish (JS.get (weekOf s) weekly) noWeek) + 1
                     else wk_accepted (JS.nullish (JS.get (weekOf s) weekly) noWeek) |}%nat
                weekly eq_refl) as H1.
  pose proof (sum_set wk_accepted (weekOf s)
                {| submissions :=
                     submissions (JS.nullish (JS.get (weekOf s) weekly) noWeek) + 1;
                   wk_accepted :=
                     if isOK s
                     then wk_accepted (JS.nullish (JS.get (weekOf s) weekly) noWeek) + 1
                     else wk_accepted (JS.nullish (JS.get (weekOf s) weekly) noWeek) |}%nat
                weekly eq_refl) as H2.
  cbn [submissions wk_accepted] in H1, H2. destruct (isOK s); lia.
Qed.
End WeeklyFacts.

Section StreakFacts.
Context (dj : Dayjs.Api).
Implicit Types (subs : list Submission) (weekly : list (string * WeekStat))
  (v : StreakVars) (k : string).

Lemma get_Some_elem_of {V : Type} k (x : V) (o : list (string * V)) :
  JS.get k o = Some x → (k, x) ∈ o.
Proof.
  induction o as [|[k0 v0] o IH]; simpl; [done|].
  destruct (decide (k = k0)) as [->|Hne].
  - intros [= ->]. by left.
  - intros H. right. by apply IH.
Qed.

Lemma elem_of_get {V : Type} k (x : V) (o : list (string * V)) :
  NoDup (JS.keys o) → (k, x) ∈ o → JS.get k o = Some x.
Proof.
  unfold JS.keys. induction o as [|[k0 v0] o IH]; simpl; intros Hnd Hin.
  { by apply elem_of_nil in Hin. }
  apply NoDup_cons in Hnd as [Hk0 Hnd].
  apply elem_of_cons in Hin as [[= -> ->]|Hin].
  - by rewrite decide_True.
  - rewrite decide_False; [by apply IH|].
    intros ->. apply Hk0. by apply (list_elem_of_fmap_2 fst) in Hin.
Qed.

(** One step of the streak loop: the current streak is at least 1 and at
    most the longest, which grows by at most 1. *)
Lemma streak_step_bounds i v weekId :
  let v' := streak_step dj i v weekId in
  (1 ≤ currentStreak v' ≤ longestStreak v')%nat
  ∧ (longestStreak v ≤ longestStreak v')%nat
  ∧ (longestStreak v' ≤ Nat.max (longestStreak v) (S (currentStreak v)))%nat.
Proof.
  unfold streak_step. cbn [currentStreak longestStreak].
  generalize (bool_decide (0 < i)%nat && follows (weekNumber dj weekId) (lastWeek v)).
  intros b. destruct b; case_bool_decide; lia.
Qed.

Lemma streak_loop_bounds sortedWeeks i v :
  (currentStreak v ≤ longestStreak v)%nat → (longestStreak v ≤ i)%nat →
  let v' := streak_loop dj i v sortedWeeks in
  (currentStreak v' ≤ longestStreak v')%nat
  ∧ (longestStreak v ≤ longestStreak v')%nat
  ∧ (longestStreak v' ≤ i + length sortedWeeks)%nat.
Proof.
  revert i v. induction sortedWeeks as [|weekId rest IH]; intros i v Hc Hl.
  { simpl. lia. }
  cbv zeta. cbn [streak_loop length].
  pose proof (streak_step_bounds i v weekId) as (Hs1 & Hs2 & Hs3).
  cbv zeta in Hs1, Hs2, Hs3.
  destruct (IH (S i) (streak_step dj i v weekId)) as (IH1 & IH2 & IH3); [lia..|].
  cbv zeta in IH1, IH2, IH3. lia.
Qed.

Lemma streak_loop_started weekId rest v :
  (1 ≤ longestStreak (streak_loop dj 0 v (weekId :: rest)))%nat.
Proof.
  cbn [streak_loop].
  pose proof (streak_step_bounds 0 v weekId) as (Hs1 & _). cbv zeta in Hs1.
  pose proof (streak_loop_bounds rest 1 (streak_step dj 0 v weekId)) as H.
  cbv zeta in H.
  destruct (decide (longestStreak (streak_step dj 0 v weekId) ≤ 1)%nat).
  - destruct H as (_ & ? & _); lia.
  - clear H. revert Hs1 n.
    generalize (streak_step dj 0 v weekId). intros v1 Hs1 Hn.
    assert (∀ ws i v2, (1 ≤ longestStreak v2)%nat →
                       (1 ≤ longestStreak (streak_loop dj i v2 ws))%nat) as Hmono.
    { induction ws as [|w ws IHws]; intros i v2 H2; [done|].
      cbn [streak_loop]. apply IHws.
      pose proof (streak_step_bounds i v2 w) as (? & _). cbv zeta in *. lia. }
    apply Hmono. lia.
Qed.

Lemma streakOf_bounds now sortedWeeks :
  let v := streakOf dj now sortedWeeks in
  (currentStreak v ≤ longestStreak v)%nat
  ∧ (longestStreak v ≤ length sortedWeeks)%nat
  ∧ (sortedWeeks ≠ [] → 1 ≤ longestStreak v)%nat.
Proof.
  unfold streakOf. destruct (last sortedWeeks) as [lastId|] eqn:Hlast.
  - pose proof (streak_loop_bounds sortedWeeks 0
                  {| currentStreak := 0; longestStreak := 0; lastWeek := Some 0 |})
      as H.
    cbv zeta in H. cbn [currentStreak longestStreak] in H.
    destruct H as (H1 & _ & H3); [lia..|].
    assert (1 ≤ longestStreak
                  (streak_loop dj 0
                     {| currentStreak := 0; longestStreak := 0;
                        lastWeek := Some 0%Z |} sortedWeeks))%nat as H4.
    { destruct sortedWeeks as [|w ws]; [done|]. apply streak_loop_started. }
    revert H1 H3 H4. generalize (streak_loop dj 0
      {| currentStreak := 0; longestStreak := 0; lastWeek := Some 0 |} sortedWeeks).
    intros v H1 H3 H4. cbv zeta.
    destruct (habitBroken dj now lastId); cbn [currentStreak longestStreak]; lia.
  - cbv zeta. simpl. split; [lia|]. split; [lia|].
    intros Hne. apply last_None in Hlast. done.
Qed.

(** The most productive week so far and the weeks still to be read. *)
Lemma productive_fold weekly w n :
  ∃ w' n',
    foldl productive_step (Some (w, n)) weekly = Some (w', n')
    ∧ (n ≤ n')%nat
    ∧ (∀ kv, kv ∈ weekly → submissions kv.2 ≤ n')%nat
    ∧ ((w', n') = (w, n)
       ∨ ∃ i st, weekly !! i = Some (w', st) ∧ submissions st = n' ∧ (n < n')%nat
                 ∧ ∀ j kv, (j < i)%nat → weekly !! j = Some kv →
                           (submissions kv.2 < n')%nat).
Proof.
  revert w n. induction weekly as [|[k st] weekly IH]; intros w n.
  { exists w, n. split; [done|]. split; [lia|]. split; [|by left].
    intros kv Hin. by apply elem_of_nil in Hin. }
  cbn [foldl]. unfold productive_step at 2. cbn [fst snd].
  case_bool_decide as Hlt.
  - destruct (IH k (submissions st)) as (w' & n' & Hf & Hle & Hall & Hwhich).
    exists w', n'. split; [done|]. split; [lia|]. split.
    { intros kv [->|Hin]%elem_of_cons; [simpl; lia|by apply Hall]. }
    right. destruct Hwhich as [[= -> ->]|(i & st' & Hi & Hst & Hlt' & Hbefore)].
    + exists 0%nat, st. split; [done|]. split; [done|]. split; [lia|].
      intros j kv Hj. lia.
    + exists (S i), st'. split; [done|]. split; [done|]. split; [lia|].
      intros [|j] kv Hj Hkv.
      * injection Hkv as <-. simpl. lia.
      * apply (Hbefore j); [lia|done].
  - destruct (IH w n) as (w' & n' & Hf & Hle & Hall & Hwhich).
    exists w', n'. split; [done|]. split; [lia|]. split.
    { intros kv [->|Hin]%elem_of_cons; [simpl; lia|by apply Hall]. }
    destruct Hwhich as [?|(i & st' & Hi & Hst & Hlt' & Hbefore)]; [by left|].
    right. exists (S i), st'. split; [done|]. split; [done|]. split; [lia|].
    intros [|j] kv Hj Hkv.
    * injection Hkv as <-. simpl. lia.
    * apply (Hbefore j); [lia|done].
Qed.
End StreakFacts.

(** The entry of a week in the result. *)
Lemma fetchActivity_weeks_get (dj : Dayjs.Api) (now : Z) (subs : list Submission)
    (weekId : string) :
  JS.get weekId (weeks (fetchActivity dj now subs))
  = if decide (count (λ s, bool_decide (weekIdOf dj (creationTimeSeconds s) = weekId))
                 subs = 0%nat)
    then None
    else Some {| submissions :=
                   count (λ s, bool_decide
                                 (weekIdOf dj (creationTimeSeconds s) = weekId)) subs;
                 wk_accepted :=
                   count (λ s, bool_decide
                                 (weekIdOf dj (creationTimeSeconds s) = weekId)
                               && isOK s) subs |}.
Proof.
  rewrite fetchActivity_weeks. case_decide as Hz.
  { by rewrite weekly_get_other. }
  pose proof (weekly_get dj subs [] [] weekId) as Hget. cbv zeta in Hget.
  simpl in Hget.
  destruct (JS.get weekId (foldl (activity_step dj) ([], []) subs).1)
    as [st|] eqn:Hst; [by rewrite <-Hget|].
  exfalso. apply get_None_keys in Hst. apply Hst.
  apply (weekly_keys dj subs [] []); [constructor|]. right.
  apply dec_stable. intros Hnot. apply Hz.
  by apply (count_zero (λ s, weekIdOf dj (creationTimeSeconds s))).
Qed.

(** X11: for every week identifier, [weeks] holds the number of submissions
    made in that week and the number of them that were accepted; a week
    without submission is no key of [weeks]; and the [submissions] of all
    weeks add up to the number of submissions. This holds for every
    implementation of the dayjs calls. *)
Theorem weeks_tally (dj : Dayjs.Api) (now : Z) (subs : list Submission) :
  let a := fetchActivity dj now subs in
  (∀ weekId : string,
     let inWeek s := bool_decide (weekIdOf dj (creationTimeSeconds s) = weekId) in
     JS.get weekId (weeks a)
     = if decide (count inWeek subs = 0%nat) then None
       else Some {| submissions := count inWeek subs;
                    wk_accepted := count (λ s, inWeek s && isOK s) subs |})
  ∧ foldr (λ kv sum, submissions kv.2 + sum)%nat 0%nat (weeks a) = length subs.
Proof.
  cbv zeta. split; [intros weekId; apply fetchActivity_weeks_get|].
  rewrite fetchActivity_weeks.
  by destruct (weekly_sums dj subs [] []) as [-> _].
Qed.

(** X12: the heat map holds, for every day, the number of submissions made on
    that day; a day without submission is no key, the days are enumerated in
    the order of their first submission, and the counters add up to the
    number of submissions. *)
Theorem heatmap_tally (dj : Dayjs.Api) (now : Z) (subs : list Submission) :
  let dayOf s := Dayjs.format_YYYY_MM_DD dj (creationTimeSeconds s) in
  let hm := heatmap (fetchActivity dj now subs) in
  (∀ dayId : string,
     JS.get dayId hm
     = let n := count (λ s, bool_decide (dayOf s = dayId)) subs in
       if decide (n = 0%nat) then None else Some n)
  ∧ JS.keys hm = firstSeen (map dayOf subs)
  ∧ tallySum hm = length subs.
Proof.
  cbv zeta. rewrite fetchActivity_heatmap. split; [|split].
  - intros dayId. rewrite tally_get. simpl. by case_decide.
  - apply tally_keys_empty.
  - by rewrite tally_sum.
Qed.

(** X13: the streak numbers are ordered: the current streak is at most the
    longest, the longest at most the number of active weeks, which is the
    number of keys of [weeks] and at most the number of submissions; and the
    longest streak is at least 1 as soon as there is a submission. This holds
    for every implementation of the dayjs calls. *)
Theorem streak_bounds (dj : Dayjs.Api) (now : Z) (subs : list Submission) :
  let a := fetchActivity dj now subs in
  (current (streak a) ≤ longest (streak a))%nat
  ∧ (longest (streak a) ≤ activeWeeks (streak a))%nat
  ∧ activeWeeks (streak a) = length (weeks a)
  ∧ (activeWeeks (streak a) ≤ length subs)%nat
  ∧ (subs ≠ [] → 1 ≤ longest (streak a))%nat.
Proof.
  cbv zeta. rewrite fetchActivity_streak, fetchActivity_weeks. cbv zeta.
  cbn [current longest activeWeeks].
  pose proof (weekly_keys dj subs [] [] (NoDup_nil_2 : NoDup (JS.keys [])))
    as [Hnd Hk].
  cbv zeta in Hnd, Hk.
  set (weekly := (foldl (activity_step dj) ([], []) subs).1) in *.
  assert (length (sortedWeeksOf weekly) = length weekly) as Hlen.
  { unfold sortedWeeksOf, JS.sort_default. rewrite sort_perm.
    unfold JS.keys. by rewrite length_map. }
  pose proof (streakOf_bounds dj now (sortedWeeksOf weekly)) as (H1 & H2 & H3).
  cbv zeta in H1, H2, H3.
  split; [done|]. split; [done|]. split; [done|]. split.
  - rewrite Hlen.
    replace (length weekly) with (length (JS.keys weekly))
      by (unfold JS.keys; by rewrite length_map).
    rewrite <-(length_map (λ s, weekIdOf dj (creationTimeSeconds s)) subs).
    apply submseteq_length, NoDup_submseteq; [done|].
    intros k Hin. apply Hk in Hin as [Hin|Hin]; [|done].
    by apply elem_of_nil in Hin.
  - intros Hne. apply H3. intros Hnil.
    rewrite Hnil in Hlen. destruct subs as [|s subs]; [done|].
    assert (weekIdOf dj (creationTimeSeconds s) ∈ JS.keys weekly) as Hin
      by (apply Hk; right; by left).
    destruct weekly; [by apply elem_of_nil in Hin|done].
Qed.

(** X14: [mostProductiveWeek] is null exactly for an empty history.
    Otherwise it names a week and the number of submissions of that week, no
    week has more, and every week enumerated before it in [weeks] has
    fewer. *)
Theorem mostProductiveWeek_is_first_maximum
    (dj : Dayjs.Api) (now : Z) (subs : list Submission) :
  let a := fetchActivity dj now subs in
  let perWeek k :=
    count (λ s, bool_decide (weekIdOf dj (creationTimeSeconds s) = k)) subs in
  match mostProductiveWeek a with
  | None => subs = []
  | Some (week, n) =>
      n = perWeek week
      ∧ (0 < n)%nat
      ∧ (∀ k, perWeek k ≤ n)%nat
      ∧ ∃ i st, weeks a !! i = Some (week, st)
                ∧ ∀ j kv, (j < i)%nat → weeks a !! j = Some kv →
                          (submissions kv.2 < n)%nat
  end.
Proof.
  cbv zeta. rewrite fetchActivity_mostProductive.
  pose proof (fetchActivity_weeks_get dj now subs) as Htally.
  assert (NoDup (JS.keys (weeks (fetchActivity dj now subs)))) as Hnd.
  { rewrite fetchActivity_weeks.
    apply (weekly_keys dj subs [] []). constructor. }
  destruct (weeks (fetchActivity dj now subs)) as [|[k0 st0] weekly] eqn:Hw.
  { simpl. destruct subs as [|s subs]; [done|]. exfalso.
    specialize (Htally (weekIdOf dj (creationTimeSeconds s))).
    rewrite count_cons, bool_decide_eq_true_2 in Htally by done.
    simpl in Htally. done. }
  cbn [foldl]. unfold productive_step at 2. cbn [fst snd].
  destruct (productive_fold weekly k0 (submissions st0))
    as (w' & n' & -> & Hle & Hall & Hwhich).
  assert (∀ k st, (k, st) ∈ (k0, st0) :: weekly →
            submissions st
            = count (λ s, bool_decide (weekIdOf dj (creationTimeSeconds s) = k))
                subs
            ∧ (0 < submissions st)%nat) as Hin.
  { intros k st Hkst. apply (elem_of_get k st) in Hkst; [|done].
    rewrite Htally in Hkst. case_decide as Hz; [done|].
    injection Hkst as <-. simpl. split; [done|lia]. }
  assert (∃ i st, ((k0, st0) :: weekly) !! i = Some (w', st)
                  ∧ submissions st = n'
                  ∧ ∀ j kv, (j < i)%nat → ((k0, st0) :: weekly) !! j = Some kv →
                            (submissions kv.2 < n')%nat) as (i & st & Hi & Hn & Hbefore).
  { destruct Hwhich as [[= -> ->]|(i & st & Hi & Hst & Hlt & Hbefore)].
    - exists 0%nat, st0. split; [done|]. split; [done|]. intros j kv Hj. lia.
    - exists (S i), st. split; [done|]. split; [done|].
      intros [|j] kv Hj Hkv.
      + injection Hkv as <-. simpl. lia.
      + apply (Hbefore j); [lia|done]. }
  destruct (Hin w' st) as [Hcount Hpos]; [by eapply list_elem_of_lookup_2|].
  split; [congruence|]. split; [lia|]. split; [|by exists i, st].
  intros k.
  destruct (decide (count (λ s, bool_decide (weekIdOf dj (creationTimeSeconds s) = k))
                      subs = 0%nat)) as [->|Hnz]; [lia|].
  specialize (Htally k). rewrite decide_False in Htally by done.
  apply get_Some_elem_of in Htally.
  apply elem_of_cons in Htally as [[= <- <-]|Hk].
  - simpl in Hle. lia.
  - apply Hall in Hk. simpl in Hk. lia.
Qed.

(** X15: [avgAcceptedPerWeek] is 0 for an empty history and otherwise the
    quotient, in binary64, of the number of accepted submissions by the
    number of active weeks. *)
Theorem avgAcceptedPerWeek_is_accepted_per_active_week
    (dj : Dayjs.Api) (now : Z) (subs : list Submission) :
  let a := fetchActivity dj now subs in
  avgAcceptedPerWeek a
  = match subs with
    | [] => 0%float
    | _ =>
        (JS.Number (Z.of_nat (count isOK subs))
         / JS.Number (Z.of_nat (activeWeeks (streak a))))%float
    end.
Proof.
  cbv zeta. destruct subs as [|s subs]; [done|].
  pose proof (weekly_sums dj (s :: subs) [] []) as [_ Hsum].
  cbv zeta in Hsum.
  rewrite fetchActivity_streak. cbv zeta. cbn [activeWeeks].
  unfold fetchActivity.
  destruct (foldl (activity_step dj) ([], []) (s :: subs)) as [weekly hm] eqn:Hf.
  cbn [avgAcceptedPerWeek fst] in *.
  rewrite sum_foldl, Hsum. simpl foldr. rewrite !Nat.add_0_l.
  rewrite bool_decide_eq_true_2; [done|].
  unfold sortedWeeksOf, JS.sort_default. rewrite sort_perm.
  unfold JS.keys. rewrite length_map.
  assert (weekIdOf dj (creationTimeSeconds s) ∈ JS.keys weekly) as Hin.
  { pose proof (weekly_keys dj (s :: subs) [] [] (NoDup_nil_2 : NoDup (JS.keys [])))
      as [_ Hk]. cbv zeta in Hk. rewrite Hf in Hk. apply Hk. right. by left. }
  destruct weekly; [by apply elem_of_nil in Hin|simpl; lia].
Qed.

(** ** The division of a contest *)

Section DivisionFacts.
Implicit Types (s pre post sp t : string) (a b c : ascii).

Lemma append_nil_l post : "" +:+ post = post.
Proof. reflexivity. Qed.

Lemma append_cons c pre post : String c pre +:+ post = String c (pre +:+ post).
Proof. reflexivity. Qed.

Lemma append_nil_inv pre post : "" = pre +:+ post → pre = "" ∧ post = "".
Proof.
  destruct pre; [rewrite append_nil_l; by intros <-|by rewrite append_cons].
Qed.

Lemma append_assoc pre s post : (pre +:+ s) +:+ post = pre +:+ (s +:+ post).
Proof.
  induction pre as [|a pre IH]; [done|]. by rewrite !append_cons, IH.
Qed.

Lemma ascii_of_code a (n : nat) : nat_of_ascii a = n → a = ascii_of_nat n.
Proof. intros <-. by rewrite ascii_nat_embedding. Qed.

(** The letters and the digits of the matcher are those of the pattern. *)
Lemma lower_letter a (l : ascii) :
  l ∈ ["d"; "i"; "v"]%char →
  Division.lower a = l ↔ a = l ∨ a = ascii_of_nat (nat_of_ascii l - 32).
Proof.
  intros Hl.
  assert (l = "d" ∨ l = "i" ∨ l = "v")%char as [-> | [-> | ->]]
    by (repeat (apply elem_of_cons in Hl as [->|Hl]; [tauto|]);
        by apply elem_of_nil in Hl);
    destruct a as [[] [] [] [] [] [] [] []]; vm_compute;
    (split; [intros [=]; auto|intros [[=]|[=]]; done]).
Qed.

Lemma is_digit_decimal c :
  Division.is_digit c = true
  ↔ c ∈ ["0"; "1"; "2"; "3"; "4"; "5"; "6"; "7"; "8"; "9"]%char.
Proof.
  split.
  - intros Hd. apply (bool_decide_unpack _).
    destruct c as [[] [] [] [] [] [] [] []];
      vm_compute in Hd; try discriminate Hd; vm_compute; exact I.
  - intros Hc. repeat (apply elem_of_cons in Hc as [->|Hc]; [reflexivity|]).
    by apply elem_of_nil in Hc.
Qed.

(** The bytes the matcher skips are the UTF-8 forms of the white space. *)
Lemma is_space1_whiteSpace a :
  Division.is_space1 a = true → String a "" ∈ whiteSpace.
Proof.
  intros Hs. apply (bool_decide_unpack _).
  destruct a as [[] [] [] [] [] [] [] []];
    vm_compute in Hs; try discriminate Hs; vm_compute; exact I.
Qed.

Lemma is_space2_whiteSpace a b :
  Division.is_space2 a b = true → String a (String b "") ∈ whiteSpace.
Proof.
  unfold Division.is_space2. intros Hs.
  apply andb_prop in Hs as [Ha%Nat.eqb_eq%ascii_of_code Hb%Nat.eqb_eq%ascii_of_code].
  subst a b. apply (bool_decide_unpack _). vm_compute. exact I.
Qed.

Lemma is_space3_whiteSpace a b c :
  Division.is_space3 a b c = true →
  String a (String b (String c "")) ∈ whiteSpace.
Proof.
  unfold Division.is_space3. cbv zeta. intros Hs.
  rewrite <-(ascii_nat_embedding a), <-(ascii_nat_embedding b),
    <-(ascii_nat_embedding c).
  revert Hs.
  generalize (nat_of_ascii a) (nat_of_ascii b) (nat_of_ascii c). intros x y z Hs.
  repeat (apply orb_prop in Hs as [Hs|Hs]);
    repeat (apply andb_prop in Hs as [Hs ?]);
    repeat match goal with
           | H : (_ =? _)%nat = true |- _ => apply Nat.eqb_eq in H; subst
           | H : (_ || _) = true |- _ => apply orb_prop in H as [H|H]
           | H : (_ && _) = true |- _ => apply andb_prop in H as [H ?]
           | H : (_ <=? _)%nat = true |- _ => apply Nat.leb_le in H
           end;
    try (apply (bool_decide_unpack _); vm_compute; exact I).
  assert (z = 128 ∨ z = 129 ∨ z = 130 ∨ z = 131 ∨ z = 132 ∨ z = 133 ∨ z = 134
          ∨ z = 135 ∨ z = 136 ∨ z = 137 ∨ z = 138)%nat as Hz by lia.
  repeat (destruct Hz as [->|Hz];
          [apply (bool_decide_unpack _); vm_compute; exact I|]).
  subst z. apply (bool_decide_unpack _). vm_compute. exact I.
Qed.
End DivisionFacts.

Section PatternFacts.
Implicit Types (s pre post sp t : string) (a b c : ascii).

(** What [skip_spaces] skips is white space. *)
Lemma skip_spaces_blank_prefix (n : nat) s :
  (String.length s ≤ n)%nat → ∃ sp, blank sp ∧ s = sp +:+ Division.skip_spaces s.
Proof.
  revert s. induction n as [|n IH]; intros s Hn.
  { destruct s; [|simpl in Hn; lia]. exists "". split; [constructor|done]. }
  destruct s as [|a r1]; [exists ""; split; [constructor|done]|].
  cbn [Division.skip_spaces]. simpl in Hn.
  destruct (Division.is_space1 a) eqn:H1.
  { destruct (IH r1) as (sp & Hsp & Heq); [lia|].
    exists (String a "" +:+ sp). split.
    - constructor; [by apply is_space1_whiteSpace|done].
    - rewrite append_assoc, append_cons, append_nil_l. by rewrite <-Heq. }
  destruct r1 as [|b r2]; [exists ""; split; [constructor|done]|].
  simpl in Hn. destruct (Division.is_space2 a b) eqn:H2.
  { destruct (IH r2) as (sp & Hsp & Heq); [lia|].
    exists (String a (String b "") +:+ sp). split.
    - constructor; [by apply is_space2_whiteSpace|done].
    - rewrite append_assoc, !append_cons, append_nil_l. by rewrite <-Heq. }
  destruct r2 as [|c r3]; [exists ""; split; [constructor|done]|].
  simpl in Hn. destruct (Division.is_space3 a b c) eqn:H3.
  { destruct (IH r3) as (sp & Hsp & Heq); [lia|].
    exists (String a (String b (String c "")) +:+ sp). split.
    - constructor; [by apply is_space3_whiteSpace|done].
    - rewrite append_assoc, !append_cons, append_nil_l. by rewrite <-Heq. }
  exists "". split; [constructor|done].
Qed.

(** Every white space is skipped, whatever follows it. *)
Lemma skip_spaces_white w t :
  w ∈ whiteSpace → Division.skip_spaces (w +:+ t) = Division.skip_spaces t.
Proof.
  intros Hw.
  repeat (apply elem_of_cons in Hw as [->|Hw]; [reflexivity|]).
  by apply elem_of_nil in Hw.
Qed.

Lemma skip_spaces_blank sp t :
  blank sp → Division.skip_spaces (sp +:+ t) = Division.skip_spaces t.
Proof.
  induction 1 as [|w s Hw Hs IH]; [done|].
  by rewrite append_assoc, skip_spaces_white.
Qed.

(** A digit is neither white space nor a dot. *)
Lemma skip_spaces_digit c t :
  Division.is_digit c = true →
  Division.skip_spaces (String c t) = String c t.
Proof.
  intros Hd. destruct c as [[] [] [] [] [] [] [] []];
    vm_compute in Hd; try discriminate Hd;
    destruct t as [|b [|c3 r3]]; reflexivity.
Qed.

Lemma skip_dot_blank sp c t :
  blank sp → Division.is_digit c = true →
  Division.skip_dot (sp +:+ String c t) = sp +:+ String c t.
Proof.
  intros Hsp Hd. destruct Hsp as [|w s Hw Hs].
  - rewrite append_nil_l. destruct c as [[] [] [] [] [] [] [] []];
      vm_compute in Hd; try discriminate Hd; reflexivity.
  - repeat (apply elem_of_cons in Hw as [->|Hw]; [reflexivity|]).
    by apply elem_of_nil in Hw.
Qed.

Lemma skip_dot_cases s :
  ∃ dot, dot ∈ [""; "."] ∧ s = dot +:+ Division.skip_dot s.
Proof.
  destruct s as [|a r]; [exists ""; split; [by left|done]|].
  destruct (decide (a = "."%char)) as [->|Hne].
  - exists ".". split; [right; by left|done].
  - exists "". split; [by left|]. rewrite append_nil_l.
    destruct a as [[] [] [] [] [] [] [] []]; done.
Qed.

(** The matcher accepts at the head of a text exactly the matches of the
    pattern, and returns the digit. *)
Lemma match_here_divisionAt s c :
  Division.match_here s = Some c ↔ divisionAt s c.
Proof.
  split.
  - unfold Division.match_here.
    destruct s as [|d [|i [|v rest]]]; try done.
    case_decide as Hdiv; [|done]. destruct Hdiv as (Hd & Hi & Hv).
    destruct (skip_dot_cases rest) as (dot & Hdot & Hrest).
    destruct (skip_spaces_blank_prefix (String.length (Division.skip_dot rest))
                (Division.skip_dot rest)) as (sp & Hsp & Heq); [done|].
    destruct (Division.skip_spaces (Division.skip_dot rest)) as [|c' r'];
      [done|].
    destruct (Division.is_digit c') eqn:Hc; [|done]. intros [= <-].
    exists d, i, v, dot, sp, r'. split; [by rewrite <-Heq, <-Hrest|].
    split; [apply (lower_letter d "d") in Hd as [->| ->];
            [by left|right; by left|by left]|].
    split; [apply (lower_letter i "i") in Hi as [->| ->];
            [by left|right; by left|right; by left]|].
    split; [apply (lower_letter v "v") in Hv as [->| ->];
            [by left|right; by left|do 2 right; by left]|].
    split; [done|]. split; [done|]. by apply is_digit_decimal.
  - intros (d & i & v & dot & sp & rest & -> & Hd & Hi & Hv & Hdot & Hsp & Hc).
    apply is_digit_decimal in Hc. unfold Division.match_here.
    rewrite decide_True.
    + assert (Division.skip_dot (dot +:+ sp +:+ String c rest)
              = sp +:+ String c rest) as ->.
      { apply elem_of_cons in Hdot as [->|Hdot].
        - rewrite append_nil_l. by apply skip_dot_blank.
        - apply elem_of_cons in Hdot as [->|Hdot]; [done|].
          by apply elem_of_nil in Hdot. }
      rewrite skip_spaces_blank, skip_spaces_digit by done. by rewrite Hc.
    + repeat (apply elem_of_cons in Hd as [->|Hd]);
        try (by apply elem_of_nil in Hd);
        repeat (apply elem_of_cons in Hi as [->|Hi]);
        try (by apply elem_of_nil in Hi);
        repeat (apply elem_of_cons in Hv as [->|Hv]);
        try (by apply elem_of_nil in Hv); done.
Qed.

Lemma match_here_None s c : Division.match_here s = None → ¬ divisionAt s c.
Proof. intros Hn Hc%match_here_divisionAt. congruence. Qed.

(** [first_match] finds the leftmost position at which the pattern
    matches. *)
Lemma first_match_leftmost s :
  match Division.first_match s with
  | None => ∀ pre post, s = pre +:+ post → Division.match_here post = None
  | Some c =>
      ∃ pre post,
        s = pre +:+ post ∧ Division.match_here post = Some c
        ∧ ∀ pre' post', s = pre' +:+ post' →
                        (String.length pre' < String.length pre)%nat →
                        Division.match_here post' = None
  end.
Proof.
  induction s as [|a s IH].
  { simpl. intros pre post [-> ->]%append_nil_inv. done. }
  cbn [Division.first_match].
  destruct (Division.match_here (String a s)) as [c|] eqn:Hhere.
  { exists "", (String a s). split; [done|]. split; [done|].
    intros pre' post' _ Hlen. simpl in Hlen. lia. }
  destruct (Division.first_match s) as [c|].
  - destruct IH as (pre & post & -> & Hpost & Hleft).
    exists (String a pre), post. split; [done|]. split; [done|].
    intros [|a' pre'] post' Heq Hlen.
    + rewrite append_nil_l in Heq. by subst post'.
    + rewrite !append_cons in Heq. simpl in Hlen. injection Heq as -> Heq.
      apply (Hleft pre' post'); [done|lia].
  - intros [|a' pre] post Heq.
    + rewrite append_nil_l in Heq. by subst post.
    + rewrite append_cons in Heq. injection Heq as -> Heq.
      by apply (IH pre post).
Qed.

(** A label the function builds is read back as itself. *)
Lemma label_fixed c :
  Division.is_digit c = true →
  extractDivision ("Div." +:+ String c "") = Some ("Div." +:+ String c "").
Proof.
  intros Hd. destruct c as [[] [] [] [] [] [] [] []];
    vm_compute in Hd; try discriminate Hd; reflexivity.
Qed.
End PatternFacts.

(** X16: [extractDivision] against the pattern [Div\.?\s*(\d)] read
    case-insensitively, with the white space of [\s] in full: the function
    returns null exactly when no position of the name begins a match of the
    pattern; otherwise it returns "Div." followed by the digit of the match
    that begins at the leftmost such position, whatever the spelling of
    "Div", the dot and the white space in the name; and such a label is read
    back as itself. *)
Theorem extractDivision_normal_form (name : string) :
  match extractDivision name with
  | None => ∀ pre post c, name = pre +:+ post → ¬ divisionAt post c
  | Some label =>
      ∃ pre post c,
        name = pre +:+ post
        ∧ divisionAt post c
        ∧ (∀ pre' post' c', name = pre' +:+ post' →
                            (String.length pre' < String.length pre)%nat →
                            ¬ divisionAt post' c')
        ∧ label = "Div." +:+ String c ""
        ∧ extractDivision label = Some label
  end.
Proof.
  unfold extractDivision at 1. pose proof (first_match_leftmost name) as H.
  destruct (Division.first_match name) as [c|].
  - destruct H as (pre & post & Hname & Hpost & Hleft).
    exists pre, post, c. split; [done|].
    split; [by apply match_here_divisionAt|].
    split; [intros pre' post' c' Hn Hl; by apply match_here_None, (Hleft pre')|].
    split; [done|].
    apply label_fixed, is_digit_decimal.
    apply match_here_divisionAt in Hpost.
    by destruct Hpost as (? & ? & ? & ? & ? & ? & _ & _ & _ & _ & _ & _ & ?).
  - intros pre post c Hname. by apply match_here_None, (H pre).
Qed.

(** ** What is signed, and what the gateway forwards *)

Section BindingFacts.
Context {V : Type}.
Implicit Types (o : list (string * V)) (k : string).

Lemma get_map_values {W : Type} (g : V → W) k o :
  JS.get k (map (λ kv, (kv.1, g kv.2)) o) = g <$> JS.get k o.
Proof.
  induction o as [|[k0 v0] o IH]; simpl; [done|].
  by destruct (decide (k = k0)).
Qed.

Lemma get_filter_values (P : V → Prop) `{!∀ v, Decision (P v)} k o :
  NoDup (JS.keys o) →
  JS.get k (filter (λ kv, P kv.2) o)
  = match JS.get k o with
    | Some v => if decide (P v) then Some v else None
    | None => None
    end.
Proof.
  induction o as [|[k0 v0] o IH]; intros Hnd; [done|].
  apply NoDup_cons in Hnd as [Hk0 Hnd]. simpl in Hk0.
  rewrite filter_cons. cbn [snd JS.get].
  destruct (decide (P v0)) as [HP|HP]; cbn [JS.get].
  - destruct (decide (k = k0)); [by rewrite decide_True|by apply IH].
  - destruct (decide (k = k0)) as [->|Hne]; [|by apply IH].
    rewrite decide_False by done. apply get_None_keys.
    intros Hin. apply Hk0. revert Hin. apply filter_keys_subseteq.
Qed.

(** [Object.fromEntries] and repeated assignment: the last binding of a key
    is the one that stays. *)
Lemma get_foldl_set k (l acc : list (string * V)) :
  JS.get k (foldl (λ o kv, JS.set kv.1 kv.2 o) acc l)
  = match lastValue k l with
    | Some v => Some v
    | None => JS.get k acc
    end.
Proof.
  revert acc. induction l as [|[k0 v0] l IH]; intros acc; [done|].
  cbn [foldl]. rewrite IH, get_set. unfold lastValue.
  rewrite filter_cons. cbn [fst snd].
  destruct (decide (k0 = k)) as [->|Hne].
  - rewrite decide_True by done. cbn [map]. rewrite last_cons.
    by destruct (last (map snd (filter _ l))).
  - by rewrite decide_False by done.
Qed.

(** Leaving out bindings of other names does not change the last value of a
    name; leaving out its own bindings leaves it without value. *)
Lemma lastValue_filter_all (P : string * V → Prop) `{!∀ kv, Decision (P kv)}
    k (l : list (string * V)) :
  (∀ kv, kv.1 = k → P kv) → lastValue k (filter P l) = lastValue k l.
Proof.
  intros HP. unfold lastValue. do 2 f_equal.
  rewrite (list_filter_filter (λ kv : string * V, kv.1 = k) P).
  apply list_filter_iff. intros kv. split; [tauto|]. intros Hk. split; auto.
Qed.

Lemma lastValue_filter_none (P : string * V → Prop) `{!∀ kv, Decision (P kv)}
    k (l : list (string * V)) :
  (∀ kv, kv.1 = k → ¬ P kv) → lastValue k (filter P l) = None.
Proof.
  intros HP. unfold lastValue.
  rewrite (list_filter_filter (λ kv : string * V, kv.1 = k) P).
  induction l as [|kv l IH]; [done|].
  rewrite filter_cons_False; [done|]. intros [Hk HPkv]. by apply (HP kv).
Qed.

(** Reading a key does not depend on the order of the bindings when no key
    is bound twice. *)
Lemma get_perm k o o' :
  NoDup (JS.keys o) → o ≡ₚ o' → JS.get k o = JS.get k o'.
Proof.
  intros Hnd Hp.
  assert (NoDup (JS.keys o')) as Hnd' by (unfold JS.keys; by rewrite <-Hp).
  destruct (JS.get k o) as [v|] eqn:Hg.
  - symmetry. apply elem_of_get; [done|]. rewrite <-Hp.
    by apply get_Some_elem_of.
  - symmetry. apply get_None_keys. apply get_None_keys in Hg.
    unfold JS.keys in *. by rewrite <-Hp.
Qed.
End BindingFacts.

Section SignedFacts.
Context (rt : Runtime).
Implicit Types (params : list (string * ParamValue)) (k : string).

Lemma baseParams_get apiKey nowMs params k :
  NoDup (JS.keys params) →
  JS.get k (baseParamsOf apiKey nowMs params)
  = if decide (k = "time") then Some (pretty (nowMs / 1000))
    else if decide (k = "apiKey") then Some apiKey
    else match JS.get k params with
         | Some v => if decide (v = VUndefined) then None else Some (String_ v)
         | None => None
         end.
Proof.
  intros Hnd. unfold baseParamsOf. rewrite !get_set.
  destruct (decide (k = "time")); [done|].
  destruct (decide (k = "apiKey")); [done|].
  rewrite fromEntries_NoDup.
  - rewrite (get_map_values String_).
    pose proof (get_filter_values (λ v, v ≠ VUndefined) k params Hnd) as Hf.
    cbv beta in Hf. rewrite Hf. clear Hf.
    destruct (JS.get k params) as [v|]; [|done].
    destruct (decide (v = VUndefined)) as [->|Hv].
    + by rewrite decide_False by tauto.
    + by rewrite decide_True by done.
  - unfold JS.keys. rewrite map_map. simpl.
    by apply (filter_keys_NoDup (λ kv : string * ParamValue, kv.2 ≠ VUndefined)).
Qed.

Lemma sorted_get apiKey nowMs params k :
  JS.get k (sortedOf rt (baseParamsOf apiKey nowMs params))
  = JS.get k (baseParamsOf apiKey nowMs params).
Proof.
  symmetry. apply get_perm; [apply baseParams_NoDup|].
  symmetry. apply sort_perm.
Qed.

(** The loop of the gateway keeps what [Object.fromEntries] would keep of
    the pairs named neither [method] nor [__proto__]. *)
Lemma paramsOf_forwarded (searchParams acc : list (string * string)) :
  foldl (λ o kv, if decide (kv.1 ≠ "method") then assign kv.1 kv.2 o else o)
    acc searchParams
  = foldl (λ o kv, JS.set kv.1 kv.2 o) acc
      (filter (λ kv, kv.1 ≠ "method" ∧ kv.1 ≠ "__proto__") searchParams).
Proof.
  revert acc. induction searchParams as [|[k0 v0] l IH]; intros acc; [done|].
  cbn [foldl fst snd]. rewrite IH, filter_cons. cbn [fst]. unfold assign.
  destruct (decide (k0 ≠ "method")) as [Hm|Hm].
  - destruct (decide (k0 = "__proto__")) as [Hp|Hp].
    + by rewrite decide_False by tauto.
    + by rewrite decide_True by tauto.
  - by rewrite decide_False by tauto.
Qed.

Lemma paramsOf_get (searchParams : list (string * string)) k :
  JS.get k (paramsOf searchParams)
  = if decide (k = "method" ∨ k = "__proto__") then None
    else VString <$> lastValue k searchParams.
Proof.
  unfold paramsOf.
  rewrite (get_map_values VString), paramsOf_forwarded, get_foldl_set.
  destruct (decide (k = "method" ∨ k = "__proto__")) as [Hk|Hk].
  - rewrite lastValue_filter_none; [done|]. intros kv ->. tauto.
  - rewrite lastValue_filter_all; [by destruct (lastValue k searchParams)|].
    intros kv ->. tauto.
Qed.

Lemma paramsOf_NoDup (searchParams : list (string * string)) :
  NoDup (JS.keys (paramsOf searchParams)).
Proof.
  unfold paramsOf, JS.keys. rewrite map_map. simpl.
  rewrite paramsOf_forwarded. apply (fromEntries_keys_NoDup (filter _ searchParams)).
Qed.
(** The merged mapping holds the pairs of [signedPair], and only them. *)
Lemma baseParams_pairs apiKey nowMs params k v :
  NoDup (JS.keys params) →
  (k, v) ∈ baseParamsOf apiKey nowMs params ↔ signedPair apiKey nowMs params k v.
Proof.
  intros Hnd.
  assert ((k, v) ∈ baseParamsOf apiKey nowMs params
          ↔ JS.get k (baseParamsOf apiKey nowMs params) = Some v) as ->.
  { split; [apply elem_of_get, baseParams_NoDup|apply get_Some_elem_of]. }
  rewrite baseParams_get by done. unfold signedPair.
  destruct (decide (k = "time")) as [->|Ht].
  { split; [intros [= <-]; by left|].
    intros [[_ ->]|[[? _]|(? & _)]]; done. }
  destruct (decide (k = "apiKey")) as [->|Ha].
  { split; [intros [= <-]; right; by left|].
    intros [[? _]|[[_ ->]|(_ & ? & _)]]; done. }
  split.
  - destruct (JS.get k params) as [pv|] eqn:Hg; [|done].
    destruct (decide (pv = VUndefined)) as [->|Hpv]; [done|]. intros [= <-].
    do 2 right. split; [done|]. split; [done|]. exists pv.
    split; [by apply get_Some_elem_of|done].
  - intros [[? _]|[[? _]|(_ & _ & pv & Hin & Hpv & ->)]]; [done..|].
    rewrite (elem_of_get k pv params Hnd Hin).
    by rewrite decide_False.
Qed.

(** Under a consistent collation the comparator of the signer sorts an
    object by its names. *)
Lemma sortedOf_sorted_keys (o : list (string * string)) :
  consistent rt → NoDup (JS.keys o) →
  StronglySorted (λ a b, localeCompare rt a.1 b.1 ≤ 0) (sortedOf rt o).
Proof.
  intros [Hanti Htrans] Hnd.
  assert (∀ a b : string * string, a ∈ o → b ∈ o → a ≠ b → a.1 ≠ b.1) as Hkeys.
  { intros a b Ha Hb Hne Hk. apply Hne. by eapply same_key_same_binding. }
  assert (StronglySorted (λ a b, compareEntries rt a b ≤ 0) (sortedOf rt o))
    as Hs.
  { unfold sortedOf. apply sort_sorted_NoDup; [apply _| | |].
    - by apply (NoDup_fmap_1 fst).
    - intros a b Ha Hb Hne Hpos.
      rewrite compareEntries_keys in * by auto using not_eq_sym.
      apply Hanti in Hpos. lia.
    - intros a b c Ha Hb Hc Hab Hbc Hac Hle1 Hle2.
      rewrite compareEntries_keys in * by auto. by apply (Htrans _ b.1). }
  assert (NoDup (sortedOf rt o)) as Hnd'.
  { unfold sortedOf. rewrite sort_perm. by apply (NoDup_fmap_1 fst). }
  assert (∀ a, a ∈ sortedOf rt o → a ∈ o) as Hin.
  { intros a. unfold sortedOf. by rewrite sort_perm. }
  revert Hnd' Hin. induction Hs as [|a l Hl IH Hall]; intros Hnd' Hin;
    [constructor|].
  apply NoDup_cons in Hnd' as [Ha Hnd'].
  constructor; [apply IH; [done|intros; apply Hin; by right]|].
  rewrite Forall_forall in Hall |- *. intros b Hb.
  rewrite <-compareEntries_keys; [by apply Hall|].
  apply Hkeys; [apply Hin; by left|apply Hin; by right|by intros ->].
Qed.
End SignedFacts.

(** The order by code unit is a consistent collation. *)
Lemma compare_lt_trans (a b c : string) :
  String.compare a b = Lt → String.compare b c = Lt → String.compare a c = Lt.
Proof.
  revert b c. induction a as [|x a IH]; intros [|y b] [|z c]; simpl; try done.
  unfold Ascii.compare.
  destruct (N.compare_spec (N_of_ascii x) (N_of_ascii y)) as [Hxy|Hxy|Hxy];
    destruct (N.compare_spec (N_of_ascii y) (N_of_ascii z)) as [Hyz|Hyz|Hyz];
    try done; intros H1 H2.
  - rewrite Hxy, Hyz, N.compare_refl. by apply (IH b).
  - by rewrite Hxy, (proj2 (N.compare_lt_iff _ _) Hyz).
  - by rewrite <-Hyz, (proj2 (N.compare_lt_iff _ _) Hxy).
  - by rewrite (proj2 (N.compare_lt_iff _ _) (N.lt_trans _ _ _ Hxy Hyz)).
Qed.

Lemma asciiRuntime_consistent : consistent asciiRuntime.
Proof.
  split; simpl; unfold JS.codeUnitCompare.
  - intros a b. rewrite (String.compare_antisym a b).
    destruct (String.compare b a); simpl; lia.
  - intros a b c.
    destruct (String.compare a b) eqn:Hab; [| |lia];
      destruct (String.compare b c) eqn:Hbc; try lia; intros _ _.
    + apply String.compare_eq_iff in Hab as ->. by rewrite Hbc.
    + apply String.compare_eq_iff in Hab as ->. by rewrite Hbc.
    + apply String.compare_eq_iff in Hbc as <-. by rewrite Hab.
    + by rewrite (compare_lt_trans a b c).
Qed.

(** X17: what is signed. Among the parameters put in the query and in the
    signature base, [time] is the clock of the server in whole seconds and
    [apiKey] is the key of the server, also when the caller passes parameters
    of these names; a parameter that is undefined is left out; every other
    parameter is present once, as [String(v)]. The parameters are an object,
    so no name is bound twice. *)
Theorem signed_parameters (rt : Runtime) (apiKey : string) (nowMs : Z)
    (params : list (string * ParamValue)) (k : string) :
  NoDup (JS.keys params) →
  NoDup (JS.keys (sortedOf rt (baseParamsOf apiKey nowMs params)))
  ∧ JS.get k (sortedOf rt (baseParamsOf apiKey nowMs params))
    = if decide (k = "time") then Some (pretty (nowMs / 1000))
      else if decide (k = "apiKey") then Some apiKey
      else match JS.get k params with
           | Some v => if decide (v = VUndefined) then None else Some (String_ v)
           | None => None
           end.
Proof.
  intros Hnd. split.
  - unfold JS.keys, sortedOf. rewrite sort_perm. apply baseParams_NoDup.
  - rewrite sorted_get. by apply baseParams_get.
Qed.

Lemma signed_parameters_witness :
  NoDup (JS.keys [("apiKey", VString "mine"); ("from", VNumber 1);
                  ("lang", VUndefined)])
  ∧ map (λ k, JS.get k
                (sortedOf asciiRuntime
                   (baseParamsOf "xxx" 1390000000999
                      [("apiKey", VString "mine"); ("from", VNumber 1);
                       ("lang", VUndefined)])))
      ["apiKey"; "time"; "from"; "lang"]
    = [Some "xxx"; Some "1390000000"; Some "1"; None].
Proof.
  assert (NoDup (JS.keys [("apiKey", VString "mine"); ("from", VNumber 1);
                          ("lang", VUndefined)])) as Hnd
    by (apply (bool_decide_unpack _); vm_compute; exact I).
  split; [exact Hnd|].
  cbn [map].
  rewrite !(λ k, proj2 (signed_parameters asciiRuntime "xxx" 1390000000999 _ k Hnd)).
  reflexivity.
Defined.

(** C5: with both credentials present the signer returns the URL
    [https://codeforces.com/api/{method}?{query}&apiSig={nonce}{digest}] where,
    for one and the same list [sorted] of pairs, [query] joins the pairs
    [k=encoded v] with [&] and [digest] is the SHA-512 hex digest of
    [{nonce}/{method}?{pairs k=v, unencoded, joined by &}#{secret}], so that
    the pairs of the base text are those of the query in the same order.
    The list holds every pair of the merged mapping once ([time], [apiKey]
    and the defined parameters as texts) and nothing else, and it is
    ascending by name in the collation of the platform, which the language
    standard requires to be consistent. *)
Theorem signCfRequest_spec (rt : Runtime) (env : ProcessEnv) (nowMs : Z)
    (rand methodName : string) (params : list (string * ParamValue))
    (apiKey apiSecret : string) :
  CF_KEY env = Some apiKey → apiKey ≠ "" →
  CF_SECRET env = Some apiSecret → apiSecret ≠ "" →
  NoDup (JS.keys params) →
  consistent rt →
  ∃ sorted : list (string * string),
    NoDup (JS.keys sorted)
    ∧ (∀ k v, (k, v) ∈ sorted ↔ signedPair apiKey nowMs params k v)
    ∧ StronglySorted (λ a b, localeCompare rt a.1 b.1 ≤ 0) sorted
    ∧ signCfRequest rt env nowMs rand methodName params
      = Ok ("https://codeforces.com/api/" +:+ methodName +:+ "?"
            +:+ JS.join "&"
                  (map (λ kv, kv.1 +:+ "=" +:+ encodeURIComponent rt kv.2) sorted)
            +:+ "&apiSig=" +:+ rand
            +:+ sha512_hex rt
                  (rand +:+ "/" +:+ methodName +:+ "?"
                   +:+ JS.join "&" (map (λ kv, kv.1 +:+ "=" +:+ kv.2) sorted)
                   +:+ "#" +:+ apiSecret)).
Proof.
  intros Hkey Hkey' Hsecret Hsecret' Hnd Hrt.
  exists (sortedOf rt (baseParamsOf apiKey nowMs params)).
  split; [|split; [|split]].
  - unfold JS.keys, sortedOf. rewrite sort_perm. apply baseParams_NoDup.
  - intros k v. unfold sortedOf. rewrite sort_perm. by apply baseParams_pairs.
  - apply sortedOf_sorted_keys; [done|apply baseParams_NoDup].
  - unfold signCfRequest. rewrite Hkey, Hsecret. simpl.
    by rewrite !bool_decide_eq_false_2 by done.
Qed.

Lemma signCfRequest_spec_witness :
  ∃ sorted : list (string * string),
    NoDup (JS.keys sorted)
    ∧ (∀ k v, (k, v) ∈ sorted ↔ signedPair "xxx" 1390000000000 Samples.hacks k v)
    ∧ StronglySorted (λ a b, localeCompare asciiRuntime a.1 b.1 ≤ 0) sorted
    ∧ signCfRequest asciiRuntime Samples.credentials 1390000000000 "123456"
        "contest.hacks" Samples.hacks
      = Ok ("https://codeforces.com/api/" +:+ "contest.hacks" +:+ "?"
            +:+ JS.join "&" (map (λ kv, kv.1 +:+ "=" +:+ uri_encode kv.2) sorted)
            +:+ "&apiSig=" +:+ "123456"
            +:+ SHA512.hex
                  ("123456" +:+ "/" +:+ "contest.hacks" +:+ "?"
                   +:+ JS.join "&" (map (λ kv, kv.1 +:+ "=" +:+ kv.2) sorted)
                   +:+ "#" +:+ "yyy")).
Proof.
  apply (signCfRequest_spec asciiRuntime Samples.credentials 1390000000000
           "123456" "contest.hacks" Samples.hacks "xxx" "yyy").
  - reflexivity.
  - discriminate.
  - reflexivity.
  - discriminate.
  - apply (bool_decide_unpack _). vm_compute. exact I.
  - apply asciiRuntime_consistent.
Defined.

(** X18: what the gateway forwards. The parameters handed to the signer bind
    no name twice and bind neither [method] nor [__proto__] (an assignment to
    that name reaches the inherited setter and makes no property); every
    other name of the query string is bound to its last value there. Hence,
    in the signed request, a name other than [time] and [apiKey] carries the
    last value the caller gave it, [method] and [__proto__] are no
    parameters, and [time] and [apiKey] are the server's whatever the query
    string says. *)
Theorem gateway_forwards_last_values (rt : Runtime) (apiKey : string)
    (nowMs : Z) (searchParams : list (string * string)) (k : string) :
  NoDup (JS.keys (paramsOf searchParams))
  ∧ JS.get k (paramsOf searchParams)
    = (if decide (k = "method" ∨ k = "__proto__") then None
       else VString <$> lastValue k searchParams)
  ∧ JS.get k (sortedOf rt (baseParamsOf apiKey nowMs (paramsOf searchParams)))
    = if decide (k = "time") then Some (pretty (nowMs / 1000))
      else if decide (k = "apiKey") then Some apiKey
      else if decide (k = "method" ∨ k = "__proto__") then None
      else lastValue k searchParams.
Proof.
  split; [apply paramsOf_NoDup|]. split; [apply paramsOf_get|].
  rewrite sorted_get, baseParams_get by apply paramsOf_NoDup.
  rewrite paramsOf_get.
  destruct (decide (k = "time")); [done|].
  destruct (decide (k = "apiKey")); [done|].
  destruct (decide (k = "method" ∨ k = "__proto__")); [done|].
  by destruct (lastValue k searchParams).
Qed.

(** ** Calls of the gateway in sequence, and the client behind it *)

Section GatewayFacts.
Context (rt : Runtime).

(** The wait of a call with a method only depends on the clock at entry and
    on [lastCallTs]. *)
Lemma GET_slept lastCallTs searchParams w method :
  JS.get "method" searchParams = Some method → method ≠ "" →
  slept (GET rt lastCallTs searchParams w)
  = Z.max 0 (lastCallTs + minIntervalMs - now_entry w).
Proof.
  intros Hm Hne. unfold GET. rewrite Hm. cbn [missing].
  rewrite bool_decide_eq_false_2 by done. cbn [JS.nullish].
  unfold minIntervalMs.
  destruct (signCfRequest rt _ _ _ _ _) as [url|message];
    [destruct (fetch w url) as [cfRes|message]|]; cbn [slept];
    destruct (Z.ltb_spec (now_entry w - lastCallTs) 2000); lia.
Qed.

(** What a call leaves in [lastCallTs], by the body of its answer. *)
Lemma GET_lastCallTs lastCallTs searchParams w :
  match gw_body (response (GET rt lastCallTs searchParams w)) with
  | Passthrough _ =>
      lastCallTs' (GET rt lastCallTs searchParams w) = now_done w
  | ErrorJson _ =>
      lastCallTs' (GET rt lastCallTs searchParams w) = lastCallTs
      ∧ (gw_status (response (GET rt lastCallTs searchParams w)) = 400
         ∨ gw_status (response (GET rt lastCallTs searchParams w)) = 500)
  end.
Proof.
  unfold GET. destruct (missing (JS.get "method" searchParams)).
  { simpl. split; [done|by left]. }
  destruct (signCfRequest rt _ _ _ _ _) as [url|message];
    [destruct (fetch w url) as [cfRes|message]|]; simpl; try done;
    split; (done || by right).
Qed.
End GatewayFacts.

(** X19: two calls in sequence. The second call, if it names a method, waits
    for what is missing of 2000 ms since the [lastCallTs] the first call left.
    After a first call whose answer is an upstream answer passed through,
    the second call therefore goes on no earlier than 2000 ms after the
    instant at which the first fetch resolved; after a first call that the
    gateway answered with an error of its own, only the timestamp from before
    the first call counts. *)
Theorem gateway_spaces_sequential_calls (rt : Runtime) (lastCallTs : Z)
    (searchParams1 searchParams2 : list (string * string)) (w1 w2 : World)
    (method : string) :
  JS.get "method" searchParams2 = Some method → method ≠ "" →
  let first := GET rt lastCallTs searchParams1 w1 in
  let second := GET rt (lastCallTs' first) searchParams2 w2 in
  slept second = Z.max 0 (lastCallTs' first + 2000 - now_entry w2)
  ∧ match gw_body (response first) with
    | Passthrough _ => now_done w1 + 2000 ≤ now_entry w2 + slept second
    | ErrorJson _ =>
        lastCallTs' first = lastCallTs
        ∧ slept second = Z.max 0 (lastCallTs + 2000 - now_entry w2)
    end.
Proof.
  intros Hm Hne. cbv zeta.
  rewrite (GET_slept rt _ searchParams2 w2 method Hm Hne).
  unfold minIntervalMs. split; [done|].
  pose proof (GET_lastCallTs rt lastCallTs searchParams1 w1) as H.
  destruct (gw_body (response (GET rt lastCallTs searchParams1 w1))).
  - rewrite H. lia.
  - destruct H as [-> _]. done.
Qed.

Lemma gateway_spaces_sequential_calls_witness :
  let first := GET asciiRuntime 0 Samples.userInfo Samples.answered in
  let second := GET asciiRuntime (lastCallTs' first) Samples.userInfo Samples.answered in
  lastCallTs' first = 5300 ∧ slept second = 2300.
Proof.
  cbv zeta.
  destruct (gateway_spaces_sequential_calls asciiRuntime 0 Samples.userInfo
              Samples.userInfo Samples.answered Samples.answered "user.info")
    as [Hslept _]; [reflexivity|discriminate|].
  cbv zeta in Hslept. split; [by vm_compute|]. rewrite Hslept. by vm_compute.
Defined.

(** X20: the client behind the gateway. When the gateway answers with an
    error of its own (no method: 400; signing threw or the fetch rejected:
    500) the caller of [cf] gets "CF error: " and the status, and the message
    of the gateway is not read. When the gateway passes an upstream answer
    through, the caller gets the same for every upstream status outside 200
    to 299, whatever the body says; only a 2xx body is parsed. *)
Theorem client_behind_gateway {R : Type} (rt : Runtime)
    (parse : string → Result (Envelope R)) (lastCallTs : Z)
    (searchParams : list (string * string)) (w : World) :
  let g := response (GET rt lastCallTs searchParams w) in
  let out := cf (Ok (received parse g)) in
  match gw_body g with
  | ErrorJson _ =>
      (gw_status g = 400 ∨ gw_status g = 500)
      ∧ out = Throw ("CF error: " +:+ pretty (gw_status g))
  | Passthrough body =>
      if decide (200 ≤ gw_status g ≤ 299)
      then out = cf (Ok {| res_status := gw_status g; res_json := parse body |})
      else out = Throw ("CF error: " +:+ pretty (gw_status g))
  end.
Proof.
  cbv zeta.
  pose proof (GET_lastCallTs rt lastCallTs searchParams w) as H.
  destruct (response (GET rt lastCallTs searchParams w)) as [body code].
  cbn [gw_body gw_status] in *. unfold received, cf, ok.
  cbn [gw_body gw_status res_status res_json].
  destruct body as [body|error].
  - case_decide as Hc; [done|].
    destruct (Z.leb_spec 200 code), (Z.leb_spec code 299); simpl; done || lia.
  - destruct H as [_ [-> | ->]]; split; auto.
Qed.

(** ** What the home page shows *)

Section WelcomeFacts.
Implicit Types (l : list ContestEntry) (t : Z).

(** The sort of the home page is stable: entries that start at the same time
    keep their order. *)
Lemma sort_insert_same_start x l t :
  filter (λ e, startTimeSeconds e = t) (JS.sort_insert byStartTime x l)
  = filter (λ e, startTimeSeconds e = t) (x :: l).
Proof.
  induction l as [|y l IH]; [done|].
  cbn [JS.sort_insert]. unfold byStartTime at 1.
  destruct (Z.leb_spec (startTimeSeconds x - startTimeSeconds y) 0) as [Hle|Hgt];
    [done|].
  rewrite filter_cons, IH, !filter_cons.
  destruct (decide (startTimeSeconds y = t)), (decide (startTimeSeconds x = t));
    try done. lia.
Qed.

Lemma sort_same_start l t :
  filter (λ e, startTimeSeconds e = t) (JS.sort byStartTime l)
  = filter (λ e, startTimeSeconds e = t) l.
Proof.
  induction l as [|x l IH]; [done|].
  cbn [JS.sort foldr]. fold (JS.sort byStartTime l).
  by rewrite sort_insert_same_start, !filter_cons, IH.
Qed.

Lemma fetchUpcomingContests_future now (contests : list Contest) e :
  e ∈ fetchUpcomingContests now contests → now < startTimeSeconds e.
Proof.
  unfold fetchUpcomingContests. intros Hin.
  apply list_elem_of_fmap in Hin as (c & -> & Hc).
  apply elem_of_take in Hc as (i & Hc & _).
  apply list_elem_of_lookup_2, list_elem_of_filter in Hc as [[_ Hc] _]. done.
Qed.
End WelcomeFacts.

(** X21: the welcome screen shows the first five entries of the list the
    mount effect sorted. They are in ascending order of start; each of them
    starts after now and no later than every entry that is not shown; entries
    with the same start are in upstream order; and their number is the number
    of upcoming contests, capped at 20 by [fetchUpcomingContests] and at 5
    here. *)
Theorem welcome_shows_five_soonest (now : Z) (contests : list Contest) :
  let sorted := HomePage_onMount now contests in
  let shown := topFive sorted in
  length shown = (5 `min` (20 `min` length (filter (upcoming now) contests)))%nat
  ∧ StronglySorted (λ a b, startTimeSeconds a ≤ startTimeSeconds b) shown
  ∧ (∀ a b, a ∈ shown → b ∈ drop 5 sorted →
            startTimeSeconds a ≤ startTimeSeconds b)
  ∧ (∀ a, a ∈ shown → now < startTimeSeconds a)
  ∧ (∀ t, filter (λ e, startTimeSeconds e = t) sorted
          = filter (λ e, startTimeSeconds e = t)
              (fetchUpcomingContests now contests)).
Proof.
  cbv zeta. unfold topFive.
  pose proof (byStartTime_sorted (fetchUpcomingContests now contests)) as Hs.
  fold (HomePage_onMount now contests) in Hs.
  rewrite <-(take_drop 5 (HomePage_onMount now contests)) in Hs.
  split; [|split; [|split; [|split]]].
  - rewrite length_take. unfold HomePage_onMount. rewrite sort_perm.
    unfold fetchUpcomingContests. rewrite length_map, length_take. lia.
  - by apply StronglySorted_app_1_l in Hs.
  - intros a b Ha Hb. by apply (StronglySorted_app_1_elem_of _ _ _ _ _ Hs).
  - intros a Ha. apply (fetchUpcomingContests_future now contests).
    apply elem_of_take in Ha as (i & Ha & _).
    apply list_elem_of_lookup_2 in Ha. unfold HomePage_onMount in Ha.
    by rewrite sort_perm in Ha.
  - intros t. apply sort_same_start.
Qed.

(** X22: the colour of a rating only depends on its title: two ratings with
    the same title have the same colour. (Not conversely: master and
    international master share a colour, and so do the three grandmaster
    titles.) *)
Theorem rating_colour_follows_title (rating1 rating2 : Z) :
  getRatingTitle rating1 = getRatingTitle rating2 →
  getRatingColor rating1 = getRatingColor rating2.
Proof.
  unfold getRatingTitle, getRatingColor.
  repeat match goal with
         | |- context [(?a <? ?b)] => destruct (Z.ltb_spec a b)
         end; done.
Qed.

Lemma rating_colour_follows_title_witness :
  getRatingTitle 1450 = getRatingTitle 1599
  ∧ getRatingColor 1450 = getRatingColor 1599.
Proof.
  split; [reflexivity|]. apply rating_colour_follows_title. reflexivity.
Defined.

(** ** The analytics page: consistency of the last 26 weeks *)

Section ConsistencyFacts.
Implicit Types (w l later : list nat) (x i : nat).

Lemma anchoredBy_drop w i :
  (i < length w)%nat →
  anchoredBy (drop (S i) w)
  = bool_decide (i = length w - 1)%nat || bool_decide (0 < nth (i + 1) w 0)%nat.
Proof.
  intros Hi. destruct (decide (S i = length w)) as [Heq|Hne].
  - rewrite drop_ge by lia. rewrite bool_decide_eq_true_2 by lia. done.
  - rewrite bool_decide_eq_false_2 by lia.
    destruct (lookup_lt_is_Some_2 w (S i)) as [y Hy]; [lia|].
    rewrite (drop_S _ _ _ Hy). replace (i + 1)%nat with (S i) by lia.
    by rewrite (nth_lookup_Some _ _ _ _ Hy).
Qed.

(** The loop over the indices computes the recursion on the suffixes. *)
Lemma loop_scan w n :
  (n ≤ length w)%nat → Analytics.loop w n (scan (drop n w)) = scan w.
Proof.
  induction n as [|i IH]; intros Hn; [done|].
  cbn [Analytics.loop]. rewrite <-IH by lia. f_equal.
  destruct (lookup_lt_is_Some_2 w i) as [x Hx]; [lia|].
  rewrite (drop_S _ _ _ Hx). cbn [scan]. unfold Analytics.step.
  rewrite (nth_lookup_Some _ _ _ _ Hx). by rewrite anchoredBy_drop by lia.
Qed.

Lemma loop_all w : Analytics.loop w (length w) Analytics.start = scan w.
Proof.
  rewrite <-(loop_scan w (length w)) by lia. by rewrite drop_all.
Qed.

Lemma scan_tempStreak l : Analytics.tempStreak (scan l) = leadRun l.
Proof.
  induction l as [|x later IH]; [done|].
  cbn [scan leadRun]. unfold Analytics.body.
  case_bool_decide; cbn [Analytics.tempStreak]; [by rewrite IH|].
  case_bool_decide; cbn [Analytics.tempStreak]; lia.
Qed.

Lemma scan_activeWeeks l :
  Analytics.activeWeeks (scan l) = count (λ x, bool_decide (0 < x)%nat) l.
Proof.
  induction l as [|x later IH]; [done|].
  cbn [scan]. rewrite count_cons. unfold Analytics.body.
  repeat case_bool_decide; cbn [Analytics.activeWeeks]; lia.
Qed.

Lemma scan_maxWeeklySubmissions l :
  Analytics.maxWeeklySubmissions (scan l) = max_list l.
Proof.
  induction l as [|x later IH]; [done|].
  cbn [scan]. change (max_list (x :: later)) with (x `max` max_list later)%nat.
  unfold Analytics.body.
  repeat case_bool_decide; cbn [Analytics.maxWeeklySubmissions]; lia.
Qed.

Lemma leadRun_le_longestRun l : (leadRun l ≤ longestRun l)%nat.
Proof.
  induction l as [|x later IH]; [done|].
  cbn [leadRun longestRun]. case_bool_decide; lia.
Qed.

Lemma longestRun_le_count l :
  (longestRun l ≤ count (λ x, bool_decide (0 < x)%nat) l)%nat
  ∧ (leadRun l ≤ count (λ x, bool_decide (0 < x)%nat) l)%nat.
Proof.
  induction l as [|x later [IH1 IH2]]; [by split|].
  rewrite count_cons. cbn [leadRun longestRun]. case_bool_decide; lia.
Qed.

Lemma scan_longestStreak l :
  Nat.max (Analytics.longestStreak (scan l)) (leadRun l) = longestRun l.
Proof.
  induction l as [|x later IH]; [done|].
  cbn [scan leadRun longestRun]. unfold Analytics.body.
  rewrite scan_tempStreak.
  repeat case_bool_decide; cbn [Analytics.longestStreak]; lia.
Qed.

Lemma scan_currentStreak_le l :
  (Analytics.currentStreak (scan l) ≤ longestRun l)%nat.
Proof.
  induction l as [|x later IH]; [done|].
  cbn [scan longestRun]. unfold Analytics.body. rewrite scan_tempStreak.
  pose proof (leadRun_le_longestRun later).
  destruct (anchoredBy later);
    repeat case_bool_decide; cbn [Analytics.currentStreak]; lia.
Qed.

Lemma scan_drySpells l :
  Analytics.drySpells (scan l)
  = count (λ p, bool_decide (p.1 = 0)%nat && bool_decide (0 < p.2)%nat)
      (zip l (drop 1 l)).
Proof.
  induction l as [|x later IH]; [done|].
  cbn [scan]. unfold Analytics.body. rewrite scan_tempStreak.
  change (drop 1 (x :: later)) with later.
  destruct later as [|y later'].
  { repeat case_bool_decide; cbn [Analytics.drySpells]; simpl in *; done || lia. }
  change (drop 1 (y :: later')) with later' in IH.
  change (zip (x :: y :: later') (y :: later'))
    with ((x, y) :: zip (y :: later') later').
  rewrite count_cons, <-IH. cbn [fst snd leadRun].
  repeat case_bool_decide; cbn [Analytics.drySpells andb]; lia.
Qed.

(** [currentStreak] is assigned at the anchored weeks, and the assignment at
    the oldest of them is the last. *)
Lemma anchored_cons x later i :
  anchored (x :: later) (S i) ↔ anchored later i.
Proof. unfold anchored. simpl. split; intros [? [?|?]]; split; auto; lia. Qed.

Lemma anchored_head x later :
  anchored (x :: later) 0 ↔ (0 < x)%nat ∧ anchoredBy later = true.
Proof.
  unfold anchored. simpl. destruct later as [|y later']; simpl.
  - split; [intros [(a & [= <-] & ?) _]; done|].
    intros [? _]. split; [by exists x|by left].
  - rewrite bool_decide_eq_true. split.
    + intros [(a & [= <-] & ?) [?|(b & [= <-] & ?)]]; [lia|done].
    + intros [? ?]. split; [by exists x|right; by exists y].
Qed.

Lemma body_currentStreak x (anchoredNow : bool) (v : Analytics.Vars) :
  Analytics.currentStreak (Analytics.body x anchoredNow v)
  = if bool_decide (0 < x)%nat && anchoredNow then S (Analytics.tempStreak v)
    else Analytics.currentStreak v.
Proof.
  unfold Analytics.body. destruct anchoredNow; repeat case_bool_decide; done.
Qed.

Lemma scan_currentStreak l :
  (∀ i, anchored l i → (∀ j, (j < i)%nat → ¬ anchored l j) →
        Analytics.currentStreak (scan l) = leadRun (drop i l))
  ∧ ((∀ i, ¬ anchored l i) → Analytics.currentStreak (scan l) = 0%nat).
Proof.
  induction l as [|x later [IH1 IH2]].
  { split; [|done]. intros i [(a & Ha & _) _]. done. }
  cbn [scan]. rewrite body_currentStreak, scan_tempStreak.
  destruct (decide ((0 < x)%nat ∧ anchoredBy later = true)) as [[Hx Hanch]|H0].
  - rewrite bool_decide_eq_true_2, Hanch by done. cbn [andb].
    assert (anchored (x :: later) 0) as H0 by (by apply anchored_head).
    split.
    + intros [|i] Hi Hfirst.
      * cbn [drop leadRun]. by rewrite bool_decide_eq_true_2.
      * exfalso. apply (Hfirst 0%nat); [lia|done].
    + intros Hnone. exfalso. by apply (Hnone 0%nat).
  - assert (bool_decide (0 < x)%nat && anchoredBy later = false) as ->.
    { apply not_true_is_false. rewrite andb_true_iff, bool_decide_eq_true. done. }
    rewrite <-anchored_head in H0. split.
    + intros [|i] Hi Hfirst; [done|].
      cbn [drop]. apply IH1; [by apply anchored_cons in Hi|].
      intros j Hj Hanch. apply (Hfirst (S j)); [lia|by apply anchored_cons].
    + intros Hnone. apply IH2. intros i Hi.
      apply (Hnone (S i)). by apply anchored_cons.
Qed.

(** The comparisons of [activityRate] with 80, 60 and 40, for at most 26
    active weeks. *)
Lemma statusOf_thresholds (activeWeeks : nat) :
  (activeWeeks ≤ 26)%nat →
  Analytics.statusOf activeWeeks
  = if bool_decide (21 ≤ activeWeeks)%nat then "excellent"
    else if bool_decide (16 ≤ activeWeeks)%nat then "good"
    else if bool_decide (11 ≤ activeWeeks)%nat then "inconsistent"
    else "needs-work".
Proof.
  intros Hle. do 27 (destruct activeWeeks as [|activeWeeks]; [by vm_compute|]).
  lia.
Qed.
End ConsistencyFacts.

(** X23: the consistency metrics of any list of weekly counts: [activeWeeks]
    is the number of weeks with a submission, [maxWeeklySubmissions] the
    greatest count, [longestStreak] the length of the longest run of active
    weeks, and [drySpells] the number of inactive weeks that are followed by
    an active week; and the current streak is at most the longest, which is
    at most the number of active weeks. *)
Theorem consistency_metrics_count (weeklyActivity : list nat) :
  let m := Analytics.calculateConsistencyMetrics weeklyActivity in
  Analytics.m_activeWeeks m
  = count (λ x, bool_decide (0 < x)%nat) weeklyActivity
  ∧ Analytics.m_maxWeeklySubmissions m = max_list weeklyActivity
  ∧ Analytics.m_longestStreak m = longestRun weeklyActivity
  ∧ Analytics.m_drySpells m
    = count (λ p, bool_decide (p.1 = 0)%nat && bool_decide (0 < p.2)%nat)
        (zip weeklyActivity (drop 1 weeklyActivity))
  ∧ (Analytics.m_currentStreak m ≤ Analytics.m_longestStreak m)%nat
  ∧ (Analytics.m_longestStreak m ≤ Analytics.m_activeWeeks m)%nat
  ∧ (Analytics.m_activeWeeks m ≤ length weeklyActivity)%nat.
Proof.
  cbv zeta. unfold Analytics.calculateConsistencyMetrics. rewrite loop_all.
  cbn [Analytics.m_activeWeeks Analytics.m_maxWeeklySubmissions
       Analytics.m_longestStreak Analytics.m_drySpells Analytics.m_currentStreak].
  rewrite scan_activeWeeks, scan_maxWeeklySubmissions, scan_drySpells,
    scan_tempStreak.
  pose proof (scan_longestStreak weeklyActivity) as Hl.
  pose proof (scan_currentStreak_le weeklyActivity) as Hc.
  pose proof (longestRun_le_count weeklyActivity) as [Hr _].
  pose proof (count_le_length (λ x, bool_decide (0 < x)%nat) weeklyActivity).
  repeat split; try done; lia.
Qed.

(** X24: [currentStreak] is 0 when no week is anchored, a week being anchored
    when it is active and is the last week or is followed by an active week.
    Otherwise it is the number of active weeks in a row counted from the
    oldest anchored week on: the loop runs from the most recent week to the
    oldest and assigns [currentStreak] at every anchored week, so the oldest
    one decides, whether or not its run reaches the last week. *)
Theorem consistency_currentStreak (weeklyActivity : list nat) :
  let m := Analytics.calculateConsistencyMetrics weeklyActivity in
  (∀ i, anchored weeklyActivity i →
        (∀ j, (j < i)%nat → ¬ anchored weeklyActivity j) →
        Analytics.m_currentStreak m = leadRun (drop i weeklyActivity))
  ∧ ((∀ i, ¬ anchored weeklyActivity i) → Analytics.m_currentStreak m = 0%nat).
Proof.
  cbv zeta. unfold Analytics.calculateConsistencyMetrics. rewrite loop_all.
  cbn [Analytics.m_currentStreak]. apply scan_currentStreak.
Qed.

Lemma consistency_currentStreak_witness :
  Analytics.m_currentStreak (Analytics.calculateConsistencyMetrics [3; 3; 0; 1]%nat)
  = 2%nat.
Proof.
  apply (proj1 (consistency_currentStreak [3; 3; 0; 1]%nat) 0%nat).
  - split; [|right]; exists 3%nat; (split; [reflexivity|lia]).
  - intros j Hj. lia.
Defined.

(** ** The analytics page: activity per week and per day *)

Section BinFacts.
Context {A : Type} (idx : A → option nat) (step : list nat → A → list nat).
Hypothesis step_idx :
  ∀ data x, step data x
            = match idx x with
              | Some i => increment i data
              | None => data
              end.

Lemma bins_length (l : list A) (data : list nat) :
  length (foldl step data l) = length data.
Proof.
  revert data. induction l as [|x l IH]; intros data; [done|].
  cbn [foldl]. rewrite IH, step_idx. destruct (idx x); [|done].
  apply length_alter.
Qed.

(** Every bin grows by the number of elements that fall into it. *)
Lemma bins_lookup (l : list A) (data : list nat) (j : nat) :
  foldl step data l !! j
  = (λ n, n + count (λ x, bool_decide (idx x = Some j)) l)%nat <$> data !! j.
Proof.
  revert data. induction l as [|x l IH]; intros data.
  { simpl. destruct (data !! j) as [n|]; simpl; [|done].
    unfold count. simpl. f_equal. lia. }
  cbn [foldl]. rewrite IH, step_idx, count_cons.
  destruct (idx x) as [i|].
  - unfold increment. destruct (decide (i = j)) as [->|Hne].
    + rewrite list_lookup_alter_eq, bool_decide_eq_true_2 by done.
      destruct (data !! j) as [n|]; simpl; [f_equal; lia|done].
    + rewrite list_lookup_alter_ne by done.
      rewrite bool_decide_eq_false_2 by congruence.
      destruct (data !! j) as [n|]; simpl; [f_equal; lia|done].
  - rewrite bool_decide_eq_false_2 by done.
    destruct (data !! j) as [n|]; simpl; [f_equal; lia|done].
Qed.
End BinFacts.

Section WindowFacts.
Implicit Types (s : Submission) (j : nat).

Lemma weekly_step_bin nowMs data s :
  weekly_step nowMs data s
  = match binOf MILLISECONDS_A_WEEK 26 nowMs s with
    | Some i => increment i data
    | None => data
    end.
Proof. unfold weekly_step, binOf. by destruct (_ && _). Qed.

Lemma daily_step_bin nowMs data s :
  daily_step nowMs data s
  = match binOf MILLISECONDS_A_DAY 365 nowMs s with
    | Some i => increment i data
    | None => data
    end.
Proof. unfold daily_step, binOf. by destruct (_ && _). Qed.

(** A submission falls into bin [j] when its age lies in the window of the
    bin. The quotient is cut towards zero, so the most recent bin also takes
    the ages down to minus one unit. *)
Lemma binOf_window unitMs bins nowMs s j :
  0 < unitMs → (j < Z.to_nat bins)%nat →
  bool_decide (binOf unitMs bins nowMs s = Some j)
  = (if bool_decide (Z.of_nat j = bins - 1) then - unitMs <? ageMs nowMs s
     else (bins - 1 - Z.of_nat j) * unitMs <=? ageMs nowMs s)
    && (ageMs nowMs s <? (bins - Z.of_nat j) * unitMs).
Proof.
  intros Hu Hj. unfold binOf, dayjs_diff, ageMs.
  generalize (nowMs - 1000 * creationTimeSeconds s). intros age.
  pose proof (Z.quot_rem' age unitMs) as Hqr.
  assert (0 ≤ age → 0 ≤ Z.rem age unitMs < unitMs) as Hpos
    by (intros; apply Z.rem_bound_pos; lia).
  assert (age ≤ 0 → - unitMs < Z.rem age unitMs ≤ 0) as Hneg.
  { intros. pose proof (Z.rem_bound_pos (- age) unitMs) as Hr.
    rewrite Z.rem_opp_l in Hr by lia. lia. }
  assert (0 ≤ age → 0 ≤ age ÷ unitMs) as Hq1 by (intros; apply Z.quot_pos; lia).
  assert (age ≤ 0 → age ÷ unitMs ≤ 0) as Hq2.
  { intros. rewrite <-(Z.opp_involutive age), Z.quot_opp_l by lia.
    pose proof (Z.quot_pos (- age) unitMs). lia. }
  revert Hqr Hpos Hneg Hq1 Hq2.
  generalize (age ÷ unitMs) (Z.rem age unitMs). intros q r Hqr Hpos Hneg Hq1 Hq2.
  destruct (Z.leb_spec 0 q), (Z.ltb_spec q bins); cbn [andb].
  - destruct (decide (Z.to_nat (bins - 1 - q) = j)) as [Heq|Hne].
    + rewrite bool_decide_eq_true_2 by (by f_equal). symmetry.
      case_bool_decide; apply andb_true_intro; split;
        try apply Z.ltb_lt; try apply Z.leb_le; nia.
    + rewrite bool_decide_eq_false_2 by congruence. symmetry.
      apply not_true_is_false. intros Hw. apply Hne.
      apply andb_prop in Hw as [Hlo Hhi]. apply Z.ltb_lt in Hhi.
      case_bool_decide; [apply Z.ltb_lt in Hlo|apply Z.leb_le in Hlo]; nia.
  - rewrite bool_decide_eq_false_2 by done. symmetry.
    apply not_true_is_false. intros Hw.
    apply andb_prop in Hw as [Hlo Hhi]. apply Z.ltb_lt in Hhi. nia.
  - rewrite bool_decide_eq_false_2 by done. symmetry.
    apply not_true_is_false. intros Hw.
    apply andb_prop in Hw as [Hlo Hhi]. apply Z.ltb_lt in Hhi.
    case_bool_decide; [apply Z.ltb_lt in Hlo|apply Z.leb_le in Hlo]; nia.
  - lia.
Qed.
End WindowFacts.

(** X25: the 26 weekly bars. The list has 26 entries; entry [j] is the number
    of submissions whose age, in milliseconds, is at least [25 - j] weeks and
    less than [26 - j] weeks, except that the last entry also counts the
    submissions dated less than one week after now. Submissions of 26 weeks
    ago or more are not counted. *)
Theorem weekly_activity_bins (nowMs : Z) (submissions : list Submission) :
  let weeklyData := calculateWeeklyActivity nowMs submissions in
  length weeklyData = 26%nat
  ∧ ∀ j, (j < 26)%nat →
      weeklyData !! j
      = Some (count
                (λ s, (if bool_decide (j = 25%nat)
                       then - MILLISECONDS_A_WEEK <? ageMs nowMs s
                       else (25 - Z.of_nat j) * MILLISECONDS_A_WEEK <=? ageMs nowMs s)
                      && (ageMs nowMs s <? (26 - Z.of_nat j) * MILLISECONDS_A_WEEK))
                submissions).
Proof.
  cbv zeta. unfold calculateWeeklyActivity. split.
  - rewrite (bins_length _ _ (weekly_step_bin nowMs)). apply length_replicate.
  - intros j Hj. rewrite (bins_lookup _ _ (weekly_step_bin nowMs)).
    rewrite lookup_replicate_2 by done. simpl. f_equal.
    apply count_ext. intros s _.
    rewrite (binOf_window MILLISECONDS_A_WEEK 26 nowMs s j) by (done || lia).
    f_equal. repeat case_bool_decide; done || lia.
Qed.

(** X26: the 365 cells of the heat map of the analytics page. The list has
    365 entries; entry [j] is the number of submissions whose age is at least
    [364 - j] days and less than [365 - j] days, except that the last entry
    also counts the submissions dated less than one day after now. *)
Theorem daily_activity_bins (nowMs : Z) (submissions : list Submission) :
  let dailyData := calculateDailyActivity nowMs submissions in
  length dailyData = 365%nat
  ∧ ∀ j, (j < 365)%nat →
      dailyData !! j
      = Some (count
                (λ s, (if bool_decide (j = 364%nat)
                       then - MILLISECONDS_A_DAY <? ageMs nowMs s
                       else (364 - Z.of_nat j) * MILLISECONDS_A_DAY <=? ageMs nowMs s)
                      && (ageMs nowMs s <? (365 - Z.of_nat j) * MILLISECONDS_A_DAY))
                submissions).
Proof.
  cbv zeta. unfold calculateDailyActivity. split.
  - rewrite (bins_length _ _ (daily_step_bin nowMs)). apply length_replicate.
  - intros j Hj. rewrite (bins_lookup _ _ (daily_step_bin nowMs)).
    rewrite lookup_replicate_2 by done. simpl. f_equal.
    apply count_ext. intros s _.
    rewrite (binOf_window MILLISECONDS_A_DAY 365 nowMs s j) by (done || lia).
    f_equal. repeat case_bool_decide; done || lia.
Qed.

(** X27: the status shown for the 26 weekly bars: "excellent" from 21 active
    weeks on, "good" from 16, "inconsistent" from 11 and "needs-work" below,
    the comparisons of [(activeWeeks / 26) * 100] with 80, 60 and 40 being
    made in binary64. *)
Theorem analytics_status (nowMs : Z) (submissions : list Submission) :
  let m := Analytics.calculateConsistencyMetrics
             (calculateWeeklyActivity nowMs submissions) in
  (Analytics.m_activeWeeks m ≤ 26)%nat
  ∧ Analytics.m_status m
    = if bool_decide (21 ≤ Analytics.m_activeWeeks m)%nat then "excellent"
      else if bool_decide (16 ≤ Analytics.m_activeWeeks m)%nat then "good"
      else if bool_decide (11 ≤ Analytics.m_activeWeeks m)%nat then "inconsistent"
      else "needs-work".
Proof.
  cbv zeta. unfold Analytics.calculateConsistencyMetrics. rewrite loop_all.
  cbn [Analytics.m_activeWeeks Analytics.m_status].
  assert (Analytics.activeWeeks (scan (calculateWeeklyActivity nowMs submissions))
          ≤ 26)%nat as Hle.
  { rewrite scan_activeWeeks.
    etransitivity; [apply count_le_length|].
    unfold calculateWeeklyActivity.
    rewrite (bins_length _ _ (weekly_step_bin nowMs)), length_replicate. done. }
  split; [done|]. by apply statusOf_thresholds.
Qed.
